(** * Byte-Pair-Encoding tokenizers: a shallow embedding and its properties

    The development embeds the two BPE tokenizers of the repository,
    [BPE_Tokenizer] (tokenizer_BPE.py, character alphabet with an
    end-of-word marker) and [ByteBPE_Tokenizer] (Byte_level_BPE.py, byte
    alphabet), and proves or refutes the properties stated for them. It
    also embeds [WordTokenizer] (Word_tokenizer.py) and
    [Character_Tokenizer] (Character_tokenizer.py).

    Python values are modelled as follows.
    - A [str] is the list of its code points, a [bytes] object the list of
      its byte values; both are [list N].
    - A [dict] whose iteration order is observed ([_bpe_vocab] and the pair
      counts) is an association list in insertion order; a [dict] that is
      only looked up ([pair2rank], [token_to_id], [id_to_token]) is a
      [gmap].
    - A raised exception is the [Raise] case of [result]. *)

From Stdlib Require Import NArith ZArith Ascii String Lia.
From stdpp Require Import gmap list sorting.

Local Open Scope N_scope.
Local Open Scope nat_scope.

(** ** Python values and built-ins *)

Module Py.

Abbreviation str := (list N) (only parsing).
Abbreviation bytes := (list N) (only parsing).

(** A symbol is a [str] in the character tokenizer and a [bytes] object
    in the byte tokenizer; [a + b] is list concatenation in both. *)
Abbreviation symbol := (list N) (only parsing).
Abbreviation symbol_pair := (list N * list N)%type (only parsing).

Inductive exn := ValueError | KeyError | UnicodeEncodeError | TypeError.

Inductive result (A : Type) := Ok (a : A) | Raise (e : exn).
Arguments Ok {A} a.
Arguments Raise {A} e.

(** The code points of a literal. *)
Definition py (s : string) : str :=
  (fun a => N_of_ascii a) <$> list_ascii_of_string s.

(** *** Insertion-ordered dictionaries *)

Abbreviation odict K V := (list (K * V)) (only parsing).

Section odict.
Context {K : Type} `{EqDecision K}.

Fixpoint od_get {V} (d : odict K V) (k : K) : option V :=
  match d with
  | [] => None
  | (k', v) :: d' => if decide (k' = k) then Some v else od_get d' k
  end.

(** [d[k] += n] on a [defaultdict(int)]: an existing key keeps its
    position, a new key goes to the end. *)
Fixpoint od_add (d : odict K nat) (k : K) (n : nat) : odict K nat :=
  match d with
  | [] => [(k, n)]
  | (k', v) :: d' =>
      if decide (k' = k) then (k', v + n) :: d' else (k', v) :: od_add d' k n
  end.

(** [max(d, key=d.get)]: the first key, in iteration order, whose value
    is maximal; [acc] is the best entry seen so far. *)
Fixpoint max_from (acc : K * nat) (d : odict K nat) : K * nat :=
  match d with
  | [] => acc
  | (k, v) :: d' => max_from (if acc.2 <? v then (k, v) else acc) d'
  end.

Definition max_by_value (d : odict K nat) : option (K * nat) :=
  match d with
  | [] => None
  | e :: d' => Some (max_from e d')
  end.

End odict.

(** *** [str] methods and the [re] call of [normalize] *)

(** [Py_UNICODE_ISSPACE], which decides [str.strip], [str.split] and the
    class [\s] of a [str] pattern. *)
Definition is_space (c : N) : bool :=
  ((9 <=? c) && (c <=? 13) || (28 <=? c) && (c <=? 32) || (c =? 133)
   || (c =? 160) || (c =? 5760) || (8192 <=? c) && (c <=? 8202)
   || (c =? 8232) || (c =? 8233) || (c =? 8239) || (c =? 8287)
   || (c =? 12288))%N.

Fixpoint lstrip (s : str) : str :=
  match s with
  | [] => []
  | c :: s' => if is_space c then lstrip s' else s
  end.

(** [s.strip()] *)
Definition strip (s : str) : str := reverse (lstrip (reverse (lstrip s))).

(** [re.sub(r"\s+", " ", s)]; [in_run] tells that the previous character
    was white space, already replaced. *)
Fixpoint sub_spaces (in_run : bool) (s : str) : str :=
  match s with
  | [] => []
  | c :: s' =>
      if is_space c
      then (if in_run then sub_spaces true s' else 32%N :: sub_spaces true s')
      else c :: sub_spaces false s'
  end.

(** [s.split()]; [cur] is the word being read. *)
Fixpoint split_from (cur : str) (s : str) : list str :=
  match s with
  | [] => match cur with [] => [] | _ => [cur] end
  | c :: s' =>
      if is_space c
      then match cur with [] => split_from [] s' | _ => cur :: split_from [] s' end
      else split_from (cur ++ [c]) s'
  end.

Definition split (s : str) : list str := split_from [] s.

(** [sep.join(words)] *)
Fixpoint join (sep : str) (words : list str) : str :=
  match words with
  | [] => []
  | w :: rest =>
      match rest with
      | [] => w
      | _ :: _ => w ++ sep ++ join sep rest
      end
  end.

(** A text of white space only; the empty text is one. *)
Definition whitespace (s : str) : Prop := Forall (fun c => is_space c = true) s.

(** A word: not empty and free of white space. *)
Definition is_word (w : str) : Prop :=
  w <> [] /\ Forall (fun c => is_space c = false) w.

(** [s.endswith(suffix)] *)
Definition endswith (s suffix : str) : bool :=
  bool_decide (drop (length s - length suffix) s = suffix).

(** *** Order of [str] and of [bytes], and [sorted] *)

Fixpoint lex_leb (a b : list N) : bool :=
  match a, b with
  | [], _ => true
  | _ :: _, [] => false
  | x :: a', y :: b' =>
      if (x <? y)%N then true
      else if (y <? x)%N then false
      else lex_leb a' b'
  end.

Definition lex_le (a b : list N) : Prop := lex_leb a b = true.

#[global] Instance lex_le_dec : RelDecision lex_le :=
  fun a b => bool_eq_dec (lex_leb a b) true.

Definition sorted (l : list (list N)) : list (list N) := merge_sort lex_le l.

(** *** UTF-8 *)

(** The bytes of one code point; [None] for a surrogate, which
    [str.encode("utf-8")] refuses with [UnicodeEncodeError], and for a
    number above U+10FFFF, which no [str] holds. *)
Definition utf8_encode_char (c : N) : option bytes :=
  (if c <? 128 then Some [c]
   else if c <? 2048 then Some [192 + c / 64; 128 + c mod 64]
   else if c <? 65536 then
     if (55296 <=? c) && (c <=? 57343) then None
     else Some [224 + c / 4096; 128 + (c / 64) mod 64; 128 + c mod 64]
   else if c <? 1114112 then
     Some [240 + c / 262144; 128 + (c / 4096) mod 64;
           128 + (c / 64) mod 64; 128 + c mod 64]
   else None)%N.

(** [s.encode("utf-8")] *)
Fixpoint utf8_encode (s : str) : option bytes :=
  match s with
  | [] => Some []
  | c :: s' =>
      match utf8_encode_char c, utf8_encode s' with
      | Some b, Some bs => Some (b ++ bs)
      | _, _ => None
      end
  end.

Definition is_cont (b : N) : bool := ((128 <=? b) && (b <=? 191))%N.

(** The second byte allowed after the lead byte [b0] of a sequence of
    three or four bytes. *)
Definition second_ok (b0 b1 : N) : bool :=
  (if b0 =? 224 then (160 <=? b1) && (b1 <=? 191)
   else if b0 =? 237 then (128 <=? b1) && (b1 <=? 159)
   else if b0 =? 240 then (144 <=? b1) && (b1 <=? 191)
   else if b0 =? 244 then (128 <=? b1) && (b1 <=? 143)
   else is_cont b1)%N.

Definition replacement_character : N := 65533%N.

(** [b.decode("utf-8", errors="replace")]: every maximal ill-formed
    prefix becomes one U+FFFD and decoding resumes after it. *)
Fixpoint utf8_decode_replace (b : bytes) : str :=
  match b with
  | [] => []
  | b0 :: r0 =>
      if (b0 <? 128)%N then b0 :: utf8_decode_replace r0
      else if ((194 <=? b0) && (b0 <=? 223))%N then
        match r0 with
        | b1 :: r1 =>
            if is_cont b1
            then ((b0 - 192) * 64 + (b1 - 128))%N :: utf8_decode_replace r1
            else replacement_character :: utf8_decode_replace r0
        | [] => [replacement_character]
        end
      else if ((224 <=? b0) && (b0 <=? 239))%N then
        match r0 with
        | b1 :: r1 =>
            if second_ok b0 b1 then
              match r1 with
              | b2 :: r2 =>
                  if is_cont b2
                  then ((b0 - 224) * 4096 + (b1 - 128) * 64 + (b2 - 128))%N
                         :: utf8_decode_replace r2
                  else replacement_character :: utf8_decode_replace r1
              | [] => [replacement_character]
              end
            else replacement_character :: utf8_decode_replace r0
        | [] => [replacement_character]
        end
      else if ((240 <=? b0) && (b0 <=? 244))%N then
        match r0 with
        | b1 :: r1 =>
            if second_ok b0 b1 then
              match r1 with
              | b2 :: r2 =>
                  if is_cont b2 then
                    match r2 with
                    | b3 :: r3 =>
                        if is_cont b3
                        then ((b0 - 240) * 262144 + (b1 - 128) * 4096
                              + (b2 - 128) * 64 + (b3 - 128))%N
                               :: utf8_decode_replace r3
                        else replacement_character :: utf8_decode_replace r2
                    | [] => [replacement_character]
                    end
                  else replacement_character :: utf8_decode_replace r1
              | [] => [replacement_character]
              end
            else replacement_character :: utf8_decode_replace r0
        | [] => [replacement_character]
        end
      else replacement_character :: utf8_decode_replace r0
  end.

(** *** A [while True: ... break] loop

    [step] is one pass through the body: [None] when the body breaks,
    [Some s'] when it reaches the end with the new state [s']. *)
Fixpoint while_true {S : Type} (step : S -> option S) (fuel : nat) (s : S) : S :=
  match fuel with
  | O => s
  | S fuel' =>
      match step s with
      | None => s
      | Some s' => while_true step fuel' s'
      end
  end.

End Py.

Import Py.

(** ** Methods that are the same in both classes

    [_get_pair_stats], [_merge_vocab], the merge loop of [train] and the
    segmentation loop of [_encode_word] / [_encode_bytes] have the same
    body in tokenizer_BPE.py and Byte_level_BPE.py. *)

Module Common.

(** The inner [while i < len(word)] scan of [_merge_vocab] and of the
    segmentation loop: every occurrence of [(first, second)] met from left
    to right is replaced by [first + second], and the scan resumes after
    it. *)
Fixpoint merge_word (first second : symbol) (word : list symbol) : list symbol :=
  match word with
  | [] => []
  | x :: rest =>
      match rest with
      | [] => [x]
      | y :: rest' =>
          if decide (x = first /\ y = second)
          then (first ++ second) :: merge_word first second rest'
          else x :: merge_word first second rest
      end
  end.

(** The pairs [(word[i], word[i+1])] for [i in range(len(word)-1)]. *)
Fixpoint adjacent_pairs (word : list symbol) : list symbol_pair :=
  match word with
  | [] => []
  | x :: rest =>
      match rest with
      | [] => []
      | y :: _ => (x, y) :: adjacent_pairs rest
      end
  end.

Definition _get_pair_stats (bpe_vocab : odict (list symbol) nat) : odict symbol_pair nat :=
  foldl (fun pair_counts '(word, freq) =>
           foldl (fun pc p => od_add pc p freq) pair_counts (adjacent_pairs word))
        [] bpe_vocab.

Definition _merge_vocab (p : symbol_pair) (bpe_vocab : odict (list symbol) nat) : odict (list symbol) nat :=
  foldl (fun new_bpe_vocab '(word, freq) =>
           od_add new_bpe_vocab (merge_word p.1 p.2 word) freq)
        [] bpe_vocab.

(** The [for _ in range(num_merges)] loop of [train]; [n] counts the
    iterations that remain, and [count] is [pair_counts[best_pair]]. *)
Fixpoint train_loop (n : nat) (bpe_vocab : odict (list symbol) nat) (merges : list symbol_pair)
  : odict (list symbol) nat * list symbol_pair :=
  match n with
  | O => (bpe_vocab, merges)
  | S n' =>
      match max_by_value (_get_pair_stats bpe_vocab) with
      | None => (bpe_vocab, merges)
      | Some (best_pair, count) =>
          if count <? 2 then (bpe_vocab, merges)
          else train_loop n' (_merge_vocab best_pair bpe_vocab) (merges ++ [best_pair])
      end
  end.

(** [{pair: rank for rank, pair in enumerate(merges)}], the ranks starting
    at [rank]: a pair listed twice keeps its last rank. *)
Fixpoint make_pair2rank (rank : nat) (merges : list symbol_pair) (acc : gmap symbol_pair nat) : gmap symbol_pair nat :=
  match merges with
  | [] => acc
  | p :: merges' => make_pair2rank (S rank) merges' (<[p := rank]> acc)
  end.

(** *** The instance and the end of [train] *)

(** The attributes set by [__init__]; [T] is the type of the tokens. *)
Record tokenizer (T : Type) `{Countable T} := Tokenizer {
  num_merges : Z;
  token_to_id : gmap T Z;
  id_to_token : gmap Z T;
  _bpe_vocab : odict (list symbol) nat;
  merges : list symbol_pair;
  pair2rank : gmap symbol_pair nat
}.
Arguments Tokenizer {T _ _}.
Arguments num_merges {T _ _}.
Arguments token_to_id {T _ _}.
Arguments id_to_token {T _ _}.
Arguments _bpe_vocab {T _ _}.
Arguments merges {T _ _}.
Arguments pair2rank {T _ _}.

Section train.
Context {T : Type} `{Countable T}.

(** [__init__] *)
Definition init (num_merges : Z) : tokenizer T :=
  Tokenizer num_merges ∅ ∅ [] [] ∅.

(** The loop [for word in self._bpe_vocab.keys(): for sym in word:
    symbol_set.add(sym)]. *)
Definition collect_symbols (bpe_vocab : odict (list symbol) nat) : gset symbol :=
  foldl (fun symbol_set '(word, _) =>
           foldl (fun set sym => {[sym]} ∪ set) symbol_set word)
        ∅ bpe_vocab.

(** The loop [for idx, token in enumerate(vocab_list)], from index
    [idx] on. *)
Fixpoint build_maps (idx : Z) (vocab_list : list T) (t2i : gmap T Z) (i2t : gmap Z T)
  : gmap T Z * gmap Z T :=
  match vocab_list with
  | [] => (t2i, i2t)
  | token :: rest => build_maps (idx + 1) rest (<[token := idx]> t2i) (<[idx := token]> i2t)
  end.

(** Every token has the id that [token_to_id] gives it, and the ids in
    use are below the next one, [idx]. *)
Definition coherent (idx : Z) (t2i : gmap T Z) (i2t : gmap Z T) : Prop :=
  (forall t i, t2i !! t = Some i -> i2t !! i = Some t)
  /\ (forall i, is_Some (i2t !! i) -> (i < idx)%Z).

(** [train] after its first line: [bpe_vocab] is the value of
    [_get_bpe_vocab_from_corpus(corpus)], [special_tokens] is
    [SPECIAL_TOKENS] and [of_symbol] makes a symbol a token. [merges] is
    appended to, it is not reset. *)
Definition train_from (special_tokens : list T) (of_symbol : symbol -> T)
    (self : tokenizer T) (bpe_vocab : odict (list symbol) nat) : tokenizer T :=
  let '(bpe_vocab, merges) :=
    train_loop (Z.to_nat (num_merges self)) bpe_vocab (merges self) in
  let pair2rank := make_pair2rank 0 merges ∅ in
  let symbol_set := collect_symbols bpe_vocab in
  let vocab_list := special_tokens ++ (of_symbol <$> sorted (elements symbol_set)) in
  let '(token_to_id, id_to_token) := build_maps 0 vocab_list ∅ ∅ in
  Tokenizer (num_merges self) token_to_id id_to_token bpe_vocab merges pair2rank.

End train.

(** *** The segmentation loop *)

Abbreviation candidate := (nat * nat * symbol_pair)%type (only parsing).

(** The [for i in range(len(symbols)-1)] scan collecting
    [(rank, i, pair)]; [i] is the position of the head of [symbols]. *)
Fixpoint candidates (pair2rank : gmap symbol_pair nat) (i : nat) (symbols : list symbol) : list candidate :=
  match symbols with
  | [] => []
  | x :: rest =>
      match rest with
      | [] => []
      | y :: _ =>
          match pair2rank !! (x, y) with
          | Some rank => (rank, i, (x, y)) :: candidates pair2rank (S i) rest
          | None => candidates pair2rank (S i) rest
          end
      end
  end.

(** Tuple order on [(rank, i, pair)]. Two candidates never share their
    position [i], so the comparison is settled by rank and position. *)
Definition cand_ltb (c d : candidate) : bool :=
  (c.1.1 <? d.1.1) || ((c.1.1 =? d.1.1) && (c.1.2 <? d.1.2)).

(** [min(candidates)]: the first least element. *)
Fixpoint min_from (acc : candidate) (cs : list candidate) : candidate :=
  match cs with
  | [] => acc
  | c :: cs' => min_from (if cand_ltb c acc then c else acc) cs'
  end.

Definition best_candidate (pair2rank : gmap symbol_pair nat) (symbols : list symbol) : option candidate :=
  match candidates pair2rank 0 symbols with
  | [] => None
  | c :: cs => Some (min_from c cs)
  end.

(** One pass through the body of [while True]. *)
Definition segment_step (pair2rank : gmap symbol_pair nat) (symbols : list symbol) : option (list symbol) :=
  match best_candidate pair2rank symbols with
  | None => None
  | Some (_, _, best_pair) => Some (merge_word best_pair.1 best_pair.2 symbols)
  end.

(** [_encode_word] / [_encode_bytes] from the line [if not self.pair2rank]
    on. Every pass shortens [symbols], so [length symbols] passes are
    enough ([segment_terminal] below). *)
Definition segment (pair2rank : gmap symbol_pair nat) (symbols : list symbol) : list symbol :=
  if decide (pair2rank = ∅) then symbols
  else while_true (segment_step pair2rank) (length symbols) symbols.

(** *** The reference segmenter of the specification

    Steps 1 to 5 of the Segmenter: the candidate of lowest rank, leftmost
    among equals, is chosen, and that one occurrence is replaced. *)

Definition replace_at (i : nat) (symbols : list symbol) : list symbol :=
  take i symbols ++
  match drop i symbols with
  | x :: y :: rest => (x ++ y) :: rest
  | rest => rest
  end.

Definition reference_step (pair2rank : gmap symbol_pair nat) (symbols : list symbol) : option (list symbol) :=
  match best_candidate pair2rank symbols with
  | None => None
  | Some (_, i, _) => Some (replace_at i symbols)
  end.

Definition reference_segment (pair2rank : gmap symbol_pair nat) (symbols : list symbol) : list symbol :=
  if decide (pair2rank = ∅) then symbols
  else while_true (reference_step pair2rank) (length symbols) symbols.

(** The pair counts leave nothing to merge: there is no pair, or the
    best count is below 2. *)
Definition starved (bpe_vocab : odict (list symbol) nat) : Prop :=
  match max_by_value (_get_pair_stats bpe_vocab) with
  | None => True
  | Some (_, count) => count < 2
  end.

(** *** Conditions on a merge-rank table *)

(** Distinct pairs have distinct ranks. *)
Definition distinct_ranks (tbl : gmap symbol_pair nat) : Prop :=
  forall p q r, tbl !! p = Some r -> tbl !! q = Some r -> p = q.

(** A listed pair that contains the merged symbol [a + b] is ranked after
    [(a, b)]. *)
Definition merged_ranked_later (tbl : gmap symbol_pair nat) : Prop :=
  forall a b x y r r',
    tbl !! (a, b) = Some r -> tbl !! (x, y) = Some r' ->
    x = a ++ b \/ y = a ++ b -> r < r'.

(** *** The tie-break of the specification

    Step 3 of the Vocabulary Inducer: among the pairs of maximum
    frequency, the least one in the order of tuples of [str]. *)





End Common.

(** ** [BPE_Tokenizer] (tokenizer_BPE.py) *)

Module BPE_Tokenizer.

(** A token is a [str]. *)
Abbreviation token := (list N) (only parsing).

Definition SPECIAL_TOKENS : list token :=
  [py "<pad>"; py "<unk>"; py "<bos>"; py "<eos>"].

(** The end-of-word marker ["</w>"]. *)
Definition end_of_word : symbol := py "</w>".

Definition tokenizer := Common.tokenizer token.

Definition init (num_merges : Z) : tokenizer := Common.init num_merges.

Section methods.
(** [unicodedata.normalize("NFKC", _)] and [str.lower] are the
    interpreter's; the methods are given for any two functions. *)
Variables (nfkc lower : str -> str).

Definition normalize (text : str) : str :=
  sub_spaces false (strip (lower (nfkc text))).

(** [list(word) + ["</w>"]] *)
Definition word_symbols (word : str) : list symbol :=
  ((fun c => [c]) <$> word) ++ [end_of_word].

Definition _get_bpe_vocab_from_corpus (corpus : list str) : odict (list symbol) nat :=
  foldl (fun bpe_vocab line =>
           foldl (fun bpe_vocab word =>
                    match word with
                    | [] => bpe_vocab
                    | _ :: _ => od_add bpe_vocab (word_symbols word) 1
                    end)
                 bpe_vocab (split (normalize line)))
        [] corpus.

Definition _get_pair_stats := Common._get_pair_stats.
Definition _merge_vocab := Common._merge_vocab.

Definition train (self : tokenizer) (corpus : list str) : tokenizer :=
  Common.train_from SPECIAL_TOKENS id self (_get_bpe_vocab_from_corpus corpus).

Definition _encode_word (self : tokenizer) (word : str) : list symbol :=
  Common.segment (Common.pair2rank self) (word_symbols word).

(** [self.token_to_id.get(tok, unk_id)] for every token. *)
Definition to_ids (self : tokenizer) (unk_id : Z) (tokens : list token) : list Z :=
  (fun tok => default unk_id (Common.token_to_id self !! tok)) <$> tokens.

Definition encode (self : tokenizer) (text : str) : result (list Z) :=
  if decide (Common.token_to_id self = ∅) then Raise ValueError
  else
    let norm := normalize text in
    let words := filter (fun w => w <> []) (split norm) in
    let tokens := concat (_encode_word self <$> words) in
    let tokens := [py "<bos>"] ++ tokens ++ [py "<eos>"] in
    match Common.token_to_id self !! py "<unk>" with
    | None => Raise KeyError
    | Some unk_id => Ok (to_ids self unk_id tokens)
    end.

(** The loop [for tok in tokens] of [decode], on the pair
    [(words, current_word)]. *)
Definition decode_step (acc : list str * str) (tok : token) : list str * str :=
  let '(words, current_word) := acc in
  if endswith tok end_of_word
  then (words ++ [current_word ++ take (length tok - 4) tok], [])
  else (words, current_word ++ tok).

(** The words left by the loop, with the [if current_word] that follows
    it. *)
Definition words_of_tokens (tokens : list token) : list str :=
  let '(words, current_word) := foldl decode_step ([], []) tokens in
  match current_word with
  | [] => words
  | _ :: _ => words ++ [current_word]
  end.

Definition decode (self : tokenizer) (ids : list Z) : result str :=
  if decide (Common.id_to_token self = ∅) then Raise ValueError
  else
    let tokens := (fun i => default (py "<unk>") (Common.id_to_token self !! i)) <$> ids in
    let tokens := filter (fun t => t ∉ SPECIAL_TOKENS) tokens in
    Ok (join (py " ") (words_of_tokens tokens)).

End methods.

(** The token that [decode] keeps for the id [i]: an id that
    [id_to_token] lacks gives ["<unk>"], which goes with the other special
    tokens. *)
Definition kept_token (self : tokenizer) (i : Z) : option token :=
  match Common.id_to_token self !! i with
  | Some tok => if decide (tok ∈ SPECIAL_TOKENS) then None else Some tok
  | None => None
  end.

(** The symbols of a word that [decode] can put together again: each is
    in the vocabulary, none is a special token, and none but the last ends
    with the end-of-word marker. *)
Definition decodable (self : tokenizer) (symbols : list symbol) : Prop :=
  Forall (fun sym => is_Some (Common.token_to_id self !! sym) /\ sym ∉ SPECIAL_TOKENS) symbols
  /\ Forall (fun sym => endswith sym end_of_word = false)
            (take (length symbols - 1) symbols).

End BPE_Tokenizer.

(** ** [ByteBPE_Tokenizer] (Byte_level_BPE.py) *)

Module ByteBPE_Tokenizer.

(** A token is a [str] (the special tokens) or a [bytes] object (the
    symbols); a [str] never equals a [bytes] object. *)
Inductive token := TStr (s : str) | TBytes (b : bytes).

#[global] Instance token_eq_dec : EqDecision token.
Proof. solve_decision. Defined.

#[global] Instance token_countable : Countable token :=
  inj_countable'
    (fun t => match t with TStr s => inl s | TBytes b => inr b end)
    (fun x => match x with inl s => TStr s | inr b => TBytes b end)
    (fun t => match t with TStr _ => eq_refl | TBytes _ => eq_refl end).

Definition SPECIAL_TOKENS : list token :=
  [TStr (py "<pad>"); TStr (py "<unk>"); TStr (py "<bos>"); TStr (py "<eos>")].

Definition tokenizer := Common.tokenizer token.

Definition init (num_merges : Z) : tokenizer := Common.init num_merges.

Section methods.
Variables (nfkc lower : str -> str).

Definition normalize (text : str) : str :=
  sub_spaces false (strip (lower (nfkc text))).

(** [[bytes([byte]) for byte in b]] *)
Definition byte_symbols (b : bytes) : list symbol := (fun byte => [byte]) <$> b.

(** The body of [for line in corpus]; [norm.encode("utf-8")] may raise. *)
Definition add_line (bpe_vocab : odict (list symbol) nat) (line : str)
  : result (odict (list symbol) nat) :=
  match utf8_encode (normalize line) with
  | None => Raise UnicodeEncodeError
  | Some b =>
      match byte_symbols b with
      | [] => Ok bpe_vocab
      | symbols => Ok (od_add bpe_vocab symbols 1)
      end
  end.

Fixpoint add_lines (bpe_vocab : odict (list symbol) nat) (corpus : list str)
  : result (odict (list symbol) nat) :=
  match corpus with
  | [] => Ok bpe_vocab
  | line :: corpus' =>
      match add_line bpe_vocab line with
      | Ok bpe_vocab' => add_lines bpe_vocab' corpus'
      | Raise e => Raise e
      end
  end.

Definition _get_bpe_vocab_from_corpus (corpus : list str) : result (odict (list symbol) nat) :=
  add_lines [] corpus.

Definition _get_pair_stats := Common._get_pair_stats.
Definition _merge_vocab := Common._merge_vocab.

(** An exception of the first line leaves the instance as it was. *)
Definition train (self : tokenizer) (corpus : list str) : result tokenizer :=
  match _get_bpe_vocab_from_corpus corpus with
  | Raise e => Raise e
  | Ok bpe_vocab => Ok (Common.train_from SPECIAL_TOKENS TBytes self bpe_vocab)
  end.

Definition _encode_bytes (self : tokenizer) (byte_seq : bytes) : list symbol :=
  Common.segment (Common.pair2rank self) (byte_symbols byte_seq).

Definition to_ids (self : tokenizer) (unk_id : Z) (tokens : list token) : list Z :=
  (fun tok => default unk_id (Common.token_to_id self !! tok)) <$> tokens.

Definition encode (self : tokenizer) (text : str) : result (list Z) :=
  if decide (Common.token_to_id self = ∅) then Raise ValueError
  else
    let norm := normalize text in
    match utf8_encode norm with
    | None => Raise UnicodeEncodeError
    | Some words =>
        let byte_tokens := _encode_bytes self words in
        let tokens := [TStr (py "<bos>")] ++ (TBytes <$> byte_tokens) ++ [TStr (py "<eos>")] in
        match Common.token_to_id self !! TStr (py "<unk>") with
        | None => Raise KeyError
        | Some unk_id => Ok (to_ids self unk_id tokens)
        end
    end.

(** [b"".join(byte_pieces)]: a piece that is a [str] is a [TypeError]. *)
Fixpoint bytes_join (byte_pieces : list token) : result bytes :=
  match byte_pieces with
  | [] => Ok []
  | TStr _ :: _ => Raise TypeError
  | TBytes b :: rest =>
      match bytes_join rest with
      | Ok bs => Ok (b ++ bs)
      | Raise e => Raise e
      end
  end.

Definition decode (self : tokenizer) (ids : list Z) : result str :=
  if decide (Common.id_to_token self = ∅) then Raise ValueError
  else
    let tokens := (fun i => default (TStr (py "<unk>")) (Common.id_to_token self !! i)) <$> ids in
    let byte_pieces := filter (fun t => t ∉ SPECIAL_TOKENS) tokens in
    match bytes_join byte_pieces with
    | Raise e => Raise e
    | Ok byte_stream => Ok (utf8_decode_replace byte_stream)
    end.

End methods.

(** The instances that [train] returns. *)
Definition trained (nfkc lower : str -> str) (t : tokenizer) : Prop :=
  exists self corpus, train nfkc lower self corpus = Ok t.

(** The piece that [decode] joins for the id [i]: the [bytes] value of
    the id, if it has one. *)
Definition kept_bytes (self : tokenizer) (i : Z) : option bytes :=
  match Common.id_to_token self !! i with
  | Some (TBytes b) => Some b
  | _ => None
  end.

End ByteBPE_Tokenizer.

(** ** [WordTokenizer] and [Character_Tokenizer]

    [build_vocab] and [encode] have the same body in Word_tokenizer.py and
    Character_tokenizer.py, but for the call of [tokenize]. *)

Module Vocabulary.

(** A token is a [str]. *)
Abbreviation token := (list N) (only parsing).

Definition SPECIAL_TOKENS : list token :=
  [py "<pad>"; py "<unk>"; py "<bos>"; py "<eos>"].

(** The attributes set by [__init__]. *)
Record tokenizer := Tokenizer {
  token_to_id : gmap token Z;
  id_to_token : gmap Z token
}.

Definition init : tokenizer := Tokenizer ∅ ∅.

(** The body of [for token in tokens], on [(vocab_tokens, seen)]. *)
Definition add_token (acc : list token * gset token) (tok : token) : list token * gset token :=
  if decide (tok ∈ acc.2) then acc else (acc.1 ++ [tok], {[tok]} ∪ acc.2).

(** The loop [for text in corpus]; [tokens_of text] is
    [self.tokenize(self.normalize(text))]. *)
Definition collect_tokens (tokens_of : str -> list token) (corpus : list str) : list token :=
  (foldl (fun acc text => foldl add_token acc (tokens_of text))
         (SPECIAL_TOKENS, list_to_set SPECIAL_TOKENS) corpus).1.

Definition build_vocab (tokens_of : str -> list token) (self : tokenizer) (corpus : list str)
  : tokenizer :=
  let vocab_tokens := collect_tokens tokens_of corpus in
  let '(token_to_id, id_to_token) := Common.build_maps 0 vocab_tokens ∅ ∅ in
  Tokenizer token_to_id id_to_token.

Definition encode (tokens_of : str -> list token) (self : tokenizer) (text : str)
  : result (list Z) :=
  if decide (token_to_id self = ∅) then Raise ValueError
  else
    let tokens := [py "<bos>"] ++ tokens_of text ++ [py "<eos>"] in
    match token_to_id self !! py "<unk>" with
    | None => Raise KeyError
    | Some unk_id => Ok ((fun tok => default unk_id (token_to_id self !! tok)) <$> tokens)
    end.

(** The tokens that [decode] joins: the tokens of the ids, without the
    special tokens. *)
Definition decode_tokens (self : tokenizer) (ids : list Z) : list token :=
  filter (fun t => t ∉ SPECIAL_TOKENS)
    ((fun i => default (py "<unk>") (id_to_token self !! i)) <$> ids).

End Vocabulary.

(** *** [Character_Tokenizer] (Character_tokenizer.py) *)

Module Character_Tokenizer.

Definition SPECIAL_TOKENS := Vocabulary.SPECIAL_TOKENS.
Definition tokenizer := Vocabulary.tokenizer.
Definition init : tokenizer := Vocabulary.init.

Section methods.
Variables (nfkc lower : str -> str).

Definition normalize (text : str) : str :=
  sub_spaces false (strip (lower (nfkc text))).

(** [list(text)], after [normalize]. *)
Definition tokenize (text : str) : list (list N) :=
  (fun c => [c]) <$> normalize text.

Definition build_vocab (self : tokenizer) (corpus : list str) : tokenizer :=
  Vocabulary.build_vocab (fun text => tokenize (normalize text)) self corpus.

Definition encode (self : tokenizer) (text : str) : result (list Z) :=
  Vocabulary.encode (fun text => tokenize (normalize text)) self text.

(** [text = "".join(tokens)] *)
Definition decode (self : tokenizer) (ids : list Z) : result str :=
  if decide (Vocabulary.id_to_token self = ∅) then Raise ValueError
  else Ok (concat (Vocabulary.decode_tokens self ids)).

End methods.

End Character_Tokenizer.

(** *** [WordTokenizer] (Word_tokenizer.py) *)

Module WordTokenizer.

Definition SPECIAL_TOKENS := Vocabulary.SPECIAL_TOKENS.
Definition tokenizer := Vocabulary.tokenizer.
Definition init : tokenizer := Vocabulary.init.

Section methods.
(** [is_w] is the class [\w] of a [str] pattern, the interpreter's. *)
Variables (nfkc lower : str -> str) (is_w : N -> bool).

Definition normalize (text : str) : str :=
  sub_spaces false (strip (lower (nfkc text))).

(** [re.findall(r"\w+|[^\w\s]", s)]; [cur] is the run of [\w] being
    read. *)
Fixpoint findall (cur : str) (s : str) : list str :=
  match s with
  | [] => match cur with [] => [] | _ => [cur] end
  | c :: s' =>
      if is_w c then findall (cur ++ [c]) s'
      else
        let found := if is_space c then findall [] s' else [c] :: findall [] s' in
        match cur with [] => found | _ => cur :: found end
  end.

Definition tokenize (text : str) : list (list N) :=
  findall [] (normalize text).

Definition build_vocab (self : tokenizer) (corpus : list str) : tokenizer :=
  Vocabulary.build_vocab (fun text => tokenize (normalize text)) self corpus.

Definition encode (self : tokenizer) (text : str) : result (list Z) :=
  Vocabulary.encode (fun text => tokenize (normalize text)) self text.

(** [re.match(r"[^\w\s]", tok)] *)
Definition is_punctuation (tok : str) : bool :=
  match tok with
  | [] => false
  | c :: _ => negb (is_w c) && negb (is_space c)
  end.

(** The body of [for tok in tokens] of [decode], on [text_parts]. *)
Definition decode_step (text_parts : list str) (tok : str) : list str :=
  match text_parts with
  | [] => [tok]
  | _ :: _ =>
      if is_punctuation tok
      then take (length text_parts - 1) text_parts
           ++ [default [] (last text_parts) ++ tok]
      else text_parts ++ [tok]
  end.

Definition decode (self : tokenizer) (ids : list Z) : result str :=
  if decide (Vocabulary.id_to_token self = ∅) then Raise ValueError
  else Ok (join (py " ") (foldl decode_step [] (Vocabulary.decode_tokens self ids))).

End methods.

End WordTokenizer.

(** ** Notions used in the statements *)

(** *** Counting *)

Module Count.
(** [l.count(x)] *)
Definition occurrences {A : Type} `{EqDecision A} (x : A) (l : list A) : nat :=
  length (filter (fun y => y = x) l).

(** The sum of the values of a dictionary. *)
Definition sum_values {K : Type} (d : odict K nat) : nat := sum_list d.*2.

(** The sum of the counts of the entries of [d] whose key satisfies [P]. *)
Definition count_where {K : Type} (P : K -> Prop) `{forall k, Decision (P k)}
    (d : odict K nat) : nat :=
  sum_list ((fun e => if decide (P e.1) then e.2 else 0) <$> d).
End Count.

(** *** Words without ['<'] *)

Module Marked.
(** A word as the merges keep it when its text holds no ['<'] (U+003C):
    symbols that are not empty and free of ['<'], then one symbol that
    ends with the marker and holds no ['<'] before it. *)
Definition marked (word : list (list N)) : Prop :=
  exists init p,
    word = init ++ [p ++ BPE_Tokenizer.end_of_word]
    /\ Forall (fun sym => sym <> [] /\ 60%N ∉ sym) init
    /\ 60%N ∉ p.
End Marked.

(** * Properties *)

(** ** Facts about [while_true] *)

Section while_true_facts.
Context {S : Type} (step : S -> option S) (size : S -> nat).
Hypothesis step_decreases : forall s s', step s = Some s' -> size s' < size s.

Lemma while_true_fuel (f g : nat) (s : S) :
  size s <= f -> size s <= g -> while_true step f s = while_true step g s.
Proof.
  revert g s. induction f as [|f IH]; intros g s Hf Hg.
  - destruct g as [|g]; simpl; [done|].
    destruct (step s) as [s'|] eqn:E; [|done].
    apply step_decreases in E. lia.
  - destruct g as [|g]; simpl.
    + destruct (step s) as [s'|] eqn:E; [|done].
      apply step_decreases in E. lia.
    + destruct (step s) as [s'|] eqn:E; [|done].
      apply step_decreases in E. apply IH; lia.
Qed.

Lemma while_true_terminal (f : nat) (s : S) :
  size s <= f -> step (while_true step f s) = None.
Proof.
  revert s. induction f as [|f IH]; intros s Hf; simpl.
  - destruct (step s) as [s'|] eqn:E; [|done].
    apply step_decreases in E. lia.
  - destruct (step s) as [s'|] eqn:E; [|done].
    apply IH. apply step_decreases in E. lia.
Qed.

Lemma while_true_unfold (f : nat) (s s' : S) :
  step s = Some s' -> size s <= f ->
  while_true step f s = while_true step (size s') s'.
Proof.
  intros E Hf. destruct f as [|f]; simpl.
  - apply step_decreases in E. lia.
  - rewrite E. apply while_true_fuel; [|done].
    apply step_decreases in E. lia.
Qed.

End while_true_facts.

Lemma while_true_stop {S : Type} (step : S -> option S) (f : nat) (s : S) :
  step s = None -> while_true step f s = s.
Proof. intros E. destruct f; simpl; [done|]. by rewrite E. Qed.

(** ** Facts about the segmentation loop *)

Module SegmentFacts.
Import Common.

Lemma merge_word_cons_cons (a b x y : symbol) (rest : list symbol) :
  merge_word a b (x :: y :: rest)
  = if decide (x = a /\ y = b) then (a ++ b) :: merge_word a b rest
    else x :: merge_word a b (y :: rest).
Proof. done. Qed.

Lemma merge_word_length_le (a b : symbol) (s : list symbol) :
  length (merge_word a b s) <= length s.
Proof.
  remember (length s) as n eqn:Hn. revert s Hn.
  induction (lt_wf n) as [n _ IH]; intros s ->.
  destruct s as [|x [|y rest]]; simpl; [done..|].
  case_decide.
  - specialize (IH (length rest) ltac:(simpl; lia) rest eq_refl). simpl. lia.
  - specialize (IH (length (y :: rest)) ltac:(simpl; lia) (y :: rest) eq_refl).
    simpl in *. lia.
Qed.

Lemma merge_word_length_lt (a b : symbol) (s : list symbol) :
  (a, b) ∈ adjacent_pairs s -> length (merge_word a b s) < length s.
Proof.
  induction s as [|x [|y rest] IH]; simpl; intros Hin.
  - by apply elem_of_nil in Hin.
  - by apply elem_of_nil in Hin.
  - case_decide as Hd.
    + pose proof (merge_word_length_le a b rest). simpl. lia.
    + apply elem_of_cons in Hin as [Heq|Hin].
      * destruct Hd. by inversion Heq.
      * specialize (IH Hin). simpl in *. lia.
Qed.

Lemma merge_word_absent (a b : symbol) (s : list symbol) :
  (a, b) ∉ adjacent_pairs s -> merge_word a b s = s.
Proof.
  induction s as [|x [|y rest] IH]; simpl; intros Hin; [done..|].
  apply not_elem_of_cons in Hin as [Hne Hin].
  case_decide as Hd.
  - destruct Hd as [-> ->]. done.
  - f_equal. by apply IH.
Qed.

(** The candidates are the adjacent pairs that the table ranks. *)
Lemma elem_of_candidates (tbl : gmap symbol_pair nat) (k : nat) (s : list symbol) (c : candidate) :
  c ∈ candidates tbl k s -> c.2 ∈ adjacent_pairs s /\ tbl !! c.2 = Some c.1.1 /\ k <= c.1.2.
Proof.
  revert k. induction s as [|x [|y rest] IH]; intros k; simpl.
  - by intros ?%elem_of_nil.
  - by intros ?%elem_of_nil.
  - destruct (tbl !! (x, y)) as [r|] eqn:E.
    + intros [->|Hin]%elem_of_cons; simpl.
      * split; [left|done].
      * destruct (IH _ Hin) as (? & ? & ?). split; [by right|]. split; [done|lia].
    + intros Hin. destruct (IH _ Hin) as (? & ? & ?).
      split; [by right|]. split; [done|lia].
Qed.

Lemma candidates_complete (tbl : gmap symbol_pair nat) (k : nat) (s : list symbol) (p : symbol_pair) (r : nat) :
  p ∈ adjacent_pairs s -> tbl !! p = Some r -> exists i, (r, i, p) ∈ candidates tbl k s.
Proof.
  revert k. induction s as [|x [|y rest] IH]; intros k; simpl.
  - by intros ?%elem_of_nil.
  - by intros ?%elem_of_nil.
  - intros [->|Hin]%elem_of_cons Hp.
    + rewrite Hp. exists k. left.
    + destruct (IH (S k) Hin Hp) as [i Hi]. exists i.
      destruct (tbl !! (x, y)); [by right|done].
Qed.

Lemma candidates_nil (tbl : gmap symbol_pair nat) (k : nat) (s : list symbol) :
  candidates tbl k s = [] -> Forall (fun p => tbl !! p = None) (adjacent_pairs s).
Proof.
  intros E. apply Forall_forall. intros p Hin.
  destruct (tbl !! p) as [r|] eqn:Hp; [|done].
  destruct (candidates_complete tbl k s p r Hin Hp) as [i Hi].
  rewrite E in Hi. by apply elem_of_nil in Hi.
Qed.

Lemma min_from_elem_of (acc : candidate) (cs : list candidate) :
  min_from acc cs ∈ acc :: cs.
Proof.
  revert acc. induction cs as [|c cs IH]; intros acc; simpl; [left|].
  specialize (IH (if cand_ltb c acc then c else acc)).
  apply elem_of_cons in IH as [->|IH].
  - destruct (cand_ltb c acc); [right; left | left].
  - right. by right.
Qed.

Lemma min_from_rank_le (acc : candidate) (cs : list candidate) :
  Forall (fun c => (min_from acc cs).1.1 <= c.1.1) (acc :: cs).
Proof.
  revert acc. induction cs as [|c cs IH]; intros acc; simpl.
  - by repeat constructor.
  - specialize (IH (if cand_ltb c acc then c else acc)).
    apply Forall_cons in IH as [Hacc Hcs].
    assert ((if cand_ltb c acc then c else acc).1.1 <= acc.1.1
            /\ (if cand_ltb c acc then c else acc).1.1 <= c.1.1) as [H1 H2].
    { unfold cand_ltb. destruct (Nat.ltb_spec c.1.1 acc.1.1); simpl; [lia|].
      destruct (Nat.eqb_spec c.1.1 acc.1.1); simpl; [|lia].
      destruct (Nat.ltb_spec c.1.2 acc.1.2); simpl; lia. }
    constructor; [lia|]. constructor; [lia|done].
Qed.

Lemma min_from_keep (acc : candidate) (cs : list candidate) :
  Forall (fun c => cand_ltb c acc = false) cs -> min_from acc cs = acc.
Proof.
  induction 1 as [|c cs Hc _ IH]; simpl; [done|]. by rewrite Hc.
Qed.

(** A candidate below everything before it and not above anything after
    it is the least one. *)
Lemma min_from_middle (l1 : list candidate) (c : candidate) (l2 : list candidate) :
  Forall (fun d => cand_ltb c d = true) l1 ->
  Forall (fun d => cand_ltb d c = false) l2 ->
  match l1 ++ c :: l2 with
  | [] => False
  | d :: ds => min_from d ds = c
  end.
Proof.
  intros H1 H2. destruct l1 as [|d l1]; simpl.
  - by apply min_from_keep.
  - revert d H1. induction l1 as [|e l1 IH]; intros d H1; simpl.
    + apply Forall_cons in H1 as [-> _]. by apply min_from_keep.
    + apply Forall_cons in H1 as [Hd H1]. apply IH.
      destruct (cand_ltb e d); [done|].
      apply Forall_cons in H1 as [_ H1]. by constructor.
Qed.

Lemma best_candidate_spec (tbl : gmap symbol_pair nat) (s : list symbol) (r i : nat) (p : symbol_pair) :
  best_candidate tbl s = Some (r, i, p) ->
  p ∈ adjacent_pairs s /\ tbl !! p = Some r /\
  Forall (fun q => forall r', tbl !! q = Some r' -> r <= r') (adjacent_pairs s).
Proof.
  unfold best_candidate. destruct (candidates tbl 0 s) as [|c cs] eqn:E; [done|].
  intros [= Hmin].
  pose proof (min_from_elem_of c cs) as Hin. rewrite Hmin, <- E in Hin.
  apply elem_of_candidates in Hin as (Hp & Hr & _). simpl in *.
  split; [done|]. split; [done|].
  apply Forall_forall. intros q Hq r' Hr'.
  destruct (candidates_complete tbl 0 s q r' Hq Hr') as [j Hj].
  rewrite E in Hj. pose proof (min_from_rank_le c cs) as Hle.
  rewrite Forall_forall in Hle. specialize (Hle _ Hj). by rewrite Hmin in Hle.
Qed.

Lemma best_candidate_None (tbl : gmap symbol_pair nat) (s : list symbol) :
  best_candidate tbl s = None -> Forall (fun p => tbl !! p = None) (adjacent_pairs s).
Proof.
  unfold best_candidate. destruct (candidates tbl 0 s) as [|c cs] eqn:E; [|done].
  intros _. by eapply candidates_nil.
Qed.

Lemma segment_step_decreases (tbl : gmap symbol_pair nat) (s s' : list symbol) :
  segment_step tbl s = Some s' -> length s' < length s.
Proof.
  unfold segment_step. destruct (best_candidate tbl s) as [[[r i] [a b]]|] eqn:E; [|done].
  intros [= <-]. apply best_candidate_spec in E as (Hin & _). simpl.
  by apply merge_word_length_lt.
Qed.

Lemma segment_step_None (tbl : gmap symbol_pair nat) (s : list symbol) :
  segment_step tbl s = None -> Forall (fun p => tbl !! p = None) (adjacent_pairs s).
Proof.
  unfold segment_step. destruct (best_candidate tbl s) as [[[r i] [a b]]|] eqn:E; [done|].
  intros _. by apply best_candidate_None.
Qed.

(** The loop of [segment] reaches its [break]: the result has no
    candidate left. *)
Lemma segment_terminal (tbl : gmap symbol_pair nat) (s : list symbol) :
  Forall (fun p => tbl !! p = None) (adjacent_pairs (segment tbl s)).
Proof.
  unfold segment. case_decide as Hd.
  - subst tbl. apply Forall_forall. intros p _. apply lookup_empty.
  - apply segment_step_None.
    apply (while_true_terminal _ length (segment_step_decreases tbl)). done.
Qed.

Lemma segment_step_of_terminal (tbl : gmap symbol_pair nat) (s : list symbol) :
  Forall (fun p => tbl !! p = None) (adjacent_pairs s) -> segment_step tbl s = None.
Proof.
  intros Hall. unfold segment_step.
  destruct (best_candidate tbl s) as [[[r i] p]|] eqn:E; [|done].
  apply best_candidate_spec in E as (Hin & Hr & _).
  rewrite Forall_forall in Hall. specialize (Hall _ Hin). congruence.
Qed.

(** C9. Segmentation is a fixed point: the result of the segmentation
    loop has no adjacent pair that the merge-rank table lists, and the loop
    applied to its own result returns it unchanged, for every table and
    every symbol sequence. *)
Theorem segment_fixed_point (pair2rank : gmap symbol_pair nat) (symbols : list symbol) :
  Forall (fun p => pair2rank !! p = None) (adjacent_pairs (segment pair2rank symbols))
  /\ segment pair2rank (segment pair2rank symbols) = segment pair2rank symbols.
Proof.
  split; [apply segment_terminal|].
  pose proof (segment_terminal pair2rank symbols) as Hterm.
  apply segment_step_of_terminal in Hterm.
  unfold segment at 1. case_decide; [done|].
  by apply while_true_stop.
Qed.


(** *** The segmentation loop and the reference segmenter *)

Lemma Forall_sub {A : Type} (P : A -> Prop) (l' l : list A) :
  l' ⊆ l -> Forall P l -> Forall P l'.
Proof. rewrite !Forall_forall. intros Hsub Hall x Hx. apply Hall, Hsub, Hx. Qed.

Lemma adjacent_pairs_app (l1 : list symbol) (x : symbol) (l2 : list symbol) :
  adjacent_pairs (l1 ++ x :: l2) = adjacent_pairs (l1 ++ [x]) ++ adjacent_pairs (x :: l2).
Proof.
  induction l1 as [|y [|z l1] IH]; simpl in *; [done| |].
  - by destruct l2.
  - by rewrite IH.
Qed.

Lemma candidates_app (tbl : gmap symbol_pair nat) (k : nat) (l1 : list symbol) (x : symbol) (l2 : list symbol) :
  candidates tbl k (l1 ++ x :: l2)
  = candidates tbl k (l1 ++ [x]) ++ candidates tbl (k + length l1) (x :: l2).
Proof.
  revert k. induction l1 as [|y [|z l1] IH]; intros k; simpl in *.
  - replace (k + 0) with k by lia. by destruct l2.
  - replace (k + 1) with (S k) by lia.
    destruct l2; simpl; by destruct (tbl !! (y, x)).
  - specialize (IH (S k)). replace (k + S (S (length l1))) with (S k + S (length l1)) by lia.
    rewrite IH. by destruct (tbl !! (y, z)).
Qed.

Lemma candidates_Forall_rank (P : nat -> Prop) (tbl : gmap symbol_pair nat) (k : nat) (s : list symbol) :
  Forall (fun q => forall r', tbl !! q = Some r' -> P r') (adjacent_pairs s) ->
  Forall (fun c => P c.1.1) (candidates tbl k s).
Proof.
  intros Hall. apply Forall_forall. intros c Hc.
  apply elem_of_candidates in Hc as (Hin & Hr & _).
  rewrite Forall_forall in Hall. by apply (Hall _ Hin).
Qed.

Lemma candidates_Forall_pos (tbl : gmap symbol_pair nat) (k : nat) (s : list symbol) :
  Forall (fun c => k <= c.1.2) (candidates tbl k s).
Proof.
  apply Forall_forall. intros c Hc. by apply elem_of_candidates in Hc as (_ & _ & ?).
Qed.

Lemma replace_at_app (done_ : list symbol) (a b : symbol) (rest : list symbol) :
  replace_at (length done_) (done_ ++ a :: b :: rest) = done_ ++ (a ++ b) :: rest.
Proof.
  unfold replace_at. rewrite take_app_length, drop_app_length. done.
Qed.

Lemma candidates_position (tbl : gmap symbol_pair nat) (k : nat) (s : list symbol) (c : candidate) :
  c ∈ candidates tbl k s ->
  exists l1 l2, s = l1 ++ c.2.1 :: c.2.2 :: l2 /\ c.1.2 = k + length l1.
Proof.
  revert k. induction s as [|x [|y rest] IH]; intros k; simpl.
  - by intros ?%elem_of_nil.
  - by intros ?%elem_of_nil.
  - intros Hin.
    assert (c.2 = (x, y) /\ c.1.2 = k \/ c ∈ candidates tbl (S k) (y :: rest)) as [[Hp Hk]|Hin'].
    { destruct (tbl !! (x, y)); [|by right].
      apply elem_of_cons in Hin as [->|?]; [by left|by right]. }
    + exists [], rest. destruct c as [[r i] [a b]]. simpl in *.
      inversion Hp. subst. split; [done|lia].
    + destruct (IH _ Hin') as (l1 & l2 & Hs & Hpos).
      exists (x :: l1), l2. simpl. rewrite Hs. split; [done|lia].
Qed.

Lemma reference_step_decreases (tbl : gmap symbol_pair nat) (s s' : list symbol) :
  reference_step tbl s = Some s' -> length s' < length s.
Proof.
  unfold reference_step, best_candidate.
  destruct (candidates tbl 0 s) as [|c cs] eqn:E; [done|].
  pose proof (min_from_elem_of c cs) as Hin. rewrite <- E in Hin.
  destruct (min_from c cs) as [[r i] p]. intros [= <-].
  apply candidates_position in Hin as (l1 & l2 & -> & Hpos). simpl in *. subst i.
  rewrite replace_at_app. rewrite !length_app. simpl. lia.
Qed.

Section refinement.
Context (tbl : gmap symbol_pair nat).
Hypothesis distinct : forall p q r, tbl !! p = Some r -> tbl !! q = Some r -> p = q.
Hypothesis merged_later : forall a b x y r r',
  tbl !! (a, b) = Some r -> tbl !! (x, y) = Some r' ->
  x = a ++ b \/ y = a ++ b -> r < r'.
Context (a b : symbol) (r : nat).
Hypothesis rank_ab : tbl !! (a, b) = Some r.

Let above (q : symbol_pair) : Prop := forall r', tbl !! q = Some r' -> r < r'.
Let at_least (q : symbol_pair) : Prop := forall r', tbl !! q = Some r' -> r <= r'.

Let reference_fix (s : list symbol) : list symbol :=
  while_true (reference_step tbl) (length s) s.

(** The reference segmenter picks the occurrence of [(a, b)] that
    follows a prefix whose pairs all rank above it. *)
Lemma reference_step_boundary (done_ rest : list symbol) :
  Forall above (adjacent_pairs (done_ ++ [a])) ->
  Forall at_least (adjacent_pairs (b :: rest)) ->
  reference_step tbl (done_ ++ a :: b :: rest) = Some (done_ ++ (a ++ b) :: rest).
Proof.
  intros Hdone Hrest. unfold reference_step, best_candidate.
  rewrite candidates_app. simpl. rewrite rank_ab. simpl.
  pose proof (min_from_middle (candidates tbl 0 (done_ ++ [a])) (r, length done_, (a, b))
                (candidates tbl (S (length done_)) (b :: rest))) as Hmin.
  destruct (candidates tbl 0 (done_ ++ [a]) ++ _) as [|d ds] eqn:E.
  { by destruct (candidates tbl 0 (done_ ++ [a])). }
  rewrite Hmin.
  - by rewrite replace_at_app.
  - eapply Forall_impl; [apply (candidates_Forall_rank (fun r' => r < r')), Hdone|].
    intros c Hc. unfold cand_ltb. simpl. apply orb_true_iff. left. by apply Nat.ltb_lt.
  - pose proof (candidates_Forall_rank (fun r' => r <= r') tbl (S (length done_)) _ Hrest) as H1.
    pose proof (candidates_Forall_pos tbl (S (length done_)) (b :: rest)) as H2.
    rewrite Forall_forall in H1, H2. apply Forall_forall. intros c Hc.
    specialize (H1 _ Hc). specialize (H2 _ Hc). simpl in *.
    unfold cand_ltb. simpl.
    destruct (Nat.ltb_spec c.1.1 r); [lia|]. simpl.
    destruct (Nat.eqb_spec c.1.1 r); [|done]. simpl.
    apply Nat.ltb_ge. lia.
Qed.

Lemma adjacent_pairs_snoc (l : list symbol) (x y : symbol) :
  adjacent_pairs (l ++ [x; y]) = adjacent_pairs (l ++ [x]) ++ [(x, y)].
Proof. by rewrite adjacent_pairs_app. Qed.

Lemma adjacent_pairs_cons_sub (x : symbol) (l : list symbol) :
  adjacent_pairs l ⊆ adjacent_pairs (x :: l).
Proof. destruct l; simpl; [done|]. intros p Hp. by right. Qed.

(** The pairs of a prefix do not depend on the symbol that follows it,
    but for the last pair. *)
Lemma adjacent_pairs_change_last (l : list symbol) (x y : symbol) (q : symbol_pair) :
  q ∈ adjacent_pairs (l ++ [y]) -> q ∈ adjacent_pairs (l ++ [x]) \/ q.2 = y.
Proof.
  induction l as [|z [|w l] IH]; simpl in *.
  - by intros ?%elem_of_nil.
  - intros [->|?%elem_of_nil]%elem_of_cons; [by right|done].
  - intros [->|Hq]%elem_of_cons; [left; left|].
    destruct (IH Hq) as [?|?]; [left; by right|by right].
Qed.

(** From a state whose treated prefix [done_] has no pair of rank [r] or
    less, the reference segmenter reaches the state in which every
    occurrence of [(a, b)] in the rest is merged. *)
Lemma reference_catches_up (n : nat) (post done_ : list symbol) :
  length post <= n ->
  Forall above (adjacent_pairs (done_ ++ take 1 post)) ->
  Forall at_least (adjacent_pairs post) ->
  reference_fix (done_ ++ post) = reference_fix (done_ ++ merge_word a b post).
Proof.
  revert post done_. induction n as [|n IH]; intros post done_ Hlen Hdone Hpost.
  { destruct post; [done|simpl in Hlen; lia]. }
  destruct post as [|x [|y rest]]; [done..|].
  rewrite merge_word_cons_cons. case_decide as Hd.
  - destruct Hd as [-> ->]. unfold reference_fix at 1.
    erewrite (while_true_unfold _ length (reference_step_decreases tbl));
      [|apply reference_step_boundary|done].
    + fold (reference_fix (done_ ++ (a ++ b) :: rest)).
      rewrite (cons_middle (a ++ b) done_ rest), !app_assoc.
      rewrite (cons_middle (a ++ b) done_ (merge_word a b rest)), !app_assoc.
      apply IH.
      * simpl in Hlen. lia.
      * rewrite <- app_assoc. simpl.
        apply Forall_forall. intros q Hq r' Hr'.
        assert (q.1 = a ++ b \/ q.2 = a ++ b \/ q ∈ adjacent_pairs (done_ ++ [a])) as Hcase.
        { destruct rest as [|z rest]; simpl in Hq.
          - apply adjacent_pairs_change_last with (x := a) in Hq. tauto.
          - rewrite adjacent_pairs_snoc in Hq. apply elem_of_app in Hq as [Hq|Hq].
            + apply adjacent_pairs_change_last with (x := a) in Hq. tauto.
            + apply list_elem_of_singleton in Hq. subst q. by left. }
        destruct q as [q1 q2]. simpl in *.
        destruct Hcase as [->|[->|Hin]].
        -- eapply merged_later; [apply rank_ab|apply Hr'|by left].
        -- eapply merged_later; [apply rank_ab|apply Hr'|by right].
        -- rewrite Forall_forall in Hdone. by apply (Hdone _ Hin).
      * eapply Forall_sub; [|apply Hpost].
        intros q Hq. by apply adjacent_pairs_cons_sub, adjacent_pairs_cons_sub.
    + done.
    + eapply Forall_sub; [|apply Hpost]. apply adjacent_pairs_cons_sub.
  - rewrite (cons_middle x done_ (y :: rest)), !app_assoc.
    rewrite (cons_middle x done_ (merge_word a b (y :: rest))), !app_assoc.
    apply IH.
    + simpl in *. lia.
    + rewrite <- app_assoc. simpl. rewrite adjacent_pairs_snoc.
      apply Forall_app. split; [done|].
      constructor; [|done]. intros r' Hr'.
      apply Forall_cons in Hpost as [Hxy _]. specialize (Hxy _ Hr').
      destruct (decide (r' = r)) as [->|]; [|lia].
      destruct Hd. pose proof (distinct _ _ _ Hr' rank_ab) as Heq. by inversion Heq.
    + eapply Forall_sub; [|apply Hpost]. apply adjacent_pairs_cons_sub.
Qed.

End refinement.


(** The table that [train] builds gives distinct pairs distinct ranks,
    whatever the merge list. *)
Lemma make_pair2rank_distinct (merges : list (list N * list N)) :
  distinct_ranks (make_pair2rank 0 merges ∅).
Proof.
  assert (forall ms rank acc,
            distinct_ranks acc -> (forall p r, acc !! p = Some r -> r < rank) ->
            distinct_ranks (make_pair2rank rank ms acc)) as Hgen.
  { induction ms as [|m ms IH]; intros rank acc Hd Hlt; [done|].
    cbn [make_pair2rank]. apply IH.
    - intros p q r. destruct (decide (m = p)) as [<-|Hp], (decide (m = q)) as [<-|Hq].
      + done.
      + rewrite lookup_insert_eq, lookup_insert_ne by done.
        intros [= <-] Hq'. apply Hlt in Hq'. lia.
      + rewrite lookup_insert_eq, lookup_insert_ne by done.
        intros Hp' [= <-]. apply Hlt in Hp'. lia.
      + rewrite !lookup_insert_ne by done. apply Hd.
    - intros p r. destruct (decide (m = p)) as [<-|Hp].
      + rewrite lookup_insert_eq. intros [= <-]. lia.
      + rewrite lookup_insert_ne by done. intros Hr. apply Hlt in Hr. lia. }
  apply Hgen.
  - intros p q r. by rewrite lookup_empty.
  - intros p r. by rewrite lookup_empty.
Qed.

Lemma segment_loop_refines (tbl : gmap symbol_pair nat) (n : nat) (s : list symbol) :
  distinct_ranks tbl -> merged_ranked_later tbl -> length s <= n ->
  while_true (segment_step tbl) (length s) s
  = while_true (reference_step tbl) (length s) s.
Proof.
  intros Hdist Hlater. revert s. induction n as [|n IH]; intros s Hlen.
  { destruct s; [done|simpl in Hlen; lia]. }
  destruct (best_candidate tbl s) as [[[r i] [a b]]|] eqn:E.
  - assert (segment_step tbl s = Some (merge_word a b s)) as Hstep.
    { unfold segment_step. by rewrite E. }
    apply best_candidate_spec in E as (Hin & Hr & Hall).
    rewrite (while_true_unfold _ length (segment_step_decreases tbl) _ _ _ Hstep); [|done].
    apply segment_step_decreases in Hstep.
    rewrite IH by lia.
    symmetry. apply (reference_catches_up tbl Hdist Hlater a b r Hr (length s) s []); [done| |done].
    destruct s as [|x [|y s]]; simpl; constructor.
  - rewrite !while_true_stop; [done| |].
    + unfold reference_step. by rewrite E.
    + unfold segment_step. by rewrite E.
Qed.

(** C2, amended. One pass of the segmentation loop replaces every
    occurrence, met from left to right, of the pair of the lowest-ranked
    candidate. Its result is the result of the reference segmenter, which
    replaces the leftmost occurrence only and scans again, for every symbol
    sequence and every table that gives distinct pairs distinct ranks and
    ranks every pair containing the merged symbol [a + b] after [(a, b)]. *)
Theorem segment_refines_reference (pair2rank : gmap symbol_pair nat) (symbols : list symbol) :
  distinct_ranks pair2rank -> merged_ranked_later pair2rank ->
  segment pair2rank symbols = reference_segment pair2rank symbols.
Proof.
  intros Hdist Hlater. unfold segment, reference_segment.
  case_decide; [done|]. by apply (segment_loop_refines _ (length symbols)).
Qed.

Lemma segment_refines_reference_witness :
  let tbl : gmap symbol_pair nat := {[ (py "a", py "b") := 0 ]} in
  let s := [py "a"; py "b"; py "c"; py "a"; py "b"] in
  segment tbl s = [py "ab"; py "c"; py "ab"]
  /\ segment tbl s = reference_segment tbl s.
Proof.
  intros tbl s. split; [by vm_compute|].
  apply segment_refines_reference.
  - intros p q r [<- _]%lookup_singleton_Some [<- _]%lookup_singleton_Some. done.
  - intros a b x y r r' [[= <- <-] _]%lookup_singleton_Some [[= <- <-] _]%lookup_singleton_Some.
    intros [?|?]; discriminate.
Defined.

(** C2 as stated fails. With the one merge [("a", "b")], a pass of the
    loop over [a b a b] replaces two occurrences, not one; and with the
    table [{("ab", "a"): 0, ("a", "b"): 1}] the loop returns [ab ab] where
    the reference segmenter returns [aba b]. *)
Lemma segment_differs_from_reference :
  let s := [py "a"; py "b"; py "a"; py "b"] in
  let tbl : gmap symbol_pair nat := make_pair2rank 0 [(py "ab", py "a"); (py "a", py "b")] ∅ in
  segment_step (make_pair2rank 0 [(py "a", py "b")] ∅) s = Some [py "ab"; py "ab"]
  /\ reference_step (make_pair2rank 0 [(py "a", py "b")] ∅) s = Some [py "ab"; py "a"; py "b"]
  /\ segment tbl s = [py "ab"; py "ab"]
  /\ reference_segment tbl s = [py "aba"; py "b"]
  /\ segment tbl s <> reference_segment tbl s.
Proof. vm_compute. repeat split; discriminate. Qed.

End SegmentFacts.

(** ** Facts about [sorted] *)

Module SortFacts.

Lemma lex_leb_refl (a : list N) : lex_leb a a = true.
Proof.
  induction a as [|x a IH]; [done|]. simpl.
  by rewrite N.ltb_irrefl.
Qed.

#[export] Instance lex_le_total : Total lex_le.
Proof.
  intros a. induction a as [|x a IH]; intros b; [by left|].
  destruct b as [|y b]; [by right|]. unfold lex_le in *. simpl.
  destruct (N.ltb_spec x y), (N.ltb_spec y x); try lia; auto.
Qed.

#[export] Instance lex_le_trans : Transitive lex_le.
Proof.
  intros a. unfold lex_le. induction a as [|x a IH]; intros b c; [done|].
  destruct b as [|y b]; [done|]. destruct c as [|z c]; [by intros _ ?|].
  simpl.
  destruct (N.ltb_spec x y), (N.ltb_spec y x), (N.ltb_spec y z), (N.ltb_spec z y),
    (N.ltb_spec x z), (N.ltb_spec z x); try lia; try done.
  apply IH.
Qed.

#[export] Instance lex_le_antisymm : AntiSymm (=) lex_le.
Proof.
  intros a. unfold lex_le. induction a as [|x a IH]; intros b.
  - by destruct b.
  - destruct b as [|y b]; [done|]. simpl.
    destruct (N.ltb_spec x y), (N.ltb_spec y x); try lia; try done.
    intros Hab Hba. assert (x = y) as -> by lia. f_equal. by apply IH.
Qed.

Lemma sorted_Sorted (l : list (list N)) : Sorted lex_le (sorted l).
Proof. apply (Sorted_merge_sort lex_le). Qed.

Lemma sorted_Permutation (l : list (list N)) : sorted l ≡ₚ l.
Proof. apply (merge_sort_Permutation lex_le). Qed.


Lemma sorted_NoDup (l : list (list N)) : NoDup l -> NoDup (sorted l).
Proof. intros Hl. by rewrite sorted_Permutation. Qed.

End SortFacts.

(** ** Facts about the merge loop of [train] *)

Module TrainFacts.
Import Common.

Lemma max_from_split {K : Type} (d : list (K * nat)) (before : list (K * nat))
    (acc : K * nat) (after : list (K * nat)) :
  Forall (fun e => e.2 < acc.2) before ->
  Forall (fun e => e.2 <= acc.2) after ->
  exists before' after',
    before ++ acc :: after ++ d = before' ++ max_from acc d :: after'
    /\ Forall (fun e => e.2 < (max_from acc d).2) before'
    /\ Forall (fun e => e.2 <= (max_from acc d).2) after'.
Proof.
  revert before acc after. induction d as [|[k v] d IH]; intros before acc after Hb Ha; simpl.
  - exists before, after. by rewrite app_nil_r.
  - destruct (Nat.ltb_spec acc.2 v) as [Hlt|Hge].
    + destruct (IH (before ++ acc :: after) (k, v) []) as (b' & a' & Heq & Hb' & Ha').
      * apply Forall_app. split; [|constructor; [done|]].
        -- eapply Forall_impl; [apply Hb|]. simpl. lia.
        -- eapply Forall_impl; [apply Ha|]. simpl. lia.
      * constructor.
      * exists b', a'. split; [|done]. rewrite <- Heq. by rewrite <- app_assoc.
    + destruct (IH before acc (after ++ [(k, v)])) as (b' & a' & Heq & Hb' & Ha').
      * done.
      * apply Forall_app. split; [done|]. by repeat constructor.
      * exists b', a'. split; [|done]. rewrite <- Heq. by rewrite <- app_assoc.
Qed.

(** [max(d, key=d.get)] is the first entry of [d] that no entry exceeds. *)
Lemma max_by_value_first {K : Type} (d : list (K * nat)) (best : K) (count : nat) :
  max_by_value d = Some (best, count) ->
  exists before after,
    d = before ++ (best, count) :: after
    /\ Forall (fun e => e.2 < count) before
    /\ Forall (fun e => e.2 <= count) after.
Proof.
  destruct d as [|e d]; simpl; [done|]. intros [= Hmax].
  destruct (max_from_split d [] e []) as (b' & a' & Heq & Hb' & Ha'); [constructor..|].
  rewrite Hmax in *. by exists b', a'.
Qed.


(** The merge loop appends at most [n] merges, and fewer only when it
    stopped on starvation. *)
Lemma train_loop_merges (n : nat) (bpe_vocab : list (list symbol * nat)) (merges : list symbol_pair) :
  exists new,
    (train_loop n bpe_vocab merges).2 = merges ++ new
    /\ length new <= n
    /\ (length new < n -> starved (train_loop n bpe_vocab merges).1).
Proof.
  revert bpe_vocab merges. induction n as [|n IH]; intros bpe_vocab merges; simpl.
  - exists []. rewrite app_nil_r. split; [done|]. split; [done|]. simpl. lia.
  - destruct (max_by_value (_get_pair_stats bpe_vocab)) as [[best count]|] eqn:E.
    + destruct (Nat.ltb_spec count 2).
      * exists []. rewrite app_nil_r. split; [done|]. split; [simpl; lia|].
        intros _. unfold starved. simpl. by rewrite E.
      * destruct (IH (_merge_vocab best bpe_vocab) (merges ++ [best]))
          as (new & Heq & Hlen & Hstarved).
        exists (best :: new). rewrite Heq, <- app_assoc. split; [done|].
        split; [simpl; lia|]. intros Hlt. apply Hstarved. simpl in Hlt. lia.
    + exists []. rewrite app_nil_r. split; [done|]. split; [simpl; lia|].
      intros _. unfold starved. simpl. by rewrite E.
Qed.

(** *** The count of the best pair

    [train_loop] takes the count of [best_pair] from the entry that
    [max] found; it is the value [pair_counts[best_pair]] that [train]
    reads, since a dictionary has each key once. *)

Lemma od_add_keys {K : Type} `{EqDecision K} (d : list (K * nat)) (k : K) (n : nat) :
  (od_add d k n).*1 = if decide (k ∈ d.*1) then d.*1 else d.*1 ++ [k].
Proof.
  induction d as [|[k' v] d IH].
  - destruct (decide (k ∈ ([] : list (K * nat)).*1)) as [Hd|]; [|done].
    by apply elem_of_nil in Hd.
  - change (od_add ((k', v) :: d) k n)
      with (if decide (k' = k) then (k', v + n) :: d else (k', v) :: od_add d k n).
    change (((k', v) :: d).*1) with (k' :: d.*1).
    destruct (decide (k' = k)) as [->|Hne].
    + change (((k, v + n) :: d).*1) with (k :: d.*1).
      destruct (decide (k ∈ k :: d.*1)) as [|Hd]; [done|]. destruct Hd. left.
    + change (((k', v) :: od_add d k n).*1) with (k' :: (od_add d k n).*1).
      rewrite IH.
      destruct (decide (k ∈ d.*1)) as [Hd|Hd], (decide (k ∈ k' :: d.*1)) as [Hd'|Hd'];
        try done.
      * destruct Hd'. by right.
      * apply elem_of_cons in Hd' as [->|?]; done.
Qed.

Lemma od_add_NoDup {K : Type} `{EqDecision K} (d : list (K * nat)) (k : K) (n : nat) :
  NoDup d.*1 -> NoDup (od_add d k n).*1.
Proof.
  intros Hd. rewrite od_add_keys. case_decide as Hk; [done|].
  apply NoDup_app. split; [done|]. split; [|apply NoDup_singleton].
  intros x Hx ->%list_elem_of_singleton. done.
Qed.

Lemma get_pair_stats_NoDup (bpe_vocab : list (list (list N) * nat)) :
  NoDup (_get_pair_stats bpe_vocab).*1.
Proof.
  unfold _get_pair_stats.
  assert (forall (ps : list (list N * list N)) (freq : nat) (pc : list (list N * list N * nat)),
            NoDup pc.*1 -> NoDup (foldl (fun pc p => od_add pc p freq) pc ps).*1) as Hinner.
  { induction ps as [|p ps IH]; intros freq pc Hpc; [done|].
    simpl. apply IH. by apply od_add_NoDup. }
  assert (forall (v : list (list (list N) * nat)) (pc : list (list N * list N * nat)),
            NoDup pc.*1 ->
            NoDup (foldl (fun pair_counts '(word, freq) =>
                            foldl (fun pc p => od_add pc p freq) pair_counts
                              (adjacent_pairs word)) pc v).*1) as Houter.
  { induction v as [|[word freq] v IH]; intros pc Hpc; [done|].
    simpl. apply IH. by apply Hinner. }
  apply Houter. constructor.
Qed.

Lemma od_get_elem {K V : Type} `{EqDecision K} (d : list (K * V)) (k : K) (v : V) :
  NoDup d.*1 -> (k, v) ∈ d -> od_get d k = Some v.
Proof.
  induction d as [|[k' v'] d IH]; intros Hd Hin; [by apply elem_of_nil in Hin|].
  apply NoDup_cons in Hd as [Hk' Hd]. simpl.
  apply elem_of_cons in Hin as [[= -> ->]|Hin].
  - by case_decide.
  - case_decide as Hk; [|by apply IH]. subst k'.
    destruct Hk'. apply list_elem_of_fmap. by exists (k, v).
Qed.

Lemma best_pair_count (bpe_vocab : list (list (list N) * nat))
    (best_pair : list N * list N) (count : nat) :
  max_by_value (_get_pair_stats bpe_vocab) = Some (best_pair, count) ->
  od_get (_get_pair_stats bpe_vocab) best_pair = Some count.
Proof.
  intros (before & after & Heq & _)%max_by_value_first.
  apply od_get_elem; [apply get_pair_stats_NoDup|].
  rewrite Heq. apply elem_of_app. right. left.
Qed.





(** A first [train] of a new instance keeps to the budget. *)
Lemma train_new_instance_merges (nfkc lower : list N -> list N) (n : Z) (corpus : list (list N)) :
  let t := BPE_Tokenizer.train nfkc lower (BPE_Tokenizer.init n) corpus in
  length (merges t) <= Z.to_nat n
  /\ (length (merges t) < Z.to_nat n -> starved (_bpe_vocab t)).
Proof.
  unfold BPE_Tokenizer.train, train_from, BPE_Tokenizer.init, init. simpl.
  destruct (train_loop_merges (Z.to_nat n)
              (BPE_Tokenizer._get_bpe_vocab_from_corpus nfkc lower corpus) [])
    as (new & Heq & Hlen & Hstarved).
  destruct (train_loop _ _ _) as [bpe_vocab ms]. simpl in *. subst ms.
  destruct (build_maps _ _ _ _). simpl. split; [done|]. done.
Qed.

Lemma byte_train_new_instance_merges (nfkc lower : list N -> list N) (n : Z)
    (corpus : list (list N)) (t : ByteBPE_Tokenizer.tokenizer) :
  ByteBPE_Tokenizer.train nfkc lower (ByteBPE_Tokenizer.init n) corpus = Ok t ->
  length (merges t) <= Z.to_nat n
  /\ (length (merges t) < Z.to_nat n -> starved (_bpe_vocab t)).
Proof.
  unfold ByteBPE_Tokenizer.train.
  destruct (ByteBPE_Tokenizer._get_bpe_vocab_from_corpus nfkc lower corpus) as [v|]; [|done].
  intros [= <-].
  unfold train_from, ByteBPE_Tokenizer.init, init. simpl.
  destruct (train_loop_merges (Z.to_nat n) v []) as (new & Heq & Hlen & Hstarved).
  destruct (train_loop _ _ _) as [bpe_vocab ms]. simpl in *. subst ms.
  destruct (build_maps _ _ _ _). simpl. split; [done|]. done.
Qed.

(** C5. The code breaks the bound: [train] appends to [self.merges] and
    never resets it, so a second [train] of the same instance, here with
    [num_merges = 1] and the corpus ["aa aa"], leaves two merges. *)
Theorem second_train_exceeds_budget :
  let corpus := [py "aa aa"] in
  let once := BPE_Tokenizer.train id id (BPE_Tokenizer.init 1) corpus in
  let twice := BPE_Tokenizer.train id id once corpus in
  num_merges twice = 1%Z
  /\ merges once = [(py "a", py "a")]
  /\ merges twice = [(py "a", py "a"); (py "a", py "a")]
  /\ Z.to_nat (num_merges twice) < length (merges twice).
Proof. vm_compute. repeat split; lia. Qed.

End TrainFacts.

(** ** Facts about the two maps built by [train] *)

Module MapFacts.
Import Common.

Section build_maps.
Context {T : Type} `{Countable T}.

Lemma build_maps_coherent (l : list T) (idx : Z) (t2i : gmap T Z) (i2t : gmap Z T) :
  coherent idx t2i i2t ->
  coherent (idx + Z.of_nat (length l)) (build_maps idx l t2i i2t).1 (build_maps idx l t2i i2t).2.
Proof.
  revert idx t2i i2t. induction l as [|token l IH]; intros idx t2i i2t [Hc Hb].
  - simpl. by rewrite Z.add_0_r.
  - cbn [build_maps]. rewrite length_cons, Nat2Z.inj_succ.
    replace (idx + Z.succ (Z.of_nat (length l)))%Z
      with (idx + 1 + Z.of_nat (length l))%Z by lia.
    apply IH. split.
    + intros t i. destruct (decide (token = t)) as [->|Hne].
      * rewrite lookup_insert_eq. intros [= <-]. by rewrite lookup_insert_eq.
      * rewrite lookup_insert_ne by done. intros Hti.
        rewrite lookup_insert_ne; [by apply Hc|].
        assert (i < idx)%Z by (apply Hb; rewrite (Hc _ _ Hti); eauto). lia.
    + intros i. destruct (decide (idx = i)) as [->|Hne].
      * lia.
      * rewrite lookup_insert_ne by done. intros Hi. specialize (Hb _ Hi). lia.
Qed.

Lemma build_maps_token (l : list T) (idx : Z) (t2i : gmap T Z) (i2t : gmap Z T) (t : T) :
  t ∈ l \/ is_Some (t2i !! t) -> is_Some ((build_maps idx l t2i i2t).1 !! t).
Proof.
  revert idx t2i i2t. induction l as [|token l IH]; intros idx t2i i2t Ht; simpl.
  - destruct Ht as [Ht|Ht]; [by apply elem_of_nil in Ht|done].
  - apply IH. destruct (decide (token = t)) as [->|Hne].
    + right. rewrite lookup_insert_eq. eauto.
    + rewrite lookup_insert_ne by done.
      destruct Ht as [Ht|Ht]; [|by right].
      apply elem_of_cons in Ht as [?|?]; [congruence|by left].
Qed.

Lemma build_maps_token_inv (l : list T) (idx : Z) (t2i : gmap T Z) (i2t : gmap Z T) (t : T) :
  is_Some ((build_maps idx l t2i i2t).1 !! t) -> t ∈ l \/ is_Some (t2i !! t).
Proof.
  revert idx t2i i2t. induction l as [|token l IH]; intros idx t2i i2t; simpl.
  - by right.
  - intros Ht. apply IH in Ht as [Ht|Ht]; [left; by right|].
    destruct (decide (token = t)) as [->|Hne]; [left; left|].
    rewrite lookup_insert_ne in Ht by done. by right.
Qed.

Lemma build_maps_id (l : list T) (idx : Z) (t2i : gmap T Z) (i2t : gmap Z T) (i : Z) (t : T) :
  (build_maps idx l t2i i2t).2 !! i = Some t -> t ∈ l \/ i2t !! i = Some t.
Proof.
  revert idx t2i i2t. induction l as [|token l IH]; intros idx t2i i2t; simpl.
  - by right.
  - intros Hi. apply IH in Hi as [Hi|Hi]; [left; by right|].
    destruct (decide (idx = i)) as [->|Hne].
    + rewrite lookup_insert_eq in Hi. injection Hi as <-. left. left.
    + rewrite lookup_insert_ne in Hi by done. by right.
Qed.

(** The ids are the positions in [vocab_list]. *)
Lemma build_maps_id_lookup (l : list T) (idx : Z) (t2i : gmap T Z) (i2t : gmap Z T) (k : nat) (t : T) :
  l !! k = Some t -> (build_maps idx l t2i i2t).2 !! (idx + Z.of_nat k)%Z = Some t.
Proof.
  revert idx t2i i2t k. induction l as [|token l IH]; intros idx t2i i2t k; [done|].
  cbn [build_maps]. destruct k as [|k].
  - simpl. intros [= ->]. rewrite Z.add_0_r.
    assert (forall l' j a b, (idx < j)%Z -> b !! idx = Some t ->
              (build_maps j l' a b).2 !! idx = Some t) as Hkeep.
    { clear. induction l' as [|x l' IH']; intros j a b Hj Hb; simpl; [done|].
      apply IH'; [lia|]. rewrite lookup_insert_ne by lia. done. }
    apply Hkeep; [lia|]. by rewrite lookup_insert_eq.
  - intros Hk. rewrite Nat2Z.inj_succ.
    replace (idx + Z.succ (Z.of_nat k))%Z with (idx + 1 + Z.of_nat k)%Z by lia.
    by apply IH.
Qed.

End build_maps.

Section train_from.
Context {T : Type} `{Countable T}.
Context (special_tokens : list T) (of_symbol : symbol -> T).
Context (self : tokenizer T) (bpe_vocab : list (list symbol * nat)).

Let t := train_from special_tokens of_symbol self bpe_vocab.

Lemma train_from_vocab_list :
  exists vocab_list bpe_vocab' merges',
    vocab_list = special_tokens ++ (of_symbol <$> sorted (elements (collect_symbols bpe_vocab')))
    /\ train_loop (Z.to_nat (num_merges self)) bpe_vocab (merges self) = (bpe_vocab', merges')
    /\ token_to_id t = (build_maps 0 vocab_list ∅ ∅).1
    /\ id_to_token t = (build_maps 0 vocab_list ∅ ∅).2
    /\ _bpe_vocab t = bpe_vocab' /\ merges t = merges'
    /\ pair2rank t = make_pair2rank 0 merges' ∅
    /\ num_merges t = num_merges self.
Proof.
  subst t. unfold train_from.
  destruct (train_loop _ _ _) as [bpe_vocab' merges'].
  eexists _, bpe_vocab', merges'. split; [reflexivity|]. split; [done|].
  by destruct (build_maps _ _ _ _).
Qed.

Lemma train_from_coherent (tok : T) (i : Z) :
  token_to_id t !! tok = Some i -> id_to_token t !! i = Some tok.
Proof.
  destruct train_from_vocab_list as (l & ? & ? & _ & _ & -> & -> & _).
  apply (build_maps_coherent l 0 ∅ ∅). split.
  - intros ? ?. by rewrite lookup_empty.
  - intros ?. rewrite lookup_empty. by intros [? ?].
Qed.

Lemma train_from_special (tok : T) :
  tok ∈ special_tokens -> is_Some (token_to_id t !! tok).
Proof.
  destruct train_from_vocab_list as (l & ? & ? & -> & _ & -> & _).
  intros Hin. apply build_maps_token. left. apply elem_of_app. by left.
Qed.

Lemma train_from_id_value (i : Z) (tok : T) :
  id_to_token t !! i = Some tok ->
  tok ∈ special_tokens \/ exists sym, tok = of_symbol sym.
Proof.
  destruct train_from_vocab_list as (l & ? & ? & -> & _ & _ & -> & _).
  intros [Hin|Hin]%build_maps_id; [|by rewrite lookup_empty in Hin].
  apply elem_of_app in Hin as [?|Hin]; [by left|right].
  apply list_elem_of_fmap in Hin as (sym & -> & _). by exists sym.
Qed.

Lemma train_from_nonempty (tok : T) :
  tok ∈ special_tokens -> token_to_id t <> ∅ /\ id_to_token t <> ∅.
Proof.
  intros Hin. destruct (train_from_special tok Hin) as [i Hi].
  split.
  - intros Hempty. by rewrite Hempty, lookup_empty in Hi.
  - apply train_from_coherent in Hi. intros Hempty. by rewrite Hempty, lookup_empty in Hi.
Qed.

End train_from.

End MapFacts.

(** ** Facts about [normalize] on white space *)

Module NormalizeFacts.

Lemma lstrip_whitespace (s : list N) : whitespace s -> lstrip s = [].
Proof.
  unfold whitespace. induction s as [|c s IH]; intros Hs; [done|].
  apply Forall_cons in Hs as [Hc Hs]. simpl. rewrite Hc. by apply IH.
Qed.

Lemma strip_whitespace (s : list N) : whitespace s -> strip s = [].
Proof. intros Hs. unfold strip. rewrite (lstrip_whitespace s) by done. reflexivity. Qed.

End NormalizeFacts.

(** ** [encode] and [decode] of [BPE_Tokenizer] *)

Module BPE_TokenizerFacts.
Import Common MapFacts NormalizeFacts BPE_Tokenizer.

Lemma special_tokens_elem (tok : list N) :
  tok ∈ SPECIAL_TOKENS <->
  tok = py "<pad>" \/ tok = py "<unk>" \/ tok = py "<bos>" \/ tok = py "<eos>".
Proof.
  unfold SPECIAL_TOKENS. rewrite !elem_of_cons, elem_of_nil. tauto.
Qed.

Section trained.
Context (nfkc lower : list N -> list N) (self : tokenizer) (corpus : list (list N)).

Let t := train nfkc lower self corpus.

Lemma train_special (tok : list N) :
  tok ∈ SPECIAL_TOKENS -> is_Some (token_to_id t !! tok).
Proof. apply train_from_special. Qed.

Lemma train_nonempty : token_to_id t <> ∅ /\ id_to_token t <> ∅.
Proof. apply (train_from_nonempty _ _ _ _ (py "<unk>")). apply special_tokens_elem. tauto. Qed.

Lemma train_coherent (tok : list N) (i : Z) :
  token_to_id t !! tok = Some i -> id_to_token t !! i = Some tok.
Proof. apply train_from_coherent. Qed.

End trained.

Lemma encode_ValueError (nfkc lower : list N -> list N) (self : tokenizer) (text : list N) :
  encode nfkc lower self text = Raise ValueError <-> token_to_id self = ∅.
Proof.
  unfold encode. case_decide as Hd; [done|].
  split; [|done]. by destruct (token_to_id self !! py "<unk>").
Qed.

Lemma decode_ValueError (self : tokenizer) (ids : list Z) :
  decode self ids = Raise ValueError <-> id_to_token self = ∅.
Proof. unfold decode. by case_decide. Qed.

Lemma encode_trained (nfkc lower : list N -> list N) (self : tokenizer) (text : list N) (unk_id : Z) :
  token_to_id self !! py "<unk>" = Some unk_id ->
  encode nfkc lower self text
  = Ok (to_ids self unk_id
          ([py "<bos>"]
           ++ concat (_encode_word self <$> filter (fun w => w <> []) (split (normalize nfkc lower text)))
           ++ [py "<eos>"])).
Proof.
  intros Hunk. unfold encode. case_decide as Hd.
  - by rewrite Hd, lookup_empty in Hunk.
  - by rewrite Hunk.
Qed.

Lemma decode_tokens (self : tokenizer) (ids : list Z) :
  filter (fun tok => tok ∉ SPECIAL_TOKENS)
    ((fun i => default (py "<unk>") (id_to_token self !! i)) <$> ids)
  = omap (kept_token self) ids.
Proof.
  induction ids as [|i ids IH]; [done|].
  rewrite fmap_cons, filter_cons, IH.
  change (omap (kept_token self) (i :: ids))
    with (match kept_token self i with
          | Some y => y :: omap (kept_token self) ids
          | None => omap (kept_token self) ids
          end).
  assert (kept_token self i
          = match id_to_token self !! i with
            | Some tok => if decide (tok ∈ SPECIAL_TOKENS) then None else Some tok
            | None => None
            end) as -> by done.
  destruct (id_to_token self !! i) as [tok|]; simpl.
  - repeat case_decide; first [done | tauto].
  - done.
Qed.

Lemma decode_trained (self : tokenizer) (ids : list Z) :
  id_to_token self <> ∅ ->
  decode self ids = Ok (join (py " ") (words_of_tokens (omap (kept_token self) ids))).
Proof.
  intros Hne. unfold decode. case_decide; [done|]. by rewrite decode_tokens.
Qed.

End BPE_TokenizerFacts.

(** ** [encode] and [decode] of [ByteBPE_Tokenizer] *)

Module ByteBPE_TokenizerFacts.
Import Common MapFacts NormalizeFacts ByteBPE_Tokenizer.

Lemma byte_special_tokens_elem (tok : token) :
  tok ∈ SPECIAL_TOKENS <->
  tok = TStr (py "<pad>") \/ tok = TStr (py "<unk>")
  \/ tok = TStr (py "<bos>") \/ tok = TStr (py "<eos>").
Proof.
  unfold SPECIAL_TOKENS. rewrite !elem_of_cons, elem_of_nil. tauto.
Qed.

Lemma bytes_not_special (b : list N) : TBytes b ∉ SPECIAL_TOKENS.
Proof. rewrite byte_special_tokens_elem. intros [?|[?|[?|?]]]; discriminate. Qed.

Section trained.
Context (nfkc lower : list N -> list N) (t : tokenizer).
Hypothesis t_trained : trained nfkc lower t.

Lemma byte_train_special (tok : token) :
  tok ∈ SPECIAL_TOKENS -> is_Some (token_to_id t !! tok).
Proof.
  destruct t_trained as (self & corpus & Ht). unfold train in Ht.
  destruct (_get_bpe_vocab_from_corpus nfkc lower corpus) as [v|]; [|done].
  injection Ht as <-. apply train_from_special.
Qed.

Lemma byte_train_nonempty : token_to_id t <> ∅ /\ id_to_token t <> ∅.
Proof.
  destruct t_trained as (self & corpus & Ht). unfold train in Ht.
  destruct (_get_bpe_vocab_from_corpus nfkc lower corpus) as [v|]; [|done].
  injection Ht as <-.
  apply (train_from_nonempty _ _ _ _ (TStr (py "<unk>"))). apply byte_special_tokens_elem. tauto.
Qed.

Lemma byte_train_coherent (tok : token) (i : Z) :
  token_to_id t !! tok = Some i -> id_to_token t !! i = Some tok.
Proof.
  destruct t_trained as (self & corpus & Ht). unfold train in Ht.
  destruct (_get_bpe_vocab_from_corpus nfkc lower corpus) as [v|]; [|done].
  injection Ht as <-. apply train_from_coherent.
Qed.

(** A [str] among the values of [id_to_token] is a special token. *)
Lemma train_id_value (i : Z) (tok : token) :
  id_to_token t !! i = Some tok -> tok ∈ SPECIAL_TOKENS \/ exists b, tok = TBytes b.
Proof.
  destruct t_trained as (self & corpus & Ht). unfold train in Ht.
  destruct (_get_bpe_vocab_from_corpus nfkc lower corpus) as [v|]; [|done].
  injection Ht as <-. apply train_from_id_value.
Qed.

End trained.

Lemma train_Ok (nfkc lower : list N -> list N) (self : tokenizer) (corpus : list (list N))
    (bpe_vocab : list (list (list N) * nat)) :
  _get_bpe_vocab_from_corpus nfkc lower corpus = Ok bpe_vocab ->
  train nfkc lower self corpus = Ok (train_from SPECIAL_TOKENS TBytes self bpe_vocab).
Proof. intros E. unfold train. by rewrite E. Qed.

Lemma train_Raise (nfkc lower : list N -> list N) (self : tokenizer) (corpus : list (list N))
    (e : exn) :
  train nfkc lower self corpus = Raise e -> e = UnicodeEncodeError.
Proof.
  unfold train, _get_bpe_vocab_from_corpus.
  generalize (@nil (list (list N) * nat)).
  induction corpus as [|line corpus IH]; intros v; simpl; [done|].
  unfold add_line at 1.
  destruct (utf8_encode _) as [b|]; [|by intros [= <-]].
  destruct (byte_symbols b); apply IH.
Qed.

Lemma byte_encode_UnicodeEncodeError (nfkc lower : list N -> list N) (self : tokenizer)
    (text : list N) :
  token_to_id self <> ∅ ->
  utf8_encode (normalize nfkc lower text) = None ->
  encode nfkc lower self text = Raise UnicodeEncodeError.
Proof.
  intros Hne Hnone. unfold encode. case_decide; [done|]. by rewrite Hnone.
Qed.

Lemma byte_encode_ValueError (nfkc lower : list N -> list N) (self : tokenizer) (text : list N) :
  encode nfkc lower self text = Raise ValueError <-> token_to_id self = ∅.
Proof.
  unfold encode. case_decide as Hd; [done|].
  split; [|done]. destruct (utf8_encode _); [|done].
  by destruct (token_to_id self !! TStr (py "<unk>")).
Qed.

Lemma byte_decode_ValueError (self : tokenizer) (ids : list Z) :
  decode self ids = Raise ValueError <-> id_to_token self = ∅.
Proof.
  unfold decode. case_decide as Hd; [done|]. split; [|done].
  generalize (filter (fun t => t ∉ SPECIAL_TOKENS)
                ((fun i => default (TStr (py "<unk>")) (id_to_token self !! i)) <$> ids)).
  intros l. destruct (bytes_join l) as [b|e] eqn:E; [done|].
  intros [= ->]. exfalso. revert E. clear. induction l as [|[s|b] l IH]; simpl; [done..|].
  destruct (bytes_join l); [done|]. intros [= ->]. by apply IH.
Qed.

Lemma byte_encode_trained (nfkc lower : list N -> list N) (self : tokenizer) (text : list N)
    (unk_id : Z) (words : list N) :
  token_to_id self !! TStr (py "<unk>") = Some unk_id ->
  utf8_encode (normalize nfkc lower text) = Some words ->
  encode nfkc lower self text
  = Ok (to_ids self unk_id
          ([TStr (py "<bos>")] ++ (TBytes <$> _encode_bytes self words) ++ [TStr (py "<eos>")])).
Proof.
  intros Hunk Hwords. unfold encode. case_decide as Hd.
  - by rewrite Hd, lookup_empty in Hunk.
  - by rewrite Hwords, Hunk.
Qed.

Lemma decode_pieces (self : tokenizer) (ids : list Z) :
  (forall i tok, id_to_token self !! i = Some tok ->
                 tok ∈ SPECIAL_TOKENS \/ exists b, tok = TBytes b) ->
  bytes_join (filter (fun tok => tok ∉ SPECIAL_TOKENS)
                ((fun i => default (TStr (py "<unk>")) (id_to_token self !! i)) <$> ids))
  = Ok (concat (omap (kept_bytes self) ids)).
Proof.
  intros Hval. induction ids as [|i ids IH]; [done|].
  rewrite fmap_cons, filter_cons.
  change (omap (kept_bytes self) (i :: ids))
    with (match kept_bytes self i with
          | Some y => y :: omap (kept_bytes self) ids
          | None => omap (kept_bytes self) ids
          end).
  assert (kept_bytes self i
          = match id_to_token self !! i with
            | Some (TBytes b) => Some b
            | _ => None
            end) as -> by done.
  destruct (id_to_token self !! i) as [tok|] eqn:E; simpl.
  - destruct (Hval _ _ E) as [Hs|[b ->]].
    + case_decide; [done|]. destruct tok as [s|b]; [done|].
      exfalso. by apply (bytes_not_special b).
    + case_decide as Hd.
      * simpl. by rewrite IH.
      * exfalso. by apply (bytes_not_special b).
  - done.
Qed.

Lemma byte_decode_trained (nfkc lower : list N -> list N) (t : tokenizer) (ids : list Z) :
  trained nfkc lower t ->
  decode t ids = Ok (utf8_decode_replace (concat (omap (kept_bytes t) ids))).
Proof.
  intros Ht. unfold decode. case_decide as Hd.
  - by destruct (byte_train_nonempty nfkc lower t Ht).
  - rewrite decode_pieces; [done|]. apply (train_id_value nfkc lower t Ht).
Qed.

End ByteBPE_TokenizerFacts.

(** ** When the two maps are inverse to each other *)

Module BijectionFacts.
Import Common MapFacts SortFacts.

Section build_maps.
Context {T : Type} `{Countable T}.

Lemma build_maps_id_inv (l : list T) (idx : Z) (t2i : gmap T Z) (i2t : gmap Z T) (i : Z) (t : T) :
  (build_maps idx l t2i i2t).2 !! i = Some t ->
  (exists k, i = (idx + Z.of_nat k)%Z /\ l !! k = Some t) \/ i2t !! i = Some t.
Proof.
  revert idx t2i i2t. induction l as [|token l IH]; intros idx t2i i2t; [by right|].
  cbn [build_maps]. intros Hi. apply IH in Hi as [(k & -> & Hk)|Hi].
  - left. exists (S k). split; [lia|done].
  - destruct (decide (idx = i)) as [->|Hne].
    + rewrite lookup_insert_eq in Hi. injection Hi as <-. left. exists 0.
      split; [lia|done].
    + rewrite lookup_insert_ne in Hi by done. by right.
Qed.

(** The ids are the positions in [vocab_list]; with no token listed
    twice, each token has its position as id and the maps are inverse to
    each other. *)
Lemma build_maps_bijection (l : list T) :
  let t2i := (build_maps 0 l ∅ ∅).1 in
  let i2t := (build_maps 0 l ∅ ∅).2 in
  (forall i tok, i2t !! i = Some tok <-> exists k, i = Z.of_nat k /\ l !! k = Some tok)
  /\ (NoDup l ->
      forall tok i, t2i !! tok = Some i <-> i2t !! i = Some tok).
Proof.
  intros t2i i2t.
  assert (coherent (0 + Z.of_nat (length l)) t2i i2t) as [Hc Hb].
  { apply build_maps_coherent. split.
    - intros ? ?. by rewrite lookup_empty.
    - intros ?. rewrite lookup_empty. by intros [? ?]. }
  assert (forall i tok, i2t !! i = Some tok <-> exists k, i = Z.of_nat k /\ l !! k = Some tok)
    as Hi2t.
  { intros i tok. split.
    - intros [(k & -> & Hk)|Hi]%build_maps_id_inv; [by exists k|].
      by rewrite lookup_empty in Hi.
    - intros (k & -> & Hk). by apply (build_maps_id_lookup l 0 ∅ ∅ k tok) in Hk. }
  split; [done|]. intros Hnodup tok i. split; [apply Hc|].
  intros Hi. pose proof Hi as (k & -> & Hk)%Hi2t.
  destruct (build_maps_token l 0 ∅ ∅ tok) as [j Hj].
  { left. by eapply list_elem_of_lookup_2. }
  fold t2i in Hj. rewrite Hj. f_equal.
  apply Hc, Hi2t in Hj as (k' & -> & Hk').
  f_equal. by eapply NoDup_lookup.
Qed.

End build_maps.

(** In the byte class no token is listed twice: the special tokens are
    [str], the symbols [bytes]. So after [train], [token_to_id] and
    [id_to_token] are inverse to each other, the special tokens have the
    ids 0 to 3, and the symbols follow in sorted order. *)
Lemma byte_train_bijection (nfkc lower : list N -> list N) (t : ByteBPE_Tokenizer.tokenizer) :
  ByteBPE_Tokenizer.trained nfkc lower t ->
  exists symbols,
    Sorted lex_le symbols /\ NoDup symbols
    /\ (forall sym, sym ∈ symbols <-> sym ∈ collect_symbols (_bpe_vocab t))
    /\ (forall tok i, token_to_id t !! tok = Some i <-> id_to_token t !! i = Some tok)
    /\ (forall i tok, id_to_token t !! i = Some tok <->
          exists k, i = Z.of_nat k
                    /\ (ByteBPE_Tokenizer.SPECIAL_TOKENS
                        ++ (ByteBPE_Tokenizer.TBytes <$> symbols)) !! k = Some tok).
Proof.
  intros (self & corpus & Ht). unfold ByteBPE_Tokenizer.train in Ht.
  destruct (ByteBPE_Tokenizer._get_bpe_vocab_from_corpus nfkc lower corpus) as [v|]; [|done].
  injection Ht as <-.
  destruct (train_from_vocab_list ByteBPE_Tokenizer.SPECIAL_TOKENS ByteBPE_Tokenizer.TBytes self v)
    as (l & v' & ms & -> & _ & -> & -> & -> & _).
  exists (sorted (elements (collect_symbols v'))).
  split; [apply sorted_Sorted|].
  assert (NoDup (sorted (elements (collect_symbols v')))) as Hnodup.
  { apply sorted_NoDup, NoDup_elements. }
  split; [done|]. split.
  { intros sym. by rewrite sorted_Permutation, elem_of_elements. }
  destruct (build_maps_bijection
              (ByteBPE_Tokenizer.SPECIAL_TOKENS
               ++ (ByteBPE_Tokenizer.TBytes <$> sorted (elements (collect_symbols v')))))
    as [Hi2t Ht2i].
  split; [|done]. apply Ht2i. apply NoDup_app. split; [|split].
  - compute_done.
  - intros tok Hs [sym [-> _]]%list_elem_of_fmap.
    by apply (ByteBPE_TokenizerFacts.bytes_not_special sym).
  - apply NoDup_fmap; [|done]. by intros ? ? [= ->].
Qed.

(** In the character class the same holds as long as no symbol left by
    training is one of the special tokens. *)
Lemma character_train_bijection (nfkc lower : list N -> list N)
    (self : BPE_Tokenizer.tokenizer) (corpus : list (list N)) :
  let t := BPE_Tokenizer.train nfkc lower self corpus in
  (forall sym, sym ∈ collect_symbols (_bpe_vocab t) -> sym ∉ BPE_Tokenizer.SPECIAL_TOKENS) ->
  exists symbols,
    Sorted lex_le symbols /\ NoDup symbols
    /\ (forall sym, sym ∈ symbols <-> sym ∈ collect_symbols (_bpe_vocab t))
    /\ (forall tok i, token_to_id t !! tok = Some i <-> id_to_token t !! i = Some tok)
    /\ (forall i tok, id_to_token t !! i = Some tok <->
          exists k, i = Z.of_nat k
                    /\ (BPE_Tokenizer.SPECIAL_TOKENS ++ symbols) !! k = Some tok).
Proof.
  intros t. subst t. unfold BPE_Tokenizer.train.
  destruct (train_from_vocab_list BPE_Tokenizer.SPECIAL_TOKENS id self
              (BPE_Tokenizer._get_bpe_vocab_from_corpus nfkc lower corpus))
    as (l & v' & ms & -> & _ & -> & -> & -> & _).
  intros Hfresh. exists (sorted (elements (collect_symbols v'))).
  split; [apply sorted_Sorted|].
  assert (NoDup (sorted (elements (collect_symbols v')))) as Hnodup.
  { apply sorted_NoDup, NoDup_elements. }
  split; [done|].
  assert (forall sym, sym ∈ sorted (elements (collect_symbols v'))
                      <-> sym ∈ collect_symbols v') as Helem.
  { intros sym. by rewrite sorted_Permutation, elem_of_elements. }
  split; [done|]. rewrite list_fmap_id.
  destruct (build_maps_bijection
              (BPE_Tokenizer.SPECIAL_TOKENS ++ sorted (elements (collect_symbols v'))))
    as [Hi2t Ht2i].
  split; [|done]. apply Ht2i. apply NoDup_app. split; [|split; [|done]].
  - compute_done.
  - intros tok Hs Hsym%Helem. by apply (Hfresh tok).
Qed.

End BijectionFacts.

(** ** UTF-8: decoding what was encoded, and what was not *)

Module Utf8Facts.
Local Open Scope N_scope.

Lemma div_mod_64 (a : N) : a = 64 * (a / 64) + a mod 64 /\ a mod 64 < 64.
Proof. split; [by apply N.div_mod'|by apply N.mod_lt]. Qed.

Lemma div_4096 (a : N) : a / 4096 = a / 64 / 64.
Proof. by rewrite N.Div0.div_div. Qed.

Lemma div_262144 (a : N) : a / 262144 = a / 64 / 64 / 64.
Proof. by rewrite !N.Div0.div_div. Qed.

(** Base-64 digits of a code point, as linear facts. *)
Ltac digits c :=
  rewrite ?div_262144, ?div_4096;
  pose proof (div_mod_64 c);
  pose proof (div_mod_64 (c / 64));
  pose proof (div_mod_64 (c / 64 / 64));
  generalize dependent (c / 64 / 64 / 64); intros ?;
  generalize dependent ((c / 64 / 64) mod 64); intros ?;
  generalize dependent (c / 64 / 64); intros ?;
  generalize dependent ((c / 64) mod 64); intros ?;
  generalize dependent (c / 64); intros ?;
  generalize dependent (c mod 64); intros ?.

Lemma is_cont_true (b : N) : 128 <= b <= 191 -> is_cont b = true.
Proof.
  intros [? ?]. unfold is_cont. apply andb_true_iff. split; apply N.leb_le; lia.
Qed.

Lemma second_ok_true (b0 b1 : N) :
  128 <= b1 <= 191 ->
  (b0 = 224 -> 160 <= b1) -> (b0 = 237 -> b1 <= 159) ->
  (b0 = 240 -> 144 <= b1) -> (b0 = 244 -> b1 <= 143) ->
  second_ok b0 b1 = true.
Proof.
  intros [? ?] H224 H237 H240 H244. unfold second_ok.
  destruct (N.eqb_spec b0 224) as [E|_].
  { specialize (H224 E). apply andb_true_iff. split; apply N.leb_le; lia. }
  destruct (N.eqb_spec b0 237) as [E|_].
  { specialize (H237 E). apply andb_true_iff. split; apply N.leb_le; lia. }
  destruct (N.eqb_spec b0 240) as [E|_].
  { specialize (H240 E). apply andb_true_iff. split; apply N.leb_le; lia. }
  destruct (N.eqb_spec b0 244) as [E|_].
  { specialize (H244 E). apply andb_true_iff. split; apply N.leb_le; lia. }
  by apply is_cont_true.
Qed.

Lemma between_true (lo hi b : N) : lo <= b <= hi -> (lo <=? b) && (b <=? hi) = true.
Proof. intros [? ?]. apply andb_true_iff. split; by apply N.leb_le. Qed.

Lemma between_false (lo hi b : N) : b < lo \/ hi < b -> (lo <=? b) && (b <=? hi) = false.
Proof.
  intros Hb. apply andb_false_iff.
  destruct Hb; [left|right]; by apply N.leb_gt.
Qed.

Lemma decode_two_bytes (b0 b1 : N) (rest : list N) :
  194 <= b0 <= 223 -> is_cont b1 = true ->
  utf8_decode_replace (b0 :: b1 :: rest)
  = ((b0 - 192) * 64 + (b1 - 128)) :: utf8_decode_replace rest.
Proof.
  intros Hb0 Hb1. cbn [utf8_decode_replace].
  assert ((b0 <? 128) = false) as -> by (apply N.ltb_ge; lia).
  rewrite (between_true 194 223) by done. by rewrite Hb1.
Qed.

Lemma decode_three_bytes (b0 b1 b2 : N) (rest : list N) :
  224 <= b0 <= 239 -> second_ok b0 b1 = true -> is_cont b2 = true ->
  utf8_decode_replace (b0 :: b1 :: b2 :: rest)
  = ((b0 - 224) * 4096 + (b1 - 128) * 64 + (b2 - 128)) :: utf8_decode_replace rest.
Proof.
  intros Hb0 Hb1 Hb2. cbn [utf8_decode_replace].
  assert ((b0 <? 128) = false) as -> by (apply N.ltb_ge; lia).
  rewrite (between_false 194 223) by lia.
  rewrite (between_true 224 239) by done. by rewrite Hb1, Hb2.
Qed.

Lemma decode_four_bytes (b0 b1 b2 b3 : N) (rest : list N) :
  240 <= b0 <= 244 -> second_ok b0 b1 = true -> is_cont b2 = true -> is_cont b3 = true ->
  utf8_decode_replace (b0 :: b1 :: b2 :: b3 :: rest)
  = ((b0 - 240) * 262144 + (b1 - 128) * 4096 + (b2 - 128) * 64 + (b3 - 128))
      :: utf8_decode_replace rest.
Proof.
  intros Hb0 Hb1 Hb2 Hb3. cbn [utf8_decode_replace].
  assert ((b0 <? 128) = false) as -> by (apply N.ltb_ge; lia).
  rewrite (between_false 194 223) by lia.
  rewrite (between_false 224 239) by lia.
  rewrite (between_true 240 244) by done. by rewrite Hb1, Hb2, Hb3.
Qed.

(** Decoding the bytes of a code point gives the code point back. *)
Lemma utf8_decode_encode_char (c : N) (b rest : list N) :
  utf8_encode_char c = Some b ->
  utf8_decode_replace (b ++ rest) = c :: utf8_decode_replace rest.
Proof.
  unfold utf8_encode_char.
  destruct (N.ltb_spec c 128) as [H1|H1]; [intros [= <-]|].
  { simpl. by destruct (N.ltb_spec c 128); [|lia]. }
  destruct (N.ltb_spec c 2048) as [H2|H2]; [intros [= <-]|].
  { cbn [app]. rewrite decode_two_bytes.
    - f_equal. digits c. lia.
    - digits c. lia.
    - apply is_cont_true. digits c. lia. }
  destruct (N.ltb_spec c 65536) as [H3|H3].
  { destruct ((55296 <=? c) && (c <=? 57343)) eqn:Hs; [done|]. intros [= <-].
    apply andb_false_iff in Hs. rewrite !N.leb_gt in Hs.
    cbn [app]. rewrite decode_three_bytes.
    - f_equal. digits c. lia.
    - digits c. lia.
    - apply second_ok_true; digits c; lia.
    - apply is_cont_true. digits c. lia. }
  destruct (N.ltb_spec c 1114112) as [H4|H4]; [intros [= <-]|done].
  cbn [app]. rewrite decode_four_bytes.
  - f_equal. digits c. lia.
  - digits c. lia.
  - apply second_ok_true; digits c; lia.
  - apply is_cont_true. digits c. lia.
  - apply is_cont_true. digits c. lia.
Qed.

Lemma utf8_decode_encode (s b : list N) :
  utf8_encode s = Some b -> utf8_decode_replace b = s.
Proof.
  revert b. induction s as [|c s IH]; intros b; simpl.
  - by intros [= <-].
  - destruct (utf8_encode_char c) as [bc|] eqn:Ec; [|done].
    destruct (utf8_encode s) as [bs|]; [|done]. intros [= <-].
    rewrite (utf8_decode_encode_char c bc bs Ec). f_equal. by apply IH.
Qed.

Lemma is_cont_inv (b : N) : is_cont b = true -> 128 <= b <= 191.
Proof.
  unfold is_cont. intros [H1 H2]%andb_true_iff.
  apply N.leb_le in H1, H2. lia.
Qed.

Lemma second_ok_inv (b0 b1 : N) :
  second_ok b0 b1 = true ->
  128 <= b1 <= 191
  /\ (b0 = 224 -> 160 <= b1) /\ (b0 = 237 -> b1 <= 159)
  /\ (b0 = 240 -> 144 <= b1) /\ (b0 = 244 -> b1 <= 143).
Proof.
  unfold second_ok.
  destruct (N.eqb_spec b0 224) as [E|?].
  { intros [H1 H2]%andb_true_iff. apply N.leb_le in H1, H2. lia. }
  destruct (N.eqb_spec b0 237) as [E|?].
  { intros [H1 H2]%andb_true_iff. apply N.leb_le in H1, H2. lia. }
  destruct (N.eqb_spec b0 240) as [E|?].
  { intros [H1 H2]%andb_true_iff. apply N.leb_le in H1, H2. lia. }
  destruct (N.eqb_spec b0 244) as [E|?].
  { intros [H1 H2]%andb_true_iff. apply N.leb_le in H1, H2. lia. }
  intros H%is_cont_inv. lia.
Qed.

Lemma between_inv (lo hi b : N) : (lo <=? b) && (b <=? hi) = true -> lo <= b <= hi.
Proof. intros [H1 H2]%andb_true_iff. apply N.leb_le in H1, H2. lia. Qed.

(** The bytes that the decoder accepts as one code point are the bytes of
    that code point. *)
Lemma encode_two_bytes (b0 b1 : N) :
  194 <= b0 <= 223 -> 128 <= b1 <= 191 ->
  utf8_encode_char ((b0 - 192) * 64 + (b1 - 128)) = Some [b0; b1].
Proof.
  intros Hb0 Hb1. set (c := (b0 - 192) * 64 + (b1 - 128)).
  assert (c = (b0 - 192) * 64 + (b1 - 128)) as Hc by done. clearbody c.
  unfold utf8_encode_char.
  destruct (N.ltb_spec c 128); [lia|].
  destruct (N.ltb_spec c 2048); [|lia].
  repeat f_equal; digits c; lia.
Qed.

Lemma encode_three_bytes (b0 b1 b2 : N) :
  224 <= b0 <= 239 -> 128 <= b1 <= 191 ->
  (b0 = 224 -> 160 <= b1) -> (b0 = 237 -> b1 <= 159) ->
  128 <= b2 <= 191 ->
  utf8_encode_char ((b0 - 224) * 4096 + (b1 - 128) * 64 + (b2 - 128)) = Some [b0; b1; b2].
Proof.
  intros Hb0 Hb1 H224 H237 Hb2.
  set (c := (b0 - 224) * 4096 + (b1 - 128) * 64 + (b2 - 128)).
  assert (c = (b0 - 224) * 4096 + (b1 - 128) * 64 + (b2 - 128)) as Hc by done. clearbody c.
  unfold utf8_encode_char.
  destruct (N.ltb_spec c 128); [lia|].
  destruct (N.ltb_spec c 2048); [lia|].
  destruct (N.ltb_spec c 65536); [|lia].
  rewrite between_false by lia.
  repeat f_equal; digits c; lia.
Qed.

Lemma encode_four_bytes (b0 b1 b2 b3 : N) :
  240 <= b0 <= 244 -> 128 <= b1 <= 191 ->
  (b0 = 240 -> 144 <= b1) -> (b0 = 244 -> b1 <= 143) ->
  128 <= b2 <= 191 -> 128 <= b3 <= 191 ->
  utf8_encode_char ((b0 - 240) * 262144 + (b1 - 128) * 4096 + (b2 - 128) * 64 + (b3 - 128))
  = Some [b0; b1; b2; b3].
Proof.
  intros Hb0 Hb1 H240 H244 Hb2 Hb3.
  set (c := (b0 - 240) * 262144 + (b1 - 128) * 4096 + (b2 - 128) * 64 + (b3 - 128)).
  assert (c = (b0 - 240) * 262144 + (b1 - 128) * 4096 + (b2 - 128) * 64 + (b3 - 128))
    as Hc by done.
  clearbody c. unfold utf8_encode_char.
  destruct (N.ltb_spec c 128); [lia|].
  destruct (N.ltb_spec c 2048); [lia|].
  destruct (N.ltb_spec c 65536); [lia|].
  destruct (N.ltb_spec c 1114112); [|lia].
  repeat f_equal; digits c; lia.
Qed.

Lemma decode_code_point (c : N) (p rest : list N) :
  utf8_encode_char c = Some p ->
  replacement_character ∈ utf8_decode_replace rest
  \/ utf8_encode (utf8_decode_replace rest) = Some rest ->
  replacement_character ∈ c :: utf8_decode_replace rest
  \/ utf8_encode (c :: utf8_decode_replace rest) = Some (p ++ rest).
Proof.
  intros Hc [H|H].
  - left. apply elem_of_cons. by right.
  - right. cbn [utf8_encode]. by rewrite Hc, H.
Qed.

(** Either the decoder replaces something, or its result encodes back to
    the bytes it was given. *)
Lemma decode_replaces_or_inverts (b : list N) :
  replacement_character ∈ utf8_decode_replace b
  \/ utf8_encode (utf8_decode_replace b) = Some b.
Proof.
  remember (length b) as n eqn:Hn. revert b Hn.
  induction (lt_wf n) as [n _ IH]. intros b ->.
  assert (forall r, (length r < length b)%nat ->
            replacement_character ∈ utf8_decode_replace r
            \/ utf8_encode (utf8_decode_replace r) = Some r) as Hrec.
  { intros r Hr. by apply (IH _ Hr). }
  clear IH. destruct b as [|b0 r0]; [by right|].
  assert (forall l : list N, replacement_character ∈ replacement_character :: l) as Hhere.
  { intros l. apply elem_of_cons. by left. }
  cbn [utf8_decode_replace].
  destruct (N.ltb_spec b0 128) as [H0|H0].
  { apply (decode_code_point b0 [b0] r0); [|apply Hrec; simpl; lia].
    unfold utf8_encode_char. by destruct (N.ltb_spec b0 128); [|lia]. }
  destruct ((194 <=? b0) && (b0 <=? 223)) eqn:E2.
  { apply between_inv in E2. destruct r0 as [|b1 r1]; [left; apply Hhere|].
    destruct (is_cont b1) eqn:E1; [|left; apply Hhere].
    apply is_cont_inv in E1.
    apply (decode_code_point _ [b0; b1] r1); [|apply Hrec; simpl; lia].
    by apply encode_two_bytes. }
  destruct ((224 <=? b0) && (b0 <=? 239)) eqn:E3.
  { apply between_inv in E3. destruct r0 as [|b1 r1]; [left; apply Hhere|].
    destruct (second_ok b0 b1) eqn:E1; [|left; apply Hhere].
    apply second_ok_inv in E1 as (? & ? & ? & _).
    destruct r1 as [|b2 r2]; [left; apply Hhere|].
    destruct (is_cont b2) eqn:E4; [|left; apply Hhere].
    apply is_cont_inv in E4.
    apply (decode_code_point _ [b0; b1; b2] r2); [|apply Hrec; simpl; lia].
    by apply encode_three_bytes. }
  destruct ((240 <=? b0) && (b0 <=? 244)) eqn:E4; [|left; apply Hhere].
  apply between_inv in E4. destruct r0 as [|b1 r1]; [left; apply Hhere|].
  destruct (second_ok b0 b1) eqn:E1; [|left; apply Hhere].
  apply second_ok_inv in E1 as (? & _ & _ & ? & ?).
  destruct r1 as [|b2 r2]; [left; apply Hhere|].
  destruct (is_cont b2) eqn:E5; [|left; apply Hhere].
  apply is_cont_inv in E5.
  destruct r2 as [|b3 r3]; [left; apply Hhere|].
  destruct (is_cont b3) eqn:E6; [|left; apply Hhere].
  apply is_cont_inv in E6.
  apply (decode_code_point _ [b0; b1; b2; b3] r3); [|apply Hrec; simpl; lia].
  by apply encode_four_bytes.
Qed.

(** Bytes that are the UTF-8 encoding of no text are decoded to a text
    that holds U+FFFD. *)
Lemma ill_formed_replaced (b : list N) :
  (forall s, utf8_encode s <> Some b) ->
  replacement_character ∈ utf8_decode_replace b.
Proof.
  intros Hb. destruct (decode_replaces_or_inverts b) as [H|H]; [done|].
  by destruct (Hb _ H).
Qed.

End Utf8Facts.

(** ** Errors and totality of [encode] and [decode] *)

Module ErrorFacts.
Import Common MapFacts NormalizeFacts.

Lemma train_loop_nil (n : nat) (merges : list (list N * list N)) :
  train_loop n [] merges = ([], merges).
Proof. by destruct n. Qed.

(** C8. [encode] raises its [ValueError] exactly when [token_to_id] is
    empty and [decode] exactly when [id_to_token] is empty, in both
    classes; both maps are empty in a new instance, so both operations
    raise it there; after [train] neither raises it, whatever the corpus;
    and [train] of a new instance on the empty corpus leaves a mapper of
    the four special tokens only. *)
Theorem precondition_error_iff_untrained (nfkc lower : list N -> list N)
    (self : BPE_Tokenizer.tokenizer) (bself : ByteBPE_Tokenizer.tokenizer)
    (n : Z) (corpus : list (list N)) (text : list N) (ids : list Z) :
  ((BPE_Tokenizer.encode nfkc lower self text = Raise ValueError <-> token_to_id self = ∅)
   /\ (BPE_Tokenizer.decode self ids = Raise ValueError <-> id_to_token self = ∅)
   /\ (ByteBPE_Tokenizer.encode nfkc lower bself text = Raise ValueError <-> token_to_id bself = ∅)
   /\ (ByteBPE_Tokenizer.decode bself ids = Raise ValueError <-> id_to_token bself = ∅))
  /\ (BPE_Tokenizer.encode nfkc lower (BPE_Tokenizer.init n) text = Raise ValueError
      /\ BPE_Tokenizer.decode (BPE_Tokenizer.init n) ids = Raise ValueError
      /\ ByteBPE_Tokenizer.encode nfkc lower (ByteBPE_Tokenizer.init n) text = Raise ValueError
      /\ ByteBPE_Tokenizer.decode (ByteBPE_Tokenizer.init n) ids = Raise ValueError)
  /\ (BPE_Tokenizer.encode nfkc lower (BPE_Tokenizer.train nfkc lower self corpus) text
        <> Raise ValueError
      /\ BPE_Tokenizer.decode (BPE_Tokenizer.train nfkc lower self corpus) ids
        <> Raise ValueError
      /\ match ByteBPE_Tokenizer.train nfkc lower bself corpus with
         | Ok t => ByteBPE_Tokenizer.encode nfkc lower t text <> Raise ValueError
                   /\ ByteBPE_Tokenizer.decode t ids <> Raise ValueError
         | Raise e => e = UnicodeEncodeError
         end)
  /\ (token_to_id (BPE_Tokenizer.train nfkc lower (BPE_Tokenizer.init n) [])
      = {[ py "<pad>" := 0%Z; py "<unk>" := 1%Z; py "<bos>" := 2%Z; py "<eos>" := 3%Z ]}
      /\ match ByteBPE_Tokenizer.train nfkc lower (ByteBPE_Tokenizer.init n) [] with
         | Ok t => token_to_id t
                   = {[ ByteBPE_Tokenizer.TStr (py "<pad>") := 0%Z;
                        ByteBPE_Tokenizer.TStr (py "<unk>") := 1%Z;
                        ByteBPE_Tokenizer.TStr (py "<bos>") := 2%Z;
                        ByteBPE_Tokenizer.TStr (py "<eos>") := 3%Z ]}
         | Raise _ => False
         end).
Proof.
  split; [|split; [|split]].
  - split; [apply BPE_TokenizerFacts.encode_ValueError|].
    split; [apply BPE_TokenizerFacts.decode_ValueError|].
    split; [apply ByteBPE_TokenizerFacts.byte_encode_ValueError|].
    apply ByteBPE_TokenizerFacts.byte_decode_ValueError.
  - split; [by apply BPE_TokenizerFacts.encode_ValueError|].
    split; [by apply BPE_TokenizerFacts.decode_ValueError|].
    split; [by apply ByteBPE_TokenizerFacts.byte_encode_ValueError|].
    by apply ByteBPE_TokenizerFacts.byte_decode_ValueError.
  - destruct (BPE_TokenizerFacts.train_nonempty nfkc lower self corpus) as [Ht Hi].
    split; [by rewrite BPE_TokenizerFacts.encode_ValueError|].
    split; [by rewrite BPE_TokenizerFacts.decode_ValueError|].
    destruct (ByteBPE_Tokenizer.train nfkc lower bself corpus) as [t|e] eqn:E.
    + assert (ByteBPE_Tokenizer.trained nfkc lower t) as Htr by (by exists bself, corpus).
      destruct (ByteBPE_TokenizerFacts.byte_train_nonempty nfkc lower t Htr).
      split; [by rewrite ByteBPE_TokenizerFacts.byte_encode_ValueError|].
      by rewrite ByteBPE_TokenizerFacts.byte_decode_ValueError.
    + revert E. unfold ByteBPE_Tokenizer.train, ByteBPE_Tokenizer._get_bpe_vocab_from_corpus.
      generalize (@nil (list (list N) * nat)). clear.
      induction corpus as [|line corpus IH]; intros v; simpl; [done|].
      unfold ByteBPE_Tokenizer.add_line at 1.
      destruct (utf8_encode _) as [b|]; [|by intros [= <-]].
      destruct (ByteBPE_Tokenizer.byte_symbols b); apply IH.
  - split.
    + unfold BPE_Tokenizer.train, train_from.
      change (BPE_Tokenizer._get_bpe_vocab_from_corpus nfkc lower [])
        with (@nil (list (list N) * nat)).
      rewrite train_loop_nil. compute_done.
    + unfold ByteBPE_Tokenizer.train, train_from.
      change (ByteBPE_Tokenizer._get_bpe_vocab_from_corpus nfkc lower [])
        with (Ok (@nil (list (list N) * nat))).
      cbv iota beta. rewrite train_loop_nil. compute_done.
Qed.

(** C7. After [train], in both classes: [encode] returns the ids of the
    tokens, with the id of ["<unk>"] for every token that [token_to_id]
    lacks and its own id for every other, and raises nothing; in the byte
    class this is so for the texts whose normalization UTF-8 can encode,
    and for the others [encode] raises [UnicodeEncodeError]. [decode]
    returns a text for every sequence of integers: an id that
    [id_to_token] lacks gives ["<unk>"], which is dropped with the other
    special tokens, and in the byte class the remaining bytes are decoded
    with U+FFFD in the place of ill-formed UTF-8, so that bytes which
    encode no text give a text that holds U+FFFD. *)
Theorem unknown_handling_total (nfkc lower : list N -> list N)
    (self : BPE_Tokenizer.tokenizer) (bself : ByteBPE_Tokenizer.tokenizer)
    (corpus : list (list N)) (text : list N) (ids : list Z) :
  (let t := BPE_Tokenizer.train nfkc lower self corpus in
   exists unk_id,
     token_to_id t !! py "<unk>" = Some unk_id
     /\ BPE_Tokenizer.encode nfkc lower t text
        = Ok (BPE_Tokenizer.to_ids t unk_id
                ([py "<bos>"]
                 ++ concat (BPE_Tokenizer._encode_word t
                              <$> filter (fun w => w <> [])
                                    (split (BPE_Tokenizer.normalize nfkc lower text)))
                 ++ [py "<eos>"]))
     /\ (forall tok, token_to_id t !! tok = None -> BPE_Tokenizer.to_ids t unk_id [tok] = [unk_id])
     /\ (forall tok i, token_to_id t !! tok = Some i -> BPE_Tokenizer.to_ids t unk_id [tok] = [i])
     /\ BPE_Tokenizer.decode t ids
        = Ok (join (py " ")
                (BPE_Tokenizer.words_of_tokens (omap (BPE_Tokenizer.kept_token t) ids)))
     /\ (forall i, id_to_token t !! i = None -> BPE_Tokenizer.kept_token t i = None)
     /\ (forall i tok, id_to_token t !! i = Some tok -> tok ∈ BPE_Tokenizer.SPECIAL_TOKENS ->
                       BPE_Tokenizer.kept_token t i = None))
  /\ match ByteBPE_Tokenizer.train nfkc lower bself corpus with
     | Ok bt =>
         exists unk_id,
           token_to_id bt !! ByteBPE_Tokenizer.TStr (py "<unk>") = Some unk_id
           /\ match utf8_encode (ByteBPE_Tokenizer.normalize nfkc lower text) with
              | Some words =>
                  ByteBPE_Tokenizer.encode nfkc lower bt text
                  = Ok (ByteBPE_Tokenizer.to_ids bt unk_id
                          ([ByteBPE_Tokenizer.TStr (py "<bos>")]
                           ++ (ByteBPE_Tokenizer.TBytes
                                 <$> ByteBPE_Tokenizer._encode_bytes bt words)
                           ++ [ByteBPE_Tokenizer.TStr (py "<eos>")]))
              | None => ByteBPE_Tokenizer.encode nfkc lower bt text = Raise UnicodeEncodeError
              end
           /\ (forall tok, token_to_id bt !! tok = None ->
                           ByteBPE_Tokenizer.to_ids bt unk_id [tok] = [unk_id])
           /\ (forall tok i, token_to_id bt !! tok = Some i ->
                             ByteBPE_Tokenizer.to_ids bt unk_id [tok] = [i])
           /\ ByteBPE_Tokenizer.decode bt ids
              = Ok (utf8_decode_replace (concat (omap (ByteBPE_Tokenizer.kept_bytes bt) ids)))
           /\ (forall i, id_to_token bt !! i = None -> ByteBPE_Tokenizer.kept_bytes bt i = None)
           /\ (forall i tok, id_to_token bt !! i = Some tok ->
                             tok ∈ ByteBPE_Tokenizer.SPECIAL_TOKENS ->
                             ByteBPE_Tokenizer.kept_bytes bt i = None)
           /\ ((forall s, utf8_encode s
                          <> Some (concat (omap (ByteBPE_Tokenizer.kept_bytes bt) ids))) ->
               exists decoded, ByteBPE_Tokenizer.decode bt ids = Ok decoded
                               /\ replacement_character ∈ decoded)
           /\ utf8_decode_replace [104; 255; 105]%N = [104; replacement_character; 105]%N
     | Raise e => e = UnicodeEncodeError
     end.
Proof.
  split.
  - intros t.
    destruct (BPE_TokenizerFacts.train_special nfkc lower self corpus (py "<unk>"))
      as [unk_id Hunk]; [apply BPE_TokenizerFacts.special_tokens_elem; tauto|].
    exists unk_id. split; [done|].
    split; [by apply BPE_TokenizerFacts.encode_trained|].
    split; [intros tok Htok; unfold BPE_Tokenizer.to_ids; simpl; by rewrite Htok|].
    split; [intros tok i Htok; unfold BPE_Tokenizer.to_ids; simpl; by rewrite Htok|].
    split.
    + apply BPE_TokenizerFacts.decode_trained.
      apply (BPE_TokenizerFacts.train_nonempty nfkc lower self corpus).
    + split.
      * intros i Hi. unfold BPE_Tokenizer.kept_token. by rewrite Hi.
      * intros i tok Hi Htok. unfold BPE_Tokenizer.kept_token. rewrite Hi.
        by rewrite decide_True.
  - destruct (ByteBPE_Tokenizer.train nfkc lower bself corpus) as [bt|e] eqn:Hbt;
      [|by apply (ByteBPE_TokenizerFacts.train_Raise nfkc lower bself corpus)].
    assert (ByteBPE_Tokenizer.trained nfkc lower bt) as Htr by (by exists bself, corpus).
    destruct (ByteBPE_TokenizerFacts.byte_train_special nfkc lower bt Htr
                (ByteBPE_Tokenizer.TStr (py "<unk>")))
      as [unk_id Hunk]; [apply ByteBPE_TokenizerFacts.byte_special_tokens_elem; tauto|].
    pose proof (ByteBPE_TokenizerFacts.byte_decode_trained nfkc lower bt ids Htr) as Hdec.
    exists unk_id. split; [done|]. split.
    { destruct (utf8_encode (ByteBPE_Tokenizer.normalize nfkc lower text))
        as [words|] eqn:Hwords.
      - by apply ByteBPE_TokenizerFacts.byte_encode_trained.
      - apply ByteBPE_TokenizerFacts.byte_encode_UnicodeEncodeError; [|done].
        apply (ByteBPE_TokenizerFacts.byte_train_nonempty nfkc lower bt Htr). }
    split; [intros tok Htok; unfold ByteBPE_Tokenizer.to_ids; simpl; by rewrite Htok|].
    split; [intros tok i Htok; unfold ByteBPE_Tokenizer.to_ids; simpl; by rewrite Htok|].
    split; [done|].
    split; [intros i Hi; unfold ByteBPE_Tokenizer.kept_bytes; by rewrite Hi|].
    split.
    { intros i tok Hi Htok. unfold ByteBPE_Tokenizer.kept_bytes. rewrite Hi.
      destruct tok as [s|b]; [done|].
      by destruct (ByteBPE_TokenizerFacts.bytes_not_special b). }
    split; [|done].
    intros Hill. eexists. split; [exact Hdec|].
    by apply Utf8Facts.ill_formed_replaced.
Qed.

Lemma unknown_handling_total_witness :
  let corpus := [[233; 233]%N] in
  let ids := [2; 99; 5; 3]%Z in
  exists bt decoded,
    ByteBPE_Tokenizer.train id id (ByteBPE_Tokenizer.init 0) corpus = Ok bt
    /\ concat (omap (ByteBPE_Tokenizer.kept_bytes bt) ids) = [195]%N
    /\ ByteBPE_Tokenizer.decode bt ids = Ok decoded
    /\ replacement_character ∈ decoded.
Proof.
  intros corpus ids.
  pose proof (ByteBPE_TokenizerFacts.train_Ok id id (ByteBPE_Tokenizer.init 0) corpus
                [([[195]; [169]; [195]; [169]]%N, 1)] eq_refl) as E.
  destruct (unknown_handling_total id id (BPE_Tokenizer.init 0) (ByteBPE_Tokenizer.init 0)
              corpus (py "ab") ids) as [_ Hb].
  rewrite E in Hb.
  destruct Hb as (unk_id & _ & _ & _ & _ & _ & _ & _ & Hill & _).
  assert (concat (omap (ByteBPE_Tokenizer.kept_bytes
                          (train_from ByteBPE_Tokenizer.SPECIAL_TOKENS ByteBPE_Tokenizer.TBytes
                             (ByteBPE_Tokenizer.init 0)
                             [([[195]; [169]; [195]; [169]]%N, 1%nat)])) ids)
          = [195]%N) as Hbytes by (by vm_compute).
  destruct Hill as (decoded & Hdecode & Hreplaced).
  { intros s Hs. rewrite Hbytes in Hs.
    pose proof (Utf8Facts.utf8_decode_encode _ _ Hs) as Hd.
    rewrite <- Hd in Hs. vm_compute in Hs. discriminate Hs. }
  exact (ex_intro _ _ (ex_intro _ decoded (conj E (conj Hbytes (conj Hdecode Hreplaced))))).
Defined.

(** C7 as stated fails in the byte class. After [train] on ["abab"] and
    ["ab"], the text of ["a"] and the lone surrogate U+D800, which NFKC
    and [lower] leave as it is, has no UTF-8 encoding, and [encode] raises
    [UnicodeEncodeError]. *)
Lemma byte_encode_raises_on_surrogate :
  exists bt,
    ByteBPE_Tokenizer.train id id (ByteBPE_Tokenizer.init 5) [py "abab"; py "ab"] = Ok bt
    /\ token_to_id bt <> ∅
    /\ utf8_encode (ByteBPE_Tokenizer.normalize id id [97; 55296]%N) = None
    /\ ByteBPE_Tokenizer.encode id id bt [97; 55296]%N = Raise UnicodeEncodeError.
Proof.
  pose proof (ByteBPE_TokenizerFacts.train_Ok id id (ByteBPE_Tokenizer.init 5)
                [py "abab"; py "ab"]
                [([py "a"; py "b"; py "a"; py "b"], 1); ([py "a"; py "b"], 1)] eq_refl) as E.
  eexists. split; [exact E|].
  assert (token_to_id (train_from ByteBPE_Tokenizer.SPECIAL_TOKENS ByteBPE_Tokenizer.TBytes
                         (ByteBPE_Tokenizer.init 5)
                         [([py "a"; py "b"; py "a"; py "b"], 1%nat); ([py "a"; py "b"], 1%nat)])
          <> ∅) as Hne.
  { apply (ByteBPE_TokenizerFacts.byte_train_nonempty id id).
    by exists (ByteBPE_Tokenizer.init 5), [py "abab"; py "ab"]. }
  split; [exact Hne|]. split; [by vm_compute|].
  apply ByteBPE_TokenizerFacts.byte_encode_UnicodeEncodeError; [exact Hne|by vm_compute].
Qed.

End ErrorFacts.

(** ** The ids at both ends of an [encode] result *)

Module EncodeFacts.
Import Common MapFacts NormalizeFacts.

(** C10. After [train], in both classes, the result of [encode] begins
    with the id of ["<bos>"] and ends with the id of ["<eos>"], and it is
    these two ids alone for a text of white space only, the empty text
    included, provided the two Unicode functions keep white space white
    space. In the byte class [encode] has a result for every text whose
    normalization UTF-8 can encode. *)
Theorem encode_bos_eos (nfkc lower : list N -> list N)
    (self : BPE_Tokenizer.tokenizer) (bself : ByteBPE_Tokenizer.tokenizer)
    (corpus : list (list N)) (text : list N) :
  (let t := BPE_Tokenizer.train nfkc lower self corpus in
   exists bos_id eos_id,
     token_to_id t !! py "<bos>" = Some bos_id
     /\ token_to_id t !! py "<eos>" = Some eos_id
     /\ ((forall s, whitespace s -> whitespace (lower (nfkc s))) ->
         whitespace text -> BPE_Tokenizer.encode nfkc lower t text = Ok [bos_id; eos_id])
     /\ exists middle, BPE_Tokenizer.encode nfkc lower t text = Ok (bos_id :: middle ++ [eos_id]))
  /\ match ByteBPE_Tokenizer.train nfkc lower bself corpus with
     | Ok bt =>
         exists bos_id eos_id,
           token_to_id bt !! ByteBPE_Tokenizer.TStr (py "<bos>") = Some bos_id
           /\ token_to_id bt !! ByteBPE_Tokenizer.TStr (py "<eos>") = Some eos_id
           /\ ((forall s, whitespace s -> whitespace (lower (nfkc s))) ->
               whitespace text ->
               ByteBPE_Tokenizer.encode nfkc lower bt text = Ok [bos_id; eos_id])
           /\ (forall ids, ByteBPE_Tokenizer.encode nfkc lower bt text = Ok ids ->
                           exists middle, ids = bos_id :: middle ++ [eos_id])
           /\ match utf8_encode (ByteBPE_Tokenizer.normalize nfkc lower text) with
              | Some _ =>
                  exists middle,
                    ByteBPE_Tokenizer.encode nfkc lower bt text
                    = Ok (bos_id :: middle ++ [eos_id])
              | None => ByteBPE_Tokenizer.encode nfkc lower bt text = Raise UnicodeEncodeError
              end
     | Raise e => e = UnicodeEncodeError
     end.
Proof.
  split.
  - intros t. subst t.
    destruct (BPE_TokenizerFacts.train_special nfkc lower self corpus (py "<unk>"))
      as [unk_id Hunk]; [apply BPE_TokenizerFacts.special_tokens_elem; tauto|].
    destruct (BPE_TokenizerFacts.train_special nfkc lower self corpus (py "<bos>"))
      as [bos_id Hbos]; [apply BPE_TokenizerFacts.special_tokens_elem; tauto|].
    destruct (BPE_TokenizerFacts.train_special nfkc lower self corpus (py "<eos>"))
      as [eos_id Heos]; [apply BPE_TokenizerFacts.special_tokens_elem; tauto|].
    exists bos_id, eos_id. split; [done|]. split; [done|].
    rewrite (BPE_TokenizerFacts.encode_trained nfkc lower _ text unk_id Hunk).
    unfold BPE_Tokenizer.to_ids. rewrite !fmap_app. simpl.
    rewrite Hbos, Heos. simpl. split.
    + intros Hws Htext. unfold BPE_Tokenizer.normalize.
      rewrite (strip_whitespace _ (Hws _ Htext)). done.
    + eauto.
  - destruct (ByteBPE_Tokenizer.train nfkc lower bself corpus) as [bt|e] eqn:Hbt;
      [|by apply (ByteBPE_TokenizerFacts.train_Raise nfkc lower bself corpus)].
    assert (ByteBPE_Tokenizer.trained nfkc lower bt) as Htr by (by exists bself, corpus).
    destruct (ByteBPE_TokenizerFacts.byte_train_special nfkc lower bt Htr
                (ByteBPE_Tokenizer.TStr (py "<unk>")))
      as [unk_id Hunk]; [apply ByteBPE_TokenizerFacts.byte_special_tokens_elem; tauto|].
    destruct (ByteBPE_TokenizerFacts.byte_train_special nfkc lower bt Htr
                (ByteBPE_Tokenizer.TStr (py "<bos>")))
      as [bos_id Hbos]; [apply ByteBPE_TokenizerFacts.byte_special_tokens_elem; tauto|].
    destruct (ByteBPE_TokenizerFacts.byte_train_special nfkc lower bt Htr
                (ByteBPE_Tokenizer.TStr (py "<eos>")))
      as [eos_id Heos]; [apply ByteBPE_TokenizerFacts.byte_special_tokens_elem; tauto|].
    exists bos_id, eos_id. split; [done|]. split; [done|]. split.
    + intros Hws Htext.
      assert (ByteBPE_Tokenizer.normalize nfkc lower text = []) as Hnorm.
      { unfold ByteBPE_Tokenizer.normalize. by rewrite (strip_whitespace _ (Hws _ Htext)). }
      rewrite (ByteBPE_TokenizerFacts.byte_encode_trained nfkc lower _ text unk_id []); [|done|].
      * unfold ByteBPE_Tokenizer.to_ids, ByteBPE_Tokenizer._encode_bytes, segment. simpl.
        rewrite Hbos. case_decide; simpl; by rewrite Heos.
      * by rewrite Hnorm.
    + destruct (utf8_encode (ByteBPE_Tokenizer.normalize nfkc lower text))
        as [words|] eqn:Hwords.
      * rewrite (ByteBPE_TokenizerFacts.byte_encode_trained nfkc lower _ text unk_id words Hunk Hwords).
        unfold ByteBPE_Tokenizer.to_ids. rewrite !fmap_app. simpl.
        rewrite Hbos, Heos. simpl. split; [|eauto].
        intros ids [= <-]. eauto.
      * rewrite ByteBPE_TokenizerFacts.byte_encode_UnicodeEncodeError;
          [done| |done].
        apply (ByteBPE_TokenizerFacts.byte_train_nonempty nfkc lower bt Htr).
Qed.

Lemma encode_bos_eos_witness :
  let corpus := [py "abab"; py "ab"] in
  let t := BPE_Tokenizer.train id id (BPE_Tokenizer.init 5) corpus in
  (exists bos_id eos_id,
     token_to_id t !! py "<bos>" = Some bos_id
     /\ token_to_id t !! py "<eos>" = Some eos_id
     /\ BPE_Tokenizer.encode id id t (py "  ") = Ok [bos_id; eos_id])
  /\ (exists bt bos_id eos_id,
        ByteBPE_Tokenizer.train id id (ByteBPE_Tokenizer.init 5) corpus = Ok bt
        /\ token_to_id bt !! ByteBPE_Tokenizer.TStr (py "<bos>") = Some bos_id
        /\ token_to_id bt !! ByteBPE_Tokenizer.TStr (py "<eos>") = Some eos_id
        /\ ByteBPE_Tokenizer.encode id id bt (py "  ") = Ok [bos_id; eos_id]).
Proof.
  intros corpus t.
  pose proof (ByteBPE_TokenizerFacts.train_Ok id id (ByteBPE_Tokenizer.init 5) corpus
                [([py "a"; py "b"; py "a"; py "b"], 1); ([py "a"; py "b"], 1)] eq_refl) as E.
  assert (whitespace (py "  ")) as Hspace by (unfold whitespace; by repeat constructor).
  destruct (encode_bos_eos id id (BPE_Tokenizer.init 5) (ByteBPE_Tokenizer.init 5)
              corpus (py "  ")) as [Hc Hb].
  rewrite E in Hb.
  destruct Hc as (bos_id & eos_id & Hbos & Heos & Hencode & _).
  destruct Hb as (bbos_id & beos_id & Hbbos & Hbeos & Hbencode & _).
  split.
  - exact (ex_intro _ bos_id (ex_intro _ eos_id (conj Hbos (conj Heos (Hencode (fun s Hs => Hs) Hspace))))).
  - exact (ex_intro _ _ (ex_intro _ bbos_id (ex_intro _ beos_id
             (conj E (conj Hbbos (conj Hbeos (Hbencode (fun s Hs => Hs) Hspace))))))).
Defined.

End EncodeFacts.

(** ** Two scenarios *)

Module Scenarios.
Import Common MapFacts.

(** C6. For the corpus ["hello, world!"], [num_merges = 50] and the byte
    class, every byte of the UTF-8 encoding of the normalized line is, as
    a symbol of length one, a key of [token_to_id] after [train]; no pair
    occurs twice, so no merge is learned. The two Unicode functions are
    taken to leave the line as it is. *)
Theorem hello_world_bytes_in_vocabulary (nfkc lower : list N -> list N) :
  lower (nfkc (py "hello, world!")) = py "hello, world!" ->
  exists t b,
    ByteBPE_Tokenizer.train nfkc lower (ByteBPE_Tokenizer.init 50) [py "hello, world!"] = Ok t
    /\ utf8_encode (ByteBPE_Tokenizer.normalize nfkc lower (py "hello, world!")) = Some b
    /\ b = py "hello, world!"
    /\ merges t = []
    /\ Forall (fun byte => is_Some (token_to_id t !! ByteBPE_Tokenizer.TBytes [byte])) b.
Proof.
  intros Hline.
  assert (ByteBPE_Tokenizer.normalize nfkc lower (py "hello, world!") = py "hello, world!")
    as Hnorm.
  { unfold ByteBPE_Tokenizer.normalize. rewrite Hline. reflexivity. }
  assert (ByteBPE_Tokenizer._get_bpe_vocab_from_corpus nfkc lower [py "hello, world!"]
          = Ok [(ByteBPE_Tokenizer.byte_symbols (py "hello, world!"), 1)]) as Hvocab.
  { unfold ByteBPE_Tokenizer._get_bpe_vocab_from_corpus, ByteBPE_Tokenizer.add_lines,
      ByteBPE_Tokenizer.add_line. rewrite Hnorm. reflexivity. }
  eexists _, _.
  split; [exact (ByteBPE_TokenizerFacts.train_Ok _ _ _ _ _ Hvocab)|].
  split; [rewrite Hnorm; reflexivity|].
  split; [reflexivity|].
  split; [by vm_compute|].
  compute_done.
Qed.

Lemma hello_world_bytes_in_vocabulary_witness :
  exists t b,
    ByteBPE_Tokenizer.train id id (ByteBPE_Tokenizer.init 50) [py "hello, world!"] = Ok t
    /\ utf8_encode (ByteBPE_Tokenizer.normalize id id (py "hello, world!")) = Some b
    /\ b = py "hello, world!"
    /\ merges t = []
    /\ Forall (fun byte => is_Some (token_to_id t !! ByteBPE_Tokenizer.TBytes [byte])) b.
Proof. exact (hello_world_bytes_in_vocabulary id id eq_refl). Defined.

(** C4. The code breaks the bijection in the character class: [train]
    puts the special tokens before the sorted symbols without looking for a
    symbol that is one of them. For the corpus ["<unk>a <unk>a"] and four
    merges the symbol ["<unk>"] is learned: [token_to_id] sends ["<unk>"] to
    5, not to 1, while [id_to_token] sends both 1 and 5 to it, so the maps
    are not inverse to each other and have different sizes. *)
Theorem special_token_collision :
  let t := BPE_Tokenizer.train id id (BPE_Tokenizer.init 4) [py "<unk>a <unk>a"] in
  merges t = [(py "<", py "u"); (py "<u", py "n"); (py "<un", py "k"); (py "<unk", py ">")]
  /\ token_to_id t !! py "<unk>" = Some 5%Z
  /\ id_to_token t !! 1%Z = Some (py "<unk>")
  /\ id_to_token t !! 5%Z = Some (py "<unk>")
  /\ size (token_to_id t) = 6
  /\ size (id_to_token t) = 7.
Proof. by vm_compute. Qed.

End Scenarios.

(** ** Facts about [split] and [join] *)

Module SplitFacts.

Lemma split_from_words (s cur : list N) :
  Forall (fun c => is_space c = false) cur -> Forall is_word (split_from cur s).
Proof.
  revert cur. induction s as [|c s IH]; intros cur Hcur; simpl.
  - destruct cur as [|c' cur]; [constructor|].
    constructor; [by split|constructor].
  - destruct (is_space c) eqn:Hc.
    + destruct cur as [|c' cur]; [by apply IH|].
      constructor; [by split|]. by apply IH.
    + apply IH. apply Forall_app. split; [done|].
      constructor; [done|constructor].
Qed.

Lemma split_words (s : list N) : Forall is_word (split s).
Proof. by apply split_from_words. Qed.

Lemma filter_words (ws : list (list N)) :
  Forall is_word ws -> filter (fun w => w <> []) ws = ws.
Proof.
  induction 1 as [|w ws [Hw _] _ IH]; [done|].
  rewrite filter_cons. case_decide; [|done]. by rewrite IH.
Qed.

Lemma split_from_app_word (w s cur : list N) :
  Forall (fun c => is_space c = false) w ->
  split_from cur (w ++ s) = split_from (cur ++ w) s.
Proof.
  revert cur. induction w as [|c w IH]; intros cur Hw; simpl.
  - by rewrite app_nil_r.
  - apply Forall_cons in Hw as [Hc Hw]. rewrite Hc, IH by done.
    by rewrite <- app_assoc.
Qed.

(** Splitting words joined by single spaces gives the words back. *)
Lemma split_join (ws : list (list N)) :
  Forall is_word ws -> split (join (py " ") ws) = ws.
Proof.
  unfold split. induction 1 as [|w ws [Hne Hw] Hws IH]; [done|].
  destruct ws as [|w' ws].
  - simpl. rewrite <- (app_nil_r w) at 1. rewrite split_from_app_word by done.
    simpl. by destruct w.
  - change (join (py " ") (w :: w' :: ws)) with (w ++ py " " ++ join (py " ") (w' :: ws)).
    rewrite split_from_app_word by done.
    change (py " " ++ join (py " ") (w' :: ws)) with (32%N :: join (py " ") (w' :: ws)).
    cbn [split_from]. change (is_space 32) with true. cbv iota.
    rewrite IH. by destruct w.
Qed.

End SplitFacts.

(** ** The segmentation loop keeps the text of its input *)

Module ConcatFacts.
Import Common.

Lemma merge_word_concat (a b : list N) (s : list (list N)) :
  concat (merge_word a b s) = concat s.
Proof.
  remember (length s) as n eqn:Hn. revert s Hn.
  induction (lt_wf n) as [n _ IH]; intros s ->.
  destruct s as [|x [|y rest]]; [done..|].
  rewrite SegmentFacts.merge_word_cons_cons. case_decide as Hd.
  - destruct Hd as [-> ->]. cbn [concat].
    rewrite (IH (length rest) ltac:(simpl; lia) rest eq_refl). by rewrite app_assoc.
  - cbn [concat].
    by rewrite (IH (length (y :: rest)) ltac:(simpl; lia) (y :: rest) eq_refl).
Qed.

(** The last symbol keeps its suffix. *)
Lemma merge_word_last (m a b : list N) (s : list (list N)) (z : list N) :
  last s = Some z -> m `suffix_of` z ->
  exists z', last (merge_word a b s) = Some z' /\ m `suffix_of` z'.
Proof.
  remember (length s) as n eqn:Hn. revert s Hn.
  induction (lt_wf n) as [n _ IH]; intros s -> Hlast Hm.
  destruct s as [|x [|y rest]]; [done| |].
  - simpl in *. by exists z.
  - assert (last (y :: rest) = Some z) as Hlast' by done.
    rewrite SegmentFacts.merge_word_cons_cons. case_decide as Hd.
    + destruct Hd as [-> ->]. destruct rest as [|w rest].
      * simpl in *. injection Hlast as <-. exists (a ++ b). split; [done|].
        by apply suffix_app_r.
      * destruct (IH (length (w :: rest)) ltac:(simpl; lia) (w :: rest) eq_refl Hlast' Hm)
          as (z' & Hz' & Hm').
        exists z'. split; [|done].
        destruct (merge_word a b (w :: rest)) eqn:E; [done|]. by rewrite last_cons, Hz'.
    + destruct (IH (length (y :: rest)) ltac:(simpl; lia) (y :: rest) eq_refl Hlast' Hm)
        as (z' & Hz' & Hm').
      exists z'. split; [|done].
      destruct (merge_word a b (y :: rest)) eqn:E; [done|]. by rewrite last_cons, Hz'.
Qed.

Lemma while_true_invariant {S : Type} (P : S -> Prop) (step : S -> option S) :
  (forall s s', step s = Some s' -> P s -> P s') ->
  forall fuel s, P s -> P (while_true step fuel s).
Proof.
  intros Hstep fuel. induction fuel as [|fuel IH]; intros s Hs; simpl; [done|].
  destruct (step s) as [s'|] eqn:E; [|done]. apply IH. by eapply Hstep.
Qed.

Lemma segment_invariant (P : list (list N) -> Prop) (tbl : gmap (list N * list N) nat) :
  (forall a b s, P s -> P (merge_word a b s)) ->
  forall s, P s -> P (segment tbl s).
Proof.
  intros Hmerge s Hs. unfold segment. case_decide; [done|].
  apply while_true_invariant; [|done].
  intros s1 s2. unfold segment_step.
  destruct (best_candidate tbl s1) as [[[? ?] [a b]]|]; [|done].
  intros [= <-]. apply Hmerge.
Qed.

Lemma segment_concat (tbl : gmap (list N * list N) nat) (s : list (list N)) :
  concat (segment tbl s) = concat s.
Proof.
  apply (segment_invariant (fun s' => concat s' = concat s)); [|done].
  intros a b s' Hs'. by rewrite merge_word_concat.
Qed.

Lemma segment_last (tbl : gmap (list N * list N) nat) (m : list N) (s : list (list N)) (z : list N) :
  last s = Some z -> m `suffix_of` z ->
  exists z', last (segment tbl s) = Some z' /\ m `suffix_of` z'.
Proof.
  intros Hlast Hm.
  apply (segment_invariant (fun s' => exists z', last s' = Some z' /\ m `suffix_of` z')).
  - intros a b s' (z' & Hz' & Hm'). by eapply merge_word_last.
  - by exists z.
Qed.

End ConcatFacts.

(** ** [decode] after [encode] *)

Module RoundTrip.
Import Common MapFacts SplitFacts ConcatFacts.

(** *** The byte class *)

Section bytes.
Import ByteBPE_Tokenizer ByteBPE_TokenizerFacts.
Context (nfkc lower : list N -> list N) (t : tokenizer).
Hypothesis t_trained : trained nfkc lower t.

Lemma concat_byte_symbols (b : list N) : concat (byte_symbols b) = b.
Proof. induction b as [|x b IH]; [done|]. simpl. by rewrite IH. Qed.

Lemma kept_bytes_special (unk_id : Z) (tok : token) :
  tok ∈ SPECIAL_TOKENS -> kept_bytes t (default unk_id (token_to_id t !! tok)) = None.
Proof.
  intros Hs. destruct (byte_train_special nfkc lower t t_trained tok Hs) as [i Hi].
  rewrite Hi. simpl. unfold kept_bytes.
  rewrite (byte_train_coherent nfkc lower t t_trained tok i Hi).
  apply byte_special_tokens_elem in Hs as [-> | [-> | [-> | ->]]]; done.
Qed.

Lemma kept_bytes_symbols (unk_id : Z) (symbols : list (list N)) :
  Forall (fun sym => is_Some (token_to_id t !! TBytes sym)) symbols ->
  omap (kept_bytes t) (to_ids t unk_id (TBytes <$> symbols)) = symbols.
Proof.
  induction 1 as [|sym symbols [i Hi] _ IH]; [done|].
  unfold to_ids in *. rewrite !fmap_cons.
  change (omap ?f (?x :: ?l))
    with (match f x with Some y => y :: omap f l | None => omap f l end).
  rewrite Hi. simpl. unfold kept_bytes at 1.
  rewrite (byte_train_coherent nfkc lower t t_trained _ i Hi). by rewrite IH.
Qed.

Lemma to_ids_app (unk_id : Z) (l1 l2 : list token) :
  to_ids t unk_id (l1 ++ l2) = to_ids t unk_id l1 ++ to_ids t unk_id l2.
Proof. apply fmap_app. Qed.

Lemma kept_special_singleton (unk_id : Z) (tok : token) :
  tok ∈ SPECIAL_TOKENS -> omap (kept_bytes t) (to_ids t unk_id [tok]) = [].
Proof.
  intros Hs.
  change (omap (kept_bytes t) (to_ids t unk_id [tok]))
    with (match kept_bytes t (default unk_id (token_to_id t !! tok)) with
          | Some y => [y]
          | None => []
          end).
  by rewrite kept_bytes_special.
Qed.

Lemma byte_round_trip (text words : list N) :
  utf8_encode (normalize nfkc lower text) = Some words ->
  Forall (fun sym => is_Some (token_to_id t !! TBytes sym)) (_encode_bytes t words) ->
  exists ids, encode nfkc lower t text = Ok ids
              /\ decode t ids = Ok (normalize nfkc lower text).
Proof.
  intros Hwords Hvocab.
  destruct (byte_train_special nfkc lower t t_trained (TStr (py "<unk>"))) as [unk_id Hunk];
    [apply byte_special_tokens_elem; tauto|].
  eexists. split; [by apply byte_encode_trained|].
  rewrite (byte_decode_trained nfkc lower) by done. f_equal.
  rewrite !to_ids_app, !omap_app, (kept_bytes_symbols unk_id) by done.
  rewrite !kept_special_singleton by (apply byte_special_tokens_elem; tauto).
  rewrite app_nil_r, app_nil_l.
  unfold _encode_bytes. rewrite segment_concat, concat_byte_symbols.
  by apply Utf8Facts.utf8_decode_encode.
Qed.

End bytes.

(** *** The character class *)

Section characters.
Import BPE_Tokenizer BPE_TokenizerFacts.
Context (nfkc lower : list N -> list N) (self : tokenizer) (corpus : list (list N)).

Let t := train nfkc lower self corpus.

Lemma kept_token_special (unk_id : Z) (tok : list N) :
  tok ∈ SPECIAL_TOKENS -> kept_token t (default unk_id (token_to_id t !! tok)) = None.
Proof.
  unfold t. intros Hs. destruct (train_special nfkc lower self corpus tok Hs) as [i Hi].
  rewrite Hi. simpl. unfold kept_token.
  rewrite (train_coherent nfkc lower self corpus tok i Hi). by case_decide.
Qed.

Lemma kept_token_symbols (unk_id : Z) (symbols : list (list N)) :
  Forall (fun sym => is_Some (token_to_id t !! sym) /\ sym ∉ SPECIAL_TOKENS) symbols ->
  omap (kept_token t) (to_ids t unk_id symbols) = symbols.
Proof.
  unfold t. induction 1 as [|sym symbols [[i Hi] Hsym] _ IH]; [done|].
  unfold to_ids in *. rewrite !fmap_cons.
  change (omap ?f (?x :: ?l))
    with (match f x with Some y => y :: omap f l | None => omap f l end).
  rewrite Hi. simpl. unfold kept_token at 1.
  rewrite (train_coherent nfkc lower self corpus _ i Hi).
  case_decide; [done|]. by rewrite IH.
Qed.

End characters.

Lemma endswith_suffix (s m : list N) : endswith s m = true <-> m `suffix_of` s.
Proof.
  unfold endswith. rewrite bool_decide_eq_true. split.
  - intros <-. exists (take (length s - length (drop (length s - length m) s)) s).
    rewrite length_drop.
    destruct (decide (length m <= length s)).
    + replace (length s - (length s - (length s - length m))) with (length s - length m) by lia.
      by rewrite take_drop.
    + replace (length s - length m) with 0 by lia. by rewrite Nat.sub_0_r, Nat.sub_diag.
  - intros [k ->]. rewrite length_app.
    replace (length k + length m - length m) with (length k) by lia.
    by rewrite drop_app_length.
Qed.

(** The loop of [decode] over the symbols of one word closes the word. *)
Lemma decode_word (words : list (list N)) (cur : list N) (init : list (list N)) (p : list N) :
  Forall (fun sym => endswith sym BPE_Tokenizer.end_of_word = false) init ->
  foldl BPE_Tokenizer.decode_step (words, cur) (init ++ [p ++ BPE_Tokenizer.end_of_word])
  = (words ++ [cur ++ concat init ++ p], []).
Proof.
  revert cur. induction init as [|sym init IH]; intros cur Hinit.
  - simpl. unfold BPE_Tokenizer.decode_step.
    assert (endswith (p ++ BPE_Tokenizer.end_of_word) BPE_Tokenizer.end_of_word = true) as ->.
    { apply endswith_suffix. by exists p. }
    rewrite length_app. change (length BPE_Tokenizer.end_of_word) with 4.
    replace (length p + 4 - 4) with (length p) by lia. by rewrite take_app_length.
  - apply Forall_cons in Hinit as [Hsym Hinit].
    cbn [app foldl]. unfold BPE_Tokenizer.decode_step at 2. rewrite Hsym.
    rewrite IH by done. cbn [concat]. by rewrite !app_assoc.
Qed.

Section character_round_trip.
Import BPE_Tokenizer BPE_TokenizerFacts.
Context (nfkc lower : list N -> list N) (self : tokenizer) (corpus : list (list N)).

Let t := train nfkc lower self corpus.

Lemma concat_word_symbols (w : list N) : concat (word_symbols w) = w ++ end_of_word.
Proof.
  unfold word_symbols. rewrite concat_app.
  change (concat [end_of_word]) with (end_of_word ++ []). rewrite app_nil_r. f_equal.
  induction w as [|c w IH]; [done|]. rewrite fmap_cons. cbn [concat]. by rewrite IH.
Qed.

Lemma last_word_symbols (w : list N) : last (word_symbols w) = Some end_of_word.
Proof. unfold word_symbols. by rewrite last_snoc. Qed.

(** The symbols of a word are some symbols without the marker at their
    end, then one with it; together they spell the word. *)
Lemma encode_word_shape (tok : tokenizer) (w : list N) :
  Forall (fun sym => endswith sym end_of_word = false)
    (take (length (_encode_word tok w) - 1) (_encode_word tok w)) ->
  exists init p,
    _encode_word tok w = init ++ [p ++ end_of_word]
    /\ Forall (fun sym => endswith sym end_of_word = false) init
    /\ concat init ++ p = w.
Proof.
  intros Hinit. unfold _encode_word in *.
  destruct (segment_last (pair2rank tok) end_of_word (word_symbols w) end_of_word
              (last_word_symbols w)) as (z & Hz & [p ->]); [done|].
  apply last_Some in Hz as [init Hsyms].
  exists init, p. split; [done|].
  pose proof (segment_concat (pair2rank tok) (word_symbols w)) as Hconcat.
  rewrite Hsyms in Hinit, Hconcat.
  rewrite length_app in Hinit. simpl in Hinit.
  replace (length init + 1 - 1) with (length init) in Hinit by lia.
  rewrite take_app_length in Hinit. split; [done|].
  rewrite concat_app, concat_word_symbols in Hconcat. simpl in Hconcat.
  rewrite app_nil_r, app_assoc in Hconcat. by apply app_inv_tail in Hconcat.
Qed.

Lemma decode_words (tok : tokenizer) (ws acc : list (list N)) :
  Forall (fun w => decodable tok (_encode_word tok w)) ws ->
  foldl decode_step (acc, []) (concat (_encode_word tok <$> ws)) = (acc ++ ws, []).
Proof.
  revert acc. induction ws as [|w ws IH]; intros acc Hws.
  - simpl. by rewrite app_nil_r.
  - apply Forall_cons in Hws as [[_ Hw] Hws].
    destruct (encode_word_shape tok w Hw) as (init & p & Hsyms & Hinit & Hspell).
    rewrite fmap_cons. cbn [concat]. rewrite foldl_app, Hsyms, decode_word by done.
    rewrite IH by done. cbn [app]. rewrite Hspell.
    by rewrite (cons_middle w acc ws), app_assoc.
Qed.

Lemma character_round_trip (text : list N) :
  Forall (fun w => decodable t (_encode_word t w)) (split (normalize nfkc lower text)) ->
  exists ids decoded,
    encode nfkc lower t text = Ok ids
    /\ decode t ids = Ok decoded
    /\ decoded = join (py " ") (split (normalize nfkc lower text))
    /\ split decoded = split (normalize nfkc lower text).
Proof.
  unfold t. intros Hws.
  destruct (train_special nfkc lower self corpus (py "<unk>")) as [unk_id Hunk];
    [apply special_tokens_elem; tauto|].
  eexists _, _. split; [by apply encode_trained|].
  split; [|split; [reflexivity|apply split_join, split_words]].
  rewrite decode_trained by apply train_nonempty. f_equal. f_equal.
  rewrite filter_words by apply split_words.
  assert (forall l1 l2, to_ids (train nfkc lower self corpus) unk_id (l1 ++ l2)
                        = to_ids (train nfkc lower self corpus) unk_id l1
                          ++ to_ids (train nfkc lower self corpus) unk_id l2) as Happ.
  { intros l1 l2. apply fmap_app. }
  assert (forall tok, tok ∈ SPECIAL_TOKENS ->
            omap (kept_token (train nfkc lower self corpus))
              (to_ids (train nfkc lower self corpus) unk_id [tok]) = []) as Hspecial.
  { intros tok Htok.
    change (omap (kept_token (train nfkc lower self corpus))
              (to_ids (train nfkc lower self corpus) unk_id [tok]))
      with (match kept_token (train nfkc lower self corpus)
                    (default unk_id (token_to_id (train nfkc lower self corpus) !! tok)) with
            | Some y => [y]
            | None => []
            end).
    by rewrite (kept_token_special nfkc lower self corpus). }
  rewrite !Happ, !omap_app, !Hspecial by (apply special_tokens_elem; tauto).
  rewrite (kept_token_symbols nfkc lower self corpus unk_id).
  - rewrite app_nil_r, app_nil_l.
    unfold words_of_tokens. by rewrite decode_words.
  - apply Forall_concat. apply Forall_fmap.
    eapply Forall_impl; [apply Hws|]. by intros w [Hw _].
Qed.

End character_round_trip.

(** C3, amended. After [train], [decode(encode(text))] is
    [normalize(text)] in the byte class for every text that UTF-8 can encode
    and whose symbols are all in the vocabulary; in the character class it
    is the words of [normalize(text)] joined by single spaces, hence has
    the same word sequence, for every text whose symbols are all in the
    vocabulary, of which none is a special token and none but the last of a
    word ends with the end-of-word marker. *)
Theorem decode_encode_round_trip (nfkc lower : list N -> list N)
    (self : BPE_Tokenizer.tokenizer) (bself bt : ByteBPE_Tokenizer.tokenizer)
    (corpus : list (list N)) (text : list N) :
  (ByteBPE_Tokenizer.train nfkc lower bself corpus = Ok bt ->
   forall words,
     utf8_encode (ByteBPE_Tokenizer.normalize nfkc lower text) = Some words ->
     Forall (fun sym => is_Some (token_to_id bt !! ByteBPE_Tokenizer.TBytes sym))
       (ByteBPE_Tokenizer._encode_bytes bt words) ->
     exists ids,
       ByteBPE_Tokenizer.encode nfkc lower bt text = Ok ids
       /\ ByteBPE_Tokenizer.decode bt ids = Ok (ByteBPE_Tokenizer.normalize nfkc lower text))
  /\ (let t := BPE_Tokenizer.train nfkc lower self corpus in
      Forall (fun w => BPE_Tokenizer.decodable t (BPE_Tokenizer._encode_word t w))
        (split (BPE_Tokenizer.normalize nfkc lower text)) ->
      exists ids decoded,
        BPE_Tokenizer.encode nfkc lower t text = Ok ids
        /\ BPE_Tokenizer.decode t ids = Ok decoded
        /\ decoded = join (py " ") (split (BPE_Tokenizer.normalize nfkc lower text))
        /\ split decoded = split (BPE_Tokenizer.normalize nfkc lower text)).
Proof.
  split.
  - intros Hbt words Hwords Hvocab.
    apply (byte_round_trip nfkc lower bt ltac:(by exists bself, corpus) text words);
      done.
  - intros t. apply character_round_trip.
Qed.

Lemma decode_encode_round_trip_witness :
  let corpus := [py "low"; py "lower"; py "lowest"; py "low low lower"] in
  let t := BPE_Tokenizer.train id id (BPE_Tokenizer.init 20) corpus in
  (exists bt ids,
     ByteBPE_Tokenizer.train id id (ByteBPE_Tokenizer.init 20) corpus = Ok bt
     /\ ByteBPE_Tokenizer.encode id id bt (py "lower") = Ok ids
     /\ ByteBPE_Tokenizer.decode bt ids = Ok (ByteBPE_Tokenizer.normalize id id (py "lower")))
  /\ (exists ids decoded,
        BPE_Tokenizer.encode id id t (py "lower  low") = Ok ids
        /\ BPE_Tokenizer.decode t ids = Ok decoded
        /\ decoded = join (py " ") (split (BPE_Tokenizer.normalize id id (py "lower  low")))
        /\ split decoded = split (BPE_Tokenizer.normalize id id (py "lower  low"))).
Proof.
  intros corpus t.
  pose proof (ByteBPE_TokenizerFacts.train_Ok id id (ByteBPE_Tokenizer.init 20) corpus
                [(ByteBPE_Tokenizer.byte_symbols (py "low"), 1);
                 (ByteBPE_Tokenizer.byte_symbols (py "lower"), 1);
                 (ByteBPE_Tokenizer.byte_symbols (py "lowest"), 1);
                 (ByteBPE_Tokenizer.byte_symbols (py "low low lower"), 1)] eq_refl) as E.
  split.
  - eexists.
    destruct (proj1 (decode_encode_round_trip id id (BPE_Tokenizer.init 20)
                       (ByteBPE_Tokenizer.init 20) _ corpus (py "lower"))
                E (py "lower") eq_refl) as (ids & Hencode & Hdecode).
    + unfold ByteBPE_Tokenizer._encode_bytes. compute_done.
    + exists ids. exact (conj E (conj Hencode Hdecode)).
  - apply (proj2 (decode_encode_round_trip id id (BPE_Tokenizer.init 20)
                    (ByteBPE_Tokenizer.init 20) (ByteBPE_Tokenizer.init 20)
                    corpus (py "lower  low"))).
    unfold BPE_Tokenizer.decodable, BPE_Tokenizer._encode_word. compute_done.
Defined.

(** C3 as stated fails in the character class. After [train] on
    ["a</w>b a</w>b"] with four merges, the text ["a</w>b"] is segmented into
    ["a</w>"], ["b"], ["</w>"], all in the vocabulary; [decode] takes the
    first for the end of a word and returns ["a b"], two words where the
    normalized text has one. After [train] on ["<unk>a <unk>a"] the symbol
    ["<unk>"] of the text ["<unk>a"] is in the vocabulary and is dropped
    by [decode] as a special token. *)
Lemma round_trip_fails_on_marker :
  let t := BPE_Tokenizer.train id id (BPE_Tokenizer.init 4) [py "a</w>b a</w>b"] in
  let u := BPE_Tokenizer.train id id (BPE_Tokenizer.init 4) [py "<unk>a <unk>a"] in
  (BPE_Tokenizer._encode_word t (py "a</w>b") = [py "a</w>"; py "b"; py "</w>"]
   /\ Forall (fun sym => is_Some (token_to_id t !! sym))
         (BPE_Tokenizer._encode_word t (py "a</w>b"))
   /\ BPE_Tokenizer.encode id id t (py "a</w>b") = Ok [2; 5; 6; 4; 3]%Z
   /\ BPE_Tokenizer.decode t [2; 5; 6; 4; 3]%Z = Ok (py "a b")
   /\ split (py "a b") = [py "a"; py "b"]
   /\ split (BPE_Tokenizer.normalize id id (py "a</w>b")) = [py "a</w>b"])
  /\ (BPE_Tokenizer._encode_word u (py "<unk>a") = [py "<unk>"; py "a"; py "</w>"]
      /\ Forall (fun sym => is_Some (token_to_id u !! sym))
            (BPE_Tokenizer._encode_word u (py "<unk>a"))
      /\ BPE_Tokenizer.encode id id u (py "<unk>a") = Ok [2; 5; 6; 4; 3]%Z
      /\ BPE_Tokenizer.decode u [2; 5; 6; 4; 3]%Z = Ok (py "a")
      /\ split (BPE_Tokenizer.normalize id id (py "<unk>a")) = [py "<unk>a"]).
Proof.
  intros t u. split.
  - split; [by vm_compute|]. split; [compute_done|].
    split; [by vm_compute|]. split; [by vm_compute|]. split; by vm_compute.
  - split; [by vm_compute|]. split; [compute_done|].
    split; [by vm_compute|]. split; by vm_compute.
Qed.

End RoundTrip.

(** * Further properties

    Properties of the methods that the statements above do not cover, and
    of [WordTokenizer] and [Character_Tokenizer]. *)

Import Count Marked.

(** ** [normalize]: what [strip] and the [re.sub] call leave *)

Module NormalizeShape.

Lemma lstrip_snoc (x : list N) (c : N) :
  lstrip (x ++ [c]) = match lstrip x with [] => lstrip [c] | l => l ++ [c] end.
Proof.
  induction x as [|d x IH]; [done|]. simpl. by destruct (is_space d).
Qed.

(** [s.rstrip()], as [strip] applies it, read from the left. *)
Lemma rstrip_cons (c : N) (s : list N) :
  reverse (lstrip (reverse (c :: s)))
  = match reverse (lstrip (reverse s)) with
    | [] => if is_space c then [] else [c]
    | r => c :: r
    end.
Proof.
  rewrite reverse_cons, lstrip_snoc.
  destruct (lstrip (reverse s)) as [|d l] eqn:E.
  - simpl. by destruct (is_space c).
  - rewrite reverse_app. simpl.
    destruct (reverse (d :: l)) eqn:E'; [|done].
    apply (f_equal length) in E'. rewrite length_reverse in E'. done.
Qed.

Lemma rstrip_app (a b : list N) :
  reverse (lstrip (reverse (a ++ b)))
  = match reverse (lstrip (reverse b)) with
    | [] => reverse (lstrip (reverse a))
    | r => a ++ r
    end.
Proof.
  induction a as [|c a IH].
  - simpl. change (reverse []) with (@nil N). simpl.
    change (reverse []) with (@nil N). by destruct (reverse (lstrip (reverse b))).
  - change ((c :: a) ++ b) with (c :: (a ++ b)). rewrite !rstrip_cons, IH.
    destruct (reverse (lstrip (reverse b))) as [|d r]; [done|].
    by destruct a.
Qed.

Lemma rstrip_word (cur : list N) :
  Forall (fun c => is_space c = false) cur -> reverse (lstrip (reverse cur)) = cur.
Proof.
  induction 1 as [|c cur Hc _ IH]; [done|].
  rewrite rstrip_cons, IH, Hc. by destruct cur.
Qed.

Lemma rstrip_whitespace (s : list N) :
  whitespace s -> reverse (lstrip (reverse s)) = [].
Proof.
  intros Hs. rewrite NormalizeFacts.lstrip_whitespace; [done|].
  unfold whitespace in *. by rewrite Forall_reverse.
Qed.

Lemma sub_spaces_word (cur s : list N) :
  Forall (fun c => is_space c = false) cur ->
  sub_spaces false (cur ++ s) = cur ++ sub_spaces false s.
Proof.
  induction 1 as [|c cur Hc _ IH]; [done|]. simpl. by rewrite Hc, IH.
Qed.

Lemma sub_spaces_space (in_run : bool) (c : N) (s : list N) :
  is_space c = true ->
  sub_spaces in_run (c :: s)
  = if in_run then sub_spaces true s else 32%N :: sub_spaces true s.
Proof. intros Hc. simpl. by rewrite Hc. Qed.

Lemma sub_spaces_char (in_run : bool) (c : N) (s : list N) :
  is_space c = false -> sub_spaces in_run (c :: s) = c :: sub_spaces false s.
Proof. intros Hc. simpl. by rewrite Hc. Qed.

Lemma split_from_nil (s cur : list N) :
  split_from cur s = [] -> cur = [] /\ whitespace s.
Proof.
  revert cur. induction s as [|c s IH]; intros cur; simpl.
  - destruct cur; [|done]. by split; [|constructor].
  - destruct (is_space c) eqn:Hc.
    + destruct cur; [|done]. intros [_ Hs]%IH. by split; [|constructor].
    + intros [Hcur _]%IH. by destruct cur.
Qed.

Lemma join_cons (w : list N) (ws : list (list N)) :
  ws <> [] -> join (py " ") (w :: ws) = w ++ 32%N :: join (py " ") ws.
Proof. by destruct ws. Qed.

(** The white-space part of [normalize], from the state in which
    [split] has read the word [cur]. *)
Lemma sub_spaces_rstrip (s : list N) :
  (forall cur, cur <> [] -> Forall (fun c => is_space c = false) cur ->
     sub_spaces false (reverse (lstrip (reverse (cur ++ s))))
     = join (py " ") (split_from cur s))
  /\ sub_spaces true (reverse (lstrip (reverse s))) = join (py " ") (split_from [] s).
Proof.
  induction s as [|c s [IH1 IH2]].
  - split; [|done]. intros cur Hne Hcur. rewrite app_nil_r, rstrip_word by done.
    rewrite <- (app_nil_r cur) at 1. rewrite sub_spaces_word by done.
    simpl. rewrite app_nil_r. by destruct cur.
  - split.
    + intros cur Hne Hcur. cbn [split_from]. destruct (is_space c) eqn:Hc.
      * assert (forall l : list (list N),
                  match cur with [] => l | _ :: _ => cur :: l end = cur :: l) as ->
          by (by destruct cur).
        rewrite rstrip_app, rstrip_cons, Hc.
        destruct (split_from [] s) as [|w ws] eqn:Es.
        -- apply split_from_nil in Es as [_ Hs].
           rewrite rstrip_whitespace, rstrip_word by done.
           rewrite <- (app_nil_r cur) at 1. rewrite sub_spaces_word by done.
           simpl. by rewrite app_nil_r.
        -- destruct (reverse (lstrip (reverse s))) as [|d r] eqn:E.
           ++ assert (Forall is_word (split_from [] s)) as Hws
                by (apply SplitFacts.split_from_words; constructor).
              rewrite Es in Hws. apply Forall_cons in Hws as [[Hw _] _].
              simpl in IH2. by destruct ws, w.
           ++ rewrite sub_spaces_word, sub_spaces_space, IH2 by done.
              by rewrite (join_cons cur (w :: ws)).
      * replace (cur ++ c :: s) with ((cur ++ [c]) ++ s) by by rewrite <- app_assoc.
        rewrite (IH1 (cur ++ [c])); [done|by destruct cur|].
        apply Forall_app. split; [done|]. by repeat constructor.
    + rewrite rstrip_cons. cbn [split_from]. destruct (is_space c) eqn:Hc.
      * destruct (reverse (lstrip (reverse s))) as [|d r] eqn:E; [by rewrite <- IH2|].
        by rewrite sub_spaces_space, IH2.
      * cbn [app]. rewrite <- (IH1 [c]) by (by repeat constructor).
        change ([c] ++ s) with (c :: s). rewrite rstrip_cons, Hc.
        destruct (reverse (lstrip (reverse s))) as [|d r] eqn:E.
        -- by rewrite !sub_spaces_char.
        -- by rewrite !(sub_spaces_char _ c).
Qed.

Lemma lstrip_head (s : list N) :
  lstrip s = [] \/ exists c s', lstrip s = c :: s' /\ is_space c = false.
Proof.
  induction s as [|c s IH]; [by left|]. simpl.
  destruct (is_space c) eqn:Hc; [done|]. right. by exists c, s.
Qed.

Lemma split_lstrip (s : list N) : split (lstrip s) = split s.
Proof.
  unfold split. induction s as [|c s IH]; [done|]. simpl.
  destruct (is_space c) eqn:Hc; [done|]. simpl. by rewrite Hc.
Qed.

(** [strip] followed by [re.sub(r"\s+", " ", _)] joins the words of the
    text with single spaces. *)
Lemma sub_spaces_strip (s : list N) :
  sub_spaces false (strip s) = join (py " ") (split s).
Proof.
  unfold strip. rewrite <- split_lstrip.
  destruct (lstrip_head s) as [->|(c & s' & -> & Hc)]; [done|].
  change (c :: s') with ([c] ++ s').
  rewrite (proj1 (sub_spaces_rstrip s') [c]) by (by repeat constructor).
  unfold split. simpl. by rewrite Hc.
Qed.

(** The shape of words joined by single spaces. *)
Lemma join_words_shape (ws : list (list N)) :
  Forall is_word ws ->
  let n := join (py " ") ws in
  (forall c, c ∈ n -> is_space c = true -> c = 32%N)
  /\ (forall c, head n = Some c -> is_space c = false)
  /\ (forall c, last n = Some c -> is_space c = false)
  /\ (forall i c d, n !! i = Some c -> n !! S i = Some d ->
        is_space c = true -> is_space d = false).
Proof.
  induction 1 as [|w ws [Hne Hw] Hws IH].
  { simpl. split; [by intros c Hc%elem_of_nil|]. by repeat split. }
  destruct ws as [|w' ws].
  - simpl. split; [|split; [|split]].
    + intros c Hc Hs. rewrite Forall_forall in Hw. by rewrite (Hw c Hc) in Hs.
    + intros c Hc. rewrite Forall_forall in Hw. apply Hw.
      destruct w; [done|]. injection Hc as <-. by left.
    + intros c Hc. rewrite Forall_forall in Hw. apply Hw.
      apply last_Some in Hc as [l' ->]. apply elem_of_app. right. by left.
    + intros i c d Hc _ Hs. rewrite Forall_forall in Hw.
      apply list_elem_of_lookup_2 in Hc. by rewrite (Hw c Hc) in Hs.
  - rewrite join_cons by done. cbv zeta in IH. destruct IH as (IHa & IHh & IHl & IHd).
    set (n := join (py " ") (w' :: ws)) in *.
    assert (n <> []) as Hn.
    { intros En. apply (SplitFacts.split_join) in Hws. fold n in Hws.
      rewrite En in Hws. done. }
    cbv zeta. rewrite Forall_forall in Hw. split; [|split; [|split]].
    + intros c [Hc|Hc]%elem_of_app Hs; [by rewrite (Hw c Hc) in Hs|].
      apply elem_of_cons in Hc as [->|Hc]; [done|]. by apply IHa.
    + intros c Hc. apply Hw. destruct w; [done|]. injection Hc as <-. by left.
    + intros c Hc. apply IHl. rewrite last_app_cons in Hc.
      destruct n as [|x n']; [done|]. by rewrite last_cons_cons in Hc.
    + intros i c d Hc Hd Hs.
      destruct (decide (i < length w)) as [Hi|Hi].
      * rewrite lookup_app_l in Hc by done.
        apply list_elem_of_lookup_2 in Hc. by rewrite (Hw c Hc) in Hs.
      * rewrite lookup_app_r in Hc, Hd by lia.
        destruct (i - length w) as [|j] eqn:Ej.
        -- replace (S i - length w) with 1 in Hd by lia. simpl in Hd.
           apply IHh. by destruct n.
        -- replace (S i - length w) with (S (S j)) in Hd by lia. simpl in Hc, Hd.
           by apply (IHd j c d).
Qed.

Lemma normalize_words (nfkc lower : list N -> list N) (text : list N) :
  let n := BPE_Tokenizer.normalize nfkc lower text in
  ByteBPE_Tokenizer.normalize nfkc lower text = n
  /\ n = join (py " ") (split (lower (nfkc text)))
  /\ split n = split (lower (nfkc text))
  /\ join (py " ") (split n) = n
  /\ (forall c, c ∈ n -> is_space c = true -> c = 32%N)
  /\ (forall c, head n = Some c -> is_space c = false)
  /\ (forall c, last n = Some c -> is_space c = false)
  /\ (forall i c d, n !! i = Some c -> n !! S i = Some d ->
        is_space c = true -> is_space d = false).
Proof.
  cbv zeta. unfold ByteBPE_Tokenizer.normalize, BPE_Tokenizer.normalize.
  rewrite sub_spaces_strip.
  pose proof (SplitFacts.split_words (lower (nfkc text))) as Hws.
  rewrite SplitFacts.split_join by done.
  split; [done|]. split; [done|]. split; [done|]. split; [done|].
  by apply join_words_shape.
Qed.

(** X1. In both classes [normalize] returns the words of the lowered
    NFKC form of the text, joined by single spaces: the result has no
    white space but U+0020, none at either end and no two in a row, and
    splitting and joining it again gives it back. *)
Theorem normalize_joins_words (nfkc lower : list N -> list N) (text : list N) :
  let n := BPE_Tokenizer.normalize nfkc lower text in
  ByteBPE_Tokenizer.normalize nfkc lower text = n
  /\ n = join (py " ") (split (lower (nfkc text)))
  /\ split n = split (lower (nfkc text))
  /\ join (py " ") (split n) = n
  /\ (forall c, c ∈ n -> is_space c = true -> c = 32%N)
  /\ (forall c, head n = Some c -> is_space c = false)
  /\ (forall c, last n = Some c -> is_space c = false)
  /\ (forall i c d, n !! i = Some c -> n !! S i = Some d ->
        is_space c = true -> is_space d = false).
Proof. apply normalize_words. Qed.

Lemma normalize_fixed (nfkc lower : list N -> list N) (text : list N) :
  let n := BPE_Tokenizer.normalize nfkc lower text in
  lower (nfkc n) = n ->
  BPE_Tokenizer.normalize nfkc lower n = n
  /\ ByteBPE_Tokenizer.normalize nfkc lower n = n.
Proof.
  cbv zeta. intros Hn.
  unfold ByteBPE_Tokenizer.normalize.
  change (sub_spaces false (strip (lower (nfkc ?x))))
    with (BPE_Tokenizer.normalize nfkc lower x).
  assert (BPE_Tokenizer.normalize nfkc lower (BPE_Tokenizer.normalize nfkc lower text)
          = BPE_Tokenizer.normalize nfkc lower text) as E; [|done].
  unfold BPE_Tokenizer.normalize at 1. rewrite Hn.
  unfold BPE_Tokenizer.normalize. rewrite !sub_spaces_strip.
  by rewrite SplitFacts.split_join by apply SplitFacts.split_words.
Qed.

(** X2. [normalize] applied to its own result changes nothing, when NFKC
    and [lower] leave that result as it is. *)
Theorem normalize_idempotent (nfkc lower : list N -> list N) (text : list N) :
  let n := BPE_Tokenizer.normalize nfkc lower text in
  lower (nfkc n) = n ->
  BPE_Tokenizer.normalize nfkc lower n = n
  /\ ByteBPE_Tokenizer.normalize nfkc lower n = n.
Proof. apply normalize_fixed. Qed.

Lemma normalize_idempotent_witness :
  BPE_Tokenizer.normalize id id (py "  Hello   wide   world ") = py "Hello wide world"
  /\ BPE_Tokenizer.normalize id id (py "Hello wide world") = py "Hello wide world"
  /\ ByteBPE_Tokenizer.normalize id id (py "Hello wide world") = py "Hello wide world".
Proof.
  split; [reflexivity|].
  exact (normalize_idempotent id id (py "  Hello   wide   world ") eq_refl).
Defined.

End NormalizeShape.

(** ** One merge pass over a word *)

Module MergePass.
Import Common.

Lemma merge_word_elem (a b : list N) (word : list (list N)) (sym : list N) :
  sym ∈ merge_word a b word -> sym ∈ word \/ sym = a ++ b.
Proof.
  remember (length word) as n eqn:Hn. revert word Hn.
  induction (lt_wf n) as [n _ IH]; intros word ->.
  destruct word as [|x [|y rest]]; [by left..|].
  rewrite SegmentFacts.merge_word_cons_cons. case_decide as Hd.
  - intros [->|Hs]%elem_of_cons; [by right|].
    destruct (IH (length rest) ltac:(simpl; lia) rest eq_refl Hs) as [?|?]; [left|by right].
    by do 2 right.
  - intros [->|Hs]%elem_of_cons; [left; by left|].
    destruct (IH (length (y :: rest)) ltac:(simpl; lia) (y :: rest) eq_refl Hs) as [?|?];
      [left|by right].
    by right.
Qed.

Lemma merge_word_head (a b x : list N) (rest : list (list N)) :
  head (merge_word a b (x :: rest)) = Some x
  \/ head (merge_word a b (x :: rest)) = Some (a ++ b).
Proof.
  destruct rest as [|y rest]; [by left|].
  rewrite SegmentFacts.merge_word_cons_cons. case_decide; [by right|by left].
Qed.

Lemma adjacent_pairs_cons (x : list N) (word : list (list N)) :
  adjacent_pairs (x :: word)
  = match head word with
    | Some y => (x, y) :: adjacent_pairs word
    | None => []
    end.
Proof. by destruct word. Qed.

Lemma merge_word_pair_gone (a b : list N) (word : list (list N)) :
  a <> [] -> b <> [] -> (a, b) ∉ adjacent_pairs (merge_word a b word).
Proof.
  intros Ha Hb.
  assert (a ++ b <> a) as Hab1.
  { intros E. apply (f_equal length) in E. rewrite length_app in E.
    destruct b; [done|]. simpl in E. lia. }
  assert (a ++ b <> b) as Hab2.
  { intros E. apply (f_equal length) in E. rewrite length_app in E.
    destruct a; [done|]. simpl in E. lia. }
  remember (length word) as n eqn:Hn. revert word Hn.
  induction (lt_wf n) as [n _ IH]; intros word ->.
  destruct word as [|x [|y rest]]; [apply not_elem_of_nil..|].
  rewrite SegmentFacts.merge_word_cons_cons. case_decide as Hd.
  - pose proof (IH (length rest) ltac:(simpl; lia) rest eq_refl) as IHr.
    rewrite adjacent_pairs_cons.
    destruct (head (merge_word a b rest)) as [h|]; [|apply not_elem_of_nil].
    apply not_elem_of_cons. split; [|done]. by intros [= E _].
  - pose proof (IH (length (y :: rest)) ltac:(simpl; lia) (y :: rest) eq_refl) as IHr.
    rewrite adjacent_pairs_cons.
    destruct (merge_word_head a b y rest) as [E|E]; rewrite E.
    + apply not_elem_of_cons. split; [|done]. intros [= -> ->]. by apply Hd.
    + apply not_elem_of_cons. split; [|done]. by intros [= _ E'].
Qed.

(** X3. One pass of the inner [while i < len(word)] scan of
    [_merge_vocab] and of the segmentation loop keeps the text of the
    word, introduces no symbol but [first + second], shortens the word
    exactly when the pair occurs in it, and, the symbols of the pair being
    non-empty, leaves no occurrence of the pair. *)
Theorem merge_pass (first second : list N) (word : list (list N)) :
  concat (merge_word first second word) = concat word
  /\ (forall sym, sym ∈ merge_word first second word -> sym ∈ word \/ sym = first ++ second)
  /\ ((first, second) ∈ adjacent_pairs word ->
      length (merge_word first second word) < length word)
  /\ ((first, second) ∉ adjacent_pairs word -> merge_word first second word = word)
  /\ (first <> [] -> second <> [] ->
      (first, second) ∉ adjacent_pairs (merge_word first second word)).
Proof.
  split; [apply ConcatFacts.merge_word_concat|].
  split; [apply merge_word_elem|].
  split; [apply SegmentFacts.merge_word_length_lt|].
  split; [apply SegmentFacts.merge_word_absent|].
  apply merge_word_pair_gone.
Qed.

End MergePass.

(** ** Counting with a [defaultdict(int)] *)

Module CountFacts.

Lemma sum_list_cons (x : nat) (l : list nat) : sum_list (x :: l) = x + sum_list l.
Proof. done. Qed.

Section od_add.
Context {K : Type} `{EqDecision K}.

Lemma od_get_None (d : list (K * nat)) (k : K) : od_get d k = None <-> k ∉ d.*1.
Proof.
  induction d as [|[k' v] d IH].
  - simpl. split; [intros _; apply not_elem_of_nil|done].
  - cbn [od_get]. rewrite fmap_cons, not_elem_of_cons. cbn [fst].
    case_decide as E.
    + subst. split; [done|]. by intros [].
    + rewrite IH. split; [by split|by intros []].
Qed.

Lemma od_get_is_Some (d : list (K * nat)) (k : K) : is_Some (od_get d k) <-> k ∈ d.*1.
Proof.
  rewrite <- not_eq_None_Some, od_get_None.
  split; [|tauto]. intros Hn. by destruct (decide (k ∈ d.*1)).
Qed.

Lemma od_get_od_add (d : list (K * nat)) (k k' : K) (n : nat) :
  od_get (od_add d k n) k'
  = if decide (k = k') then Some (default 0 (od_get d k) + n) else od_get d k'.
Proof.
  induction d as [|[k0 v] d IH]; simpl.
  - repeat case_decide; congruence.
  - destruct (decide (k0 = k)) as [->|Hk0]; simpl.
    + repeat case_decide; congruence.
    + rewrite IH. repeat case_decide; congruence.
Qed.

Lemma od_add_total (d : list (K * nat)) (k : K) (n : nat) :
  sum_values (od_add d k n) = sum_values d + n.
Proof.
  unfold sum_values. induction d as [|[k0 v] d IH]; [simpl; lia|].
  cbn [od_add]. case_decide; rewrite !fmap_cons, !sum_list_cons; cbn [snd]; [lia|].
  rewrite IH. lia.
Qed.

Lemma od_add_count_where (P : K -> Prop) `{forall k, Decision (P k)}
    (d : list (K * nat)) (k : K) (n : nat) :
  count_where P (od_add d k n) = count_where P d + (if decide (P k) then n else 0).
Proof.
  unfold count_where. induction d as [|[k0 v] d IH].
  - simpl. case_decide; lia.
  - cbn [od_add].
    destruct (decide (k0 = k)) as [->|Hk0]; rewrite !fmap_cons, !sum_list_cons; cbn [fst snd].
    + repeat case_decide; lia.
    + rewrite IH. lia.
Qed.

Lemma foldl_count_where {A : Type} (P : K -> Prop) `{forall k, Decision (P k)}
    (key : A -> K) (value : A -> nat) (l : list A) (d : list (K * nat)) :
  count_where P (foldl (fun d x => od_add d (key x) (value x)) d l)
  = count_where P d + sum_list ((fun x => if decide (P (key x)) then value x else 0) <$> l).
Proof.
  revert d. induction l as [|x l IH]; intros d; [simpl; lia|].
  cbn [foldl]. rewrite IH, od_add_count_where, fmap_cons, sum_list_cons. lia.
Qed.

(** A loop [for x in l: d[key(x)] += value(x)]. *)
Lemma foldl_od_add {A : Type} (key : A -> K) (value : A -> nat) (l : list A)
    (d : list (K * nat)) :
  let d' := foldl (fun d x => od_add d (key x) (value x)) d l in
  (NoDup d.*1 -> NoDup d'.*1)
  /\ (forall k, k ∈ d'.*1 <-> k ∈ d.*1 \/ k ∈ key <$> l)
  /\ (forall k, default 0 (od_get d' k)
                = default 0 (od_get d k)
                  + sum_list ((fun x => if decide (key x = k) then value x else 0) <$> l))
  /\ sum_values d' = sum_values d + sum_list (value <$> l).
Proof.
  revert d. induction l as [|x l IH]; intros d; cbv zeta.
  - simpl. split; [done|]. split; [|split; [intros; lia|lia]].
    intros k. split; [by left|]. intros [|Hk]; [done|]. by apply elem_of_nil in Hk.
  - cbn [foldl]. destruct (IH (od_add d (key x) (value x))) as (IHn & IHk & IHc & IHt).
    split; [|split; [|split]].
    + intros Hd. by apply IHn, TrainFacts.od_add_NoDup.
    + intros k. rewrite IHk, TrainFacts.od_add_keys, fmap_cons, elem_of_cons.
      case_decide as E; [|rewrite elem_of_app, list_elem_of_singleton; tauto].
      split; [intros [?|?]; [by left|by right; right]|].
      intros [?|[->|?]]; [by left|by left|by right].
    + intros k. rewrite IHc, od_get_od_add, fmap_cons, sum_list_cons.
      case_decide as E; [subst; simpl|]; lia.
    + rewrite IHt, od_add_total, fmap_cons, sum_list_cons. lia.
Qed.

End od_add.

Lemma foldl_concat {A B C : Type} (g : A -> C -> A) (h : B -> list C) (a : A) (l : list B) :
  foldl (fun acc x => foldl g acc (h x)) a l = foldl g a (concat (h <$> l)).
Proof.
  revert a. induction l as [|x l IH]; intros a; [done|].
  simpl. by rewrite foldl_app, IH.
Qed.

Lemma foldl_ext_in {A B : Type} (f g : A -> B -> A) (a : A) (l : list B) :
  (forall acc x, x ∈ l -> f acc x = g acc x) -> foldl f a l = foldl g a l.
Proof.
  revert a. induction l as [|x l IH]; intros a Hfg; [done|].
  simpl. rewrite Hfg by by left. apply IH. intros acc y Hy. apply Hfg. by right.
Qed.

Lemma sum_list_concat (ls : list (list nat)) :
  sum_list (concat ls) = sum_list (sum_list <$> ls).
Proof.
  induction ls as [|l ls IH]; [done|]. simpl. by rewrite sum_list_with_app, IH.
Qed.

Lemma sum_list_indicator {A : Type} `{EqDecision A} (x : A) (l : list A) :
  sum_list ((fun y => if decide (y = x) then 1 else 0) <$> l) = occurrences x l.
Proof.
  unfold occurrences. induction l as [|y l IH]; [done|].
  rewrite fmap_cons, filter_cons, sum_list_cons. case_decide; simpl; lia.
Qed.

Lemma elem_of_concat {A : Type} (x : A) (ls : list (list A)) :
  x ∈ concat ls <-> exists l, x ∈ l /\ l ∈ ls.
Proof.
  induction ls as [|l ls IH]; simpl.
  - split; [by intros ?%elem_of_nil|]. by intros (l & _ & ?%elem_of_nil).
  - rewrite elem_of_app, IH. split.
    + intros [Hx|(l' & Hx & Hl')]; [exists l; split; [done|by left]|].
      exists l'. split; [done|by right].
    + intros (l' & Hx & [->|Hl']%elem_of_cons); [by left|]. right. by exists l'.
Qed.

Lemma sum_list_fmap_concat {A : Type} (f : A -> nat) (ls : list (list A)) :
  sum_list (f <$> concat ls) = sum_list ((fun l => sum_list (f <$> l)) <$> ls).
Proof.
  induction ls as [|l ls IH]; [done|].
  cbn [concat]. by rewrite fmap_app, sum_list_with_app, fmap_cons, sum_list_cons, IH.
Qed.

Lemma sum_list_scaled {A : Type} `{EqDecision A} (x : A) (n : nat) (l : list A) :
  sum_list ((fun y => if decide (y = x) then n else 0) <$> l) = n * occurrences x l.
Proof.
  unfold occurrences. induction l as [|y l IH]; [simpl; lia|].
  rewrite fmap_cons, filter_cons, sum_list_cons, IH. case_decide; simpl; lia.
Qed.

Lemma occurrences_pos {A : Type} `{EqDecision A} (x : A) (l : list A) :
  0 < occurrences x l <-> x ∈ l.
Proof.
  unfold occurrences. induction l as [|y l IH].
  - simpl. split; [lia|]. by intros ?%elem_of_nil.
  - rewrite filter_cons, elem_of_cons. case_decide as E.
    + subst. simpl. split; [by left|lia].
    + rewrite IH. split; [by right|]. by intros [->|].
Qed.

End CountFacts.

(** ** The vocabularies that [train] starts from and works on *)

Module VocabFacts.
Import Common CountFacts.

Lemma word_symbols_inj (w w' : list N) :
  BPE_Tokenizer.word_symbols w = BPE_Tokenizer.word_symbols w' -> w = w'.
Proof.
  unfold BPE_Tokenizer.word_symbols. intros E.
  apply app_inj_2 in E as [E _]; [|done].
  revert w' E. induction w as [|c w IH]; intros [|c' w'] E; try done.
  rewrite !fmap_cons in E. injection E as -> E. f_equal. by apply IH.
Qed.

Lemma get_bpe_vocab_fold (nfkc lower : list N -> list N) (corpus : list (list N)) :
  BPE_Tokenizer._get_bpe_vocab_from_corpus nfkc lower corpus
  = foldl (fun d w => od_add d (BPE_Tokenizer.word_symbols w) 1) []
      (concat ((fun line => split (BPE_Tokenizer.normalize nfkc lower line)) <$> corpus)).
Proof.
  unfold BPE_Tokenizer._get_bpe_vocab_from_corpus.
  rewrite <- (foldl_concat (fun d w => od_add d (BPE_Tokenizer.word_symbols w) 1)
                (fun line => split (BPE_Tokenizer.normalize nfkc lower line))).
  generalize (@nil (list (list N) * nat)).
  induction corpus as [|line corpus IH]; intros d; [done|].
  cbn [foldl]. rewrite <- IH. f_equal.
  apply foldl_ext_in. intros acc w Hw.
  pose proof (SplitFacts.split_words (BPE_Tokenizer.normalize nfkc lower line)) as Hws.
  rewrite Forall_forall in Hws. destruct (Hws w Hw) as [Hne _]. by destruct w.
Qed.

Lemma bpe_vocab_spec (nfkc lower : list N -> list N) (corpus : list (list N)) :
  let words := concat ((fun line => split (BPE_Tokenizer.normalize nfkc lower line)) <$> corpus) in
  let bpe_vocab := BPE_Tokenizer._get_bpe_vocab_from_corpus nfkc lower corpus in
  NoDup bpe_vocab.*1
  /\ (forall key, key ∈ bpe_vocab.*1 <-> exists w, w ∈ words /\ key = BPE_Tokenizer.word_symbols w)
  /\ (forall w, od_get bpe_vocab (BPE_Tokenizer.word_symbols w)
                = if decide (w ∈ words) then Some (Count.occurrences w words) else None)
  /\ Count.sum_values bpe_vocab = length words.
Proof.
  cbv zeta. rewrite get_bpe_vocab_fold.
  set (words := concat _).
  destruct (foldl_od_add BPE_Tokenizer.word_symbols (fun _ => 1) words [])
    as (Hn & Hk & Hc & Ht).
  cbv zeta in Hn, Hk, Hc, Ht.
  set (v := foldl _ _ _) in *.
  assert (forall key, key ∈ v.*1 <-> exists w, w ∈ words /\ key = BPE_Tokenizer.word_symbols w)
    as Hkeys.
  { intros key. rewrite Hk. split.
    - intros [Hnil|Hin]; [by apply elem_of_nil in Hnil|].
      apply list_elem_of_fmap in Hin as (w & -> & Hw). by exists w.
    - intros (w & Hw & ->). right. apply list_elem_of_fmap. by exists w. }
  split; [apply Hn; constructor|]. split; [done|]. split.
  - intros w. specialize (Hc (BPE_Tokenizer.word_symbols w)). simpl in Hc.
    assert (sum_list ((fun x => if decide (BPE_Tokenizer.word_symbols x
                                            = BPE_Tokenizer.word_symbols w) then 1 else 0)
                        <$> words) = Count.occurrences w words) as Es.
    { rewrite <- sum_list_indicator. f_equal. apply list_fmap_ext. intros _ x _.
      repeat case_decide; try done; [by exfalso; auto using word_symbols_inj|congruence]. }
    rewrite Es in Hc. case_decide as Hw.
    + destruct (od_get v (BPE_Tokenizer.word_symbols w)) as [n|] eqn:E; [by simpl in Hc; subst|].
      apply od_get_None in E. exfalso. apply E, Hkeys. by exists w.
    + apply od_get_None. rewrite Hkeys. intros (w' & Hw' & ->%word_symbols_inj). done.
  - rewrite Ht, sum_list_fmap_const. unfold Count.sum_values. simpl. lia.
Qed.

(** X4. The vocabulary that [train] of [BPE_Tokenizer] starts from has
    one key per distinct word of the normalized lines, the characters of
    the word followed by the marker, and its count is the number of
    occurrences of the word; the counts add up to the number of words. *)
Theorem bpe_vocab_counts_words (nfkc lower : list N -> list N) (corpus : list (list N)) :
  let words := concat ((fun line => split (BPE_Tokenizer.normalize nfkc lower line)) <$> corpus) in
  let bpe_vocab := BPE_Tokenizer._get_bpe_vocab_from_corpus nfkc lower corpus in
  NoDup bpe_vocab.*1
  /\ (forall key, key ∈ bpe_vocab.*1 <-> exists w, w ∈ words /\ key = BPE_Tokenizer.word_symbols w)
  /\ (forall w, od_get bpe_vocab (BPE_Tokenizer.word_symbols w)
                = if decide (w ∈ words) then Some (Count.occurrences w words) else None)
  /\ Count.sum_values bpe_vocab = length words.
Proof. apply bpe_vocab_spec. Qed.

Lemma get_pair_stats_fold (bpe_vocab : list (list (list N) * nat)) :
  _get_pair_stats bpe_vocab
  = foldl (fun d e => od_add d e.1 e.2) []
      (concat ((fun e => (fun p => (p, e.2)) <$> adjacent_pairs e.1) <$> bpe_vocab)).
Proof.
  unfold _get_pair_stats.
  rewrite <- (foldl_concat (fun d (e : list N * list N * nat) => od_add d e.1 e.2)
                (fun e : list (list N) * nat => (fun p => (p, e.2)) <$> adjacent_pairs e.1)).
  apply foldl_ext_in. intros acc [word freq] _. cbn [fst snd].
  by rewrite (foldl_fmap (fun d (e : list N * list N * nat) => od_add d e.1 e.2)).
Qed.

Lemma length_adjacent_pairs (word : list (list N)) :
  length (adjacent_pairs word) = length word - 1.
Proof.
  induction word as [|x [|y rest] IH]; [done..|].
  change (adjacent_pairs (x :: y :: rest)) with ((x, y) :: adjacent_pairs (y :: rest)).
  cbn [length] in *. lia.
Qed.

Lemma pair_stats_spec (bpe_vocab : list (list (list N) * nat)) (p : list N * list N) :
  let pair_counts := _get_pair_stats bpe_vocab in
  NoDup pair_counts.*1
  /\ (p ∈ pair_counts.*1 <-> exists word, word ∈ bpe_vocab.*1 /\ p ∈ adjacent_pairs word)
  /\ default 0 (od_get pair_counts p)
     = sum_list ((fun e => e.2 * Count.occurrences p (adjacent_pairs e.1)) <$> bpe_vocab)
  /\ Count.sum_values pair_counts = sum_list ((fun e => e.2 * (length e.1 - 1)) <$> bpe_vocab).
Proof.
  cbv zeta. rewrite get_pair_stats_fold.
  set (l := concat _).
  destruct (foldl_od_add (fun e : list N * list N * nat => e.1) (fun e => e.2) l [])
    as (Hn & Hk & Hc & Ht).
  cbv zeta in Hn, Hk, Hc, Ht. set (pc := foldl _ _ _) in *.
  split; [apply Hn; constructor|]. split; [|split].
  - rewrite Hk. split.
    + intros [Hnil|Hin]; [by apply elem_of_nil in Hnil|].
      apply list_elem_of_fmap in Hin as ([q n] & -> & Hq). unfold l in Hq.
      apply elem_of_concat in Hq as (l' & Hq & Hl').
      apply list_elem_of_fmap in Hl' as ([word freq] & -> & He).
      apply list_elem_of_fmap in Hq as (q' & [= -> ->] & Hq').
      exists word. split; [|done]. apply list_elem_of_fmap. by exists (word, freq).
    + intros (word & Hword & Hp). right.
      apply list_elem_of_fmap in Hword as ([word' freq] & -> & He).
      apply list_elem_of_fmap. exists (p, freq). split; [done|].
      apply elem_of_concat. exists ((fun q => (q, freq)) <$> adjacent_pairs word').
      split; [apply list_elem_of_fmap; by exists p|].
      apply list_elem_of_fmap. by exists (word', freq).
  - rewrite Hc. simpl. unfold l. rewrite sum_list_fmap_concat, <- list_fmap_compose.
    f_equal. apply list_fmap_ext. intros _ [word freq] _. cbn [compose fst snd].
    rewrite <- list_fmap_compose. by rewrite <- sum_list_scaled.
  - rewrite Ht. unfold Count.sum_values at 1. simpl. unfold l.
    rewrite sum_list_fmap_concat, <- list_fmap_compose.
    f_equal. apply list_fmap_ext. intros _ [word freq] _. cbn [compose fst snd].
    rewrite <- list_fmap_compose.
    rewrite (sum_list_fmap_same freq) by (by apply Forall_forall).
    rewrite length_adjacent_pairs. lia.
Qed.

(** X5. [_get_pair_stats] has one key per pair of neighbours found in a
    word of the vocabulary; its count adds the frequency of a word once
    for each place where the pair occurs in it, and all counts together
    are the sum of frequency times (length - 1). *)
Theorem pair_stats_counts (bpe_vocab : list (list (list N) * nat)) (p : list N * list N) :
  let pair_counts := _get_pair_stats bpe_vocab in
  NoDup pair_counts.*1
  /\ (p ∈ pair_counts.*1 <-> exists word, word ∈ bpe_vocab.*1 /\ p ∈ adjacent_pairs word)
  /\ default 0 (od_get pair_counts p)
     = sum_list ((fun e => e.2 * Count.occurrences p (adjacent_pairs e.1)) <$> bpe_vocab)
  /\ Count.sum_values pair_counts = sum_list ((fun e => e.2 * (length e.1 - 1)) <$> bpe_vocab).
Proof. apply pair_stats_spec. Qed.

Lemma merge_vocab_fold (p : list N * list N) (bpe_vocab : list (list (list N) * nat)) :
  _merge_vocab p bpe_vocab
  = foldl (fun d e => od_add d (merge_word p.1 p.2 e.1) e.2) [] bpe_vocab.
Proof. unfold _merge_vocab. apply foldl_ext_in. by intros acc [word freq] _. Qed.

Lemma merge_vocab_spec (p : list N * list N) (bpe_vocab : list (list (list N) * nat)) :
  let new_bpe_vocab := _merge_vocab p bpe_vocab in
  NoDup new_bpe_vocab.*1
  /\ (forall key, key ∈ new_bpe_vocab.*1
                  <-> exists word, word ∈ bpe_vocab.*1 /\ key = merge_word p.1 p.2 word)
  /\ (forall key, default 0 (od_get new_bpe_vocab key)
                  = Count.count_where (fun word => merge_word p.1 p.2 word = key) bpe_vocab)
  /\ Count.sum_values new_bpe_vocab = Count.sum_values bpe_vocab
  /\ (forall text, Count.count_where (fun word => concat word = text) new_bpe_vocab
                   = Count.count_where (fun word => concat word = text) bpe_vocab).
Proof.
  cbv zeta. rewrite merge_vocab_fold.
  destruct (foldl_od_add (fun e : list (list N) * nat => merge_word p.1 p.2 e.1)
              (fun e => e.2) bpe_vocab []) as (Hn & Hk & Hc & Ht).
  cbv zeta in Hn, Hk, Hc, Ht.
  split; [apply Hn; constructor|]. split; [|split; [|split]].
  - intros key. rewrite Hk. split.
    + intros [Hnil|Hin]; [by apply elem_of_nil in Hnil|].
      apply list_elem_of_fmap in Hin as ([word freq] & -> & He).
      exists word. split; [|done]. apply list_elem_of_fmap. by exists (word, freq).
    + intros (word & Hword & ->). right.
      apply list_elem_of_fmap in Hword as ([word' freq] & -> & He).
      apply list_elem_of_fmap. by exists (word', freq).
  - intros key. by rewrite Hc.
  - by rewrite Ht.
  - intros text. rewrite foldl_count_where. unfold Count.count_where at 1. simpl.
    unfold Count.count_where. f_equal. apply list_fmap_ext. intros _ [word freq] _.
    cbn [fst snd]. by rewrite ConcatFacts.merge_word_concat.
Qed.

(** X6. [_merge_vocab] puts every word under its merged form and adds the
    frequencies of the words that get the same form: no frequency is lost,
    and for every text the words that spell it keep their total
    frequency. The symbols of the pair being non-empty, the pair has no
    count left afterwards. *)
Theorem merge_vocab_counts (p : list N * list N) (bpe_vocab : list (list (list N) * nat)) :
  let new_bpe_vocab := _merge_vocab p bpe_vocab in
  NoDup new_bpe_vocab.*1
  /\ (forall key, key ∈ new_bpe_vocab.*1
                  <-> exists word, word ∈ bpe_vocab.*1 /\ key = merge_word p.1 p.2 word)
  /\ (forall key, default 0 (od_get new_bpe_vocab key)
                  = Count.count_where (fun word => merge_word p.1 p.2 word = key) bpe_vocab)
  /\ Count.sum_values new_bpe_vocab = Count.sum_values bpe_vocab
  /\ (forall text, Count.count_where (fun word => concat word = text) new_bpe_vocab
                   = Count.count_where (fun word => concat word = text) bpe_vocab)
  /\ (p.1 <> [] -> p.2 <> [] -> p ∉ (_get_pair_stats new_bpe_vocab).*1).
Proof.
  destruct (merge_vocab_spec p bpe_vocab) as (Hn & Hk & Hc & Ht & Hw).
  cbv zeta in *. split; [done|]. split; [done|]. split; [done|]. split; [done|].
  split; [done|]. intros H1 H2 Hp.
  apply (proj1 (proj2 (pair_stats_spec (_merge_vocab p bpe_vocab) p))) in Hp
    as (word & Hword & Hin).
  apply Hk in Hword as (word' & _ & ->). destruct p as [a b].
  by apply (MergePass.merge_word_pair_gone a b word').
Qed.

Lemma train_loop_counts (P : list (list N) -> Prop) `{forall k, Decision (P k)} (n : nat)
    (bpe_vocab : list (list (list N) * nat)) (merges : list (list N * list N)) :
  (forall a b word, P (merge_word a b word) <-> P word) ->
  Count.count_where P (train_loop n bpe_vocab merges).1 = Count.count_where P bpe_vocab
  /\ Count.sum_values (train_loop n bpe_vocab merges).1 = Count.sum_values bpe_vocab.
Proof.
  intros HP. revert bpe_vocab merges.
  induction n as [|n IH]; intros bpe_vocab merges; [done|].
  simpl. destruct (max_by_value (_get_pair_stats bpe_vocab)) as [[best count]|]; [|done].
  destruct (count <? 2); [done|].
  destruct (IH (_merge_vocab best bpe_vocab) (merges ++ [best])) as [-> ->].
  destruct (merge_vocab_spec best bpe_vocab) as (_ & _ & _ & Ht & _).
  split; [|done].
  rewrite merge_vocab_fold, foldl_count_where. unfold Count.count_where. simpl.
  f_equal. apply list_fmap_ext. intros _ [word freq] _. cbn [fst snd].
  repeat case_decide; try done; exfalso; by rewrite HP in *.
Qed.

Lemma count_where_ext {K : Type} (P Q : K -> Prop)
    `{forall k, Decision (P k)} `{forall k, Decision (Q k)} (d : list (K * nat)) :
  (forall k, k ∈ d.*1 -> P k <-> Q k) -> Count.count_where P d = Count.count_where Q d.
Proof.
  intros HPQ. unfold Count.count_where. f_equal. apply list_fmap_ext.
  intros i [k v] Hi. cbn [fst snd].
  assert (k ∈ d.*1) as Hk.
  { apply list_elem_of_fmap. exists (k, v). split; [done|]. by eapply list_elem_of_lookup_2. }
  specialize (HPQ k Hk). repeat case_decide; tauto.
Qed.

Lemma count_where_key {K : Type} `{EqDecision K} (d : list (K * nat)) (k : K) :
  NoDup d.*1 -> Count.count_where (fun k' => k' = k) d = default 0 (od_get d k).
Proof.
  unfold Count.count_where. induction d as [|[k0 v] d IH]; [done|].
  rewrite !fmap_cons, NoDup_cons, sum_list_cons. cbn [fst snd od_get].
  intros [Hk0 Hd]. rewrite IH by done.
  destruct (decide (k0 = k)) as [->|Hne]; [|done].
  apply od_get_None in Hk0. rewrite Hk0. simpl. lia.
Qed.

(** X7. [train] of [BPE_Tokenizer] neither loses nor invents a word:
    whatever the merges, the keys of the final [_bpe_vocab] that spell a
    word followed by the marker have, together, the number of occurrences
    of that word in the normalized corpus as their frequency, and all
    frequencies add up to the number of words. *)
Theorem train_keeps_word_counts (nfkc lower : list N -> list N)
    (self : BPE_Tokenizer.tokenizer) (corpus : list (list N)) (w : list N) :
  let words := concat ((fun line => split (BPE_Tokenizer.normalize nfkc lower line)) <$> corpus) in
  let t := BPE_Tokenizer.train nfkc lower self corpus in
  Count.count_where (fun word => concat word = w ++ BPE_Tokenizer.end_of_word) (_bpe_vocab t)
  = Count.occurrences w words
  /\ Count.sum_values (_bpe_vocab t) = length words.
Proof.
  cbv zeta.
  destruct (MapFacts.train_from_vocab_list BPE_Tokenizer.SPECIAL_TOKENS id self
              (BPE_Tokenizer._get_bpe_vocab_from_corpus nfkc lower corpus))
    as (vl & v' & ms' & _ & Hloop & _ & _ & Hv & _).
  unfold BPE_Tokenizer.train. rewrite Hv.
  replace v' with (train_loop (Z.to_nat (num_merges self))
                     (BPE_Tokenizer._get_bpe_vocab_from_corpus nfkc lower corpus)
                     (merges self)).1 by by rewrite Hloop.
  destruct (train_loop_counts (fun word => concat word = w ++ BPE_Tokenizer.end_of_word)
              (Z.to_nat (num_merges self))
              (BPE_Tokenizer._get_bpe_vocab_from_corpus nfkc lower corpus) (merges self))
    as [-> ->].
  { intros a b word. by rewrite ConcatFacts.merge_word_concat. }
  destruct (bpe_vocab_spec nfkc lower corpus) as (Hn & Hk & Hc & Ht).
  cbv zeta in Hn, Hk, Hc, Ht. split; [|done].
  rewrite (count_where_ext _ (fun word => word = BPE_Tokenizer.word_symbols w)).
  - rewrite count_where_key, Hc by done. case_decide as Hw; [done|]. simpl.
    destruct (Count.occurrences w _) eqn:E; [done|].
    exfalso. apply Hw, occurrences_pos. lia.
  - intros key (w' & Hw' & ->)%Hk. rewrite RoundTrip.concat_word_symbols.
    split; [intros ->%app_inv_tail; done|by intros ->%word_symbols_inj].
Qed.

(** *** The byte class *)

(** The code points that [str.encode("utf-8")] refuses: the surrogates
    (and, in the model, numbers above U+10FFFF). *)
Lemma utf8_encode_char_None (c : N) :
  utf8_encode_char c = None <-> (55296 <= c <= 57343)%N \/ (1114112 <= c)%N.
Proof.
  unfold utf8_encode_char.
  destruct (c <? 128)%N eqn:E1; [apply N.ltb_lt in E1; split; [done|lia]|].
  destruct (c <? 2048)%N eqn:E2; [apply N.ltb_lt in E2; split; [done|lia]|].
  apply N.ltb_ge in E1, E2.
  destruct (c <? 65536)%N eqn:E3.
  - apply N.ltb_lt in E3.
    destruct ((55296 <=? c) && (c <=? 57343))%N eqn:E4.
    + apply andb_true_iff in E4 as [?%N.leb_le ?%N.leb_le]. split; [left; lia|done].
    + split; [done|]. apply andb_false_iff in E4 as [?%N.leb_gt|?%N.leb_gt]; lia.
  - apply N.ltb_ge in E3.
    destruct (c <? 1114112)%N eqn:E4.
    + apply N.ltb_lt in E4. split; [done|lia].
    + apply N.ltb_ge in E4. split; [by right|done].
Qed.

Lemma utf8_encode_None (s : list N) :
  utf8_encode s = None
  <-> Exists (fun c => (55296 <= c <= 57343)%N \/ (1114112 <= c)%N) s.
Proof.
  induction s as [|c s IH]; simpl.
  - split; [done|]. by intros ?%Exists_nil.
  - rewrite Exists_cons, <- IH, <- utf8_encode_char_None.
    destruct (utf8_encode_char c) as [b|]; [|split; [by left|done]].
    destruct (utf8_encode s) as [bs|]; [|split; [by right|done]].
    split; [done|by intros [|]].
Qed.

Lemma byte_symbols_nil (b : list N) : ByteBPE_Tokenizer.byte_symbols b = [] <-> b = [].
Proof. by destruct b. Qed.

Lemma byte_symbols_inj (b b' : list N) :
  ByteBPE_Tokenizer.byte_symbols b = ByteBPE_Tokenizer.byte_symbols b' -> b = b'.
Proof.
  unfold ByteBPE_Tokenizer.byte_symbols.
  revert b'. induction b as [|c b IH]; intros [|c' b'] E; try done.
  rewrite !fmap_cons in E. injection E as -> E. f_equal. by apply IH.
Qed.

Lemma add_lines_fold (nfkc lower : list N -> list N) (corpus : list (list N))
    (d : list (list (list N) * nat)) :
  match ByteBPE_Tokenizer.add_lines nfkc lower d corpus with
  | Raise e =>
      e = UnicodeEncodeError
      /\ Exists (fun line => utf8_encode (ByteBPE_Tokenizer.normalize nfkc lower line) = None)
           corpus
  | Ok d' =>
      exists lines,
        Forall2 (fun line b => utf8_encode (ByteBPE_Tokenizer.normalize nfkc lower line) = Some b)
          corpus lines
        /\ d' = foldl (fun d b => od_add d (ByteBPE_Tokenizer.byte_symbols b) 1) d
                  (filter (fun b => b <> []) lines)
  end.
Proof.
  revert d. induction corpus as [|line corpus IH]; intros d; simpl.
  - exists []. by split; [constructor|].
  - unfold ByteBPE_Tokenizer.add_line.
    destruct (utf8_encode (ByteBPE_Tokenizer.normalize nfkc lower line)) as [b|] eqn:E;
      [|split; [done|by left]].
    assert (match ByteBPE_Tokenizer.byte_symbols b with
            | [] => Ok d
            | symbols => Ok (od_add d symbols 1)
            end
            = Ok (foldl (fun d b => od_add d (ByteBPE_Tokenizer.byte_symbols b) 1) d
                    (filter (fun b => b <> []) [b]))) as ->
      by (by destruct b).
    specialize (IH (foldl (fun d b => od_add d (ByteBPE_Tokenizer.byte_symbols b) 1) d
                      (filter (fun b => b <> []) [b]))).
    destruct (ByteBPE_Tokenizer.add_lines nfkc lower _ corpus) as [d'|e].
    + destruct IH as (lines & Hlines & ->). exists (b :: lines).
      split; [by constructor|].
      change (b :: lines) with ([b] ++ lines). by rewrite filter_app, foldl_app.
    + destruct IH as [-> IH]. split; [done|by right].
Qed.

Lemma byte_vocab_spec (nfkc lower : list N -> list N) (corpus : list (list N)) :
  match ByteBPE_Tokenizer._get_bpe_vocab_from_corpus nfkc lower corpus with
  | Raise e =>
      e = UnicodeEncodeError
      /\ Exists (fun line => Exists (fun c => (55296 <= c <= 57343)%N \/ (1114112 <= c)%N)
                               (ByteBPE_Tokenizer.normalize nfkc lower line)) corpus
  | Ok bpe_vocab =>
      exists lines,
        Forall2 (fun line b => utf8_encode (ByteBPE_Tokenizer.normalize nfkc lower line) = Some b)
          corpus lines
        /\ NoDup bpe_vocab.*1
        /\ (forall key, key ∈ bpe_vocab.*1
                        <-> exists b, b ∈ lines /\ b <> []
                                      /\ key = ByteBPE_Tokenizer.byte_symbols b)
        /\ (forall b, b <> [] ->
                      od_get bpe_vocab (ByteBPE_Tokenizer.byte_symbols b)
                      = if decide (b ∈ lines) then Some (Count.occurrences b lines) else None)
        /\ Count.sum_values bpe_vocab = length (filter (fun b => b <> []) lines)
  end.
Proof.
  unfold ByteBPE_Tokenizer._get_bpe_vocab_from_corpus.
  pose proof (add_lines_fold nfkc lower corpus []) as Hfold.
  destruct (ByteBPE_Tokenizer.add_lines nfkc lower [] corpus) as [v|e].
  - destruct Hfold as (lines & Hlines & ->). exists lines. split; [done|].
    set (ne := filter (fun b => b <> []) lines).
    destruct (foldl_od_add ByteBPE_Tokenizer.byte_symbols (fun _ => 1) ne [])
      as (Hn & Hk & Hc & Ht).
    cbv zeta in Hn, Hk, Hc, Ht. set (v := foldl _ _ _) in *.
    assert (forall b, b ∈ ne <-> b ∈ lines /\ b <> []) as Hne.
    { intros b. unfold ne. rewrite list_elem_of_filter. tauto. }
    assert (forall key, key ∈ v.*1 <-> exists b, b ∈ lines /\ b <> []
                                          /\ key = ByteBPE_Tokenizer.byte_symbols b) as Hkeys.
    { intros key. rewrite Hk. split.
      - intros [Hnil|Hin]; [by apply elem_of_nil in Hnil|].
        apply list_elem_of_fmap in Hin as (b & -> & Hb). apply Hne in Hb as [? ?]. by exists b.
      - intros (b & Hb & Hb' & ->). right. apply list_elem_of_fmap. exists b.
        split; [done|]. by apply Hne. }
    split; [apply Hn; constructor|]. split; [done|]. split.
    + intros b Hb. specialize (Hc (ByteBPE_Tokenizer.byte_symbols b)). simpl in Hc.
      assert (sum_list ((fun x => if decide (ByteBPE_Tokenizer.byte_symbols x
                                              = ByteBPE_Tokenizer.byte_symbols b) then 1 else 0)
                          <$> ne) = Count.occurrences b lines) as Es.
      { transitivity (Count.occurrences b ne).
        - rewrite <- sum_list_indicator. f_equal. apply list_fmap_ext. intros _ x _.
          repeat case_decide; try done; [by exfalso; auto using byte_symbols_inj|congruence].
        - unfold Count.occurrences, ne. rewrite list_filter_filter. f_equal.
          apply list_filter_iff. intros x. split; [tauto|]. intros ->. done. }
      rewrite Es in Hc. case_decide as Hw.
      * destruct (od_get v (ByteBPE_Tokenizer.byte_symbols b)) as [n|] eqn:E;
          [by simpl in Hc; subst|].
        apply od_get_None in E. exfalso. apply E, Hkeys. by exists b.
      * apply od_get_None. rewrite Hkeys. intros (b' & Hb' & _ & ->%byte_symbols_inj). done.
    + rewrite Ht, sum_list_fmap_const. unfold Count.sum_values. simpl. lia.
  - destruct Hfold as [-> Hex]. split; [done|].
    eapply Exists_impl; [done|]. intros line. by rewrite utf8_encode_None.
Qed.

(** X8. [_get_bpe_vocab_from_corpus] of [ByteBPE_Tokenizer] raises
    [UnicodeEncodeError] when the normalization of a line holds a
    surrogate code point, and nothing else; otherwise it has one key per
    distinct non-empty line, the single bytes of its UTF-8 form, counted
    as often as the line occurs. *)
Theorem byte_vocab_counts_lines (nfkc lower : list N -> list N) (corpus : list (list N)) :
  match ByteBPE_Tokenizer._get_bpe_vocab_from_corpus nfkc lower corpus with
  | Raise e =>
      e = UnicodeEncodeError
      /\ Exists (fun line => Exists (fun c => (55296 <= c <= 57343)%N \/ (1114112 <= c)%N)
                               (ByteBPE_Tokenizer.normalize nfkc lower line)) corpus
  | Ok bpe_vocab =>
      exists lines,
        Forall2 (fun line b => utf8_encode (ByteBPE_Tokenizer.normalize nfkc lower line) = Some b)
          corpus lines
        /\ NoDup bpe_vocab.*1
        /\ (forall key, key ∈ bpe_vocab.*1
                        <-> exists b, b ∈ lines /\ b <> []
                                      /\ key = ByteBPE_Tokenizer.byte_symbols b)
        /\ (forall b, b <> [] ->
                      od_get bpe_vocab (ByteBPE_Tokenizer.byte_symbols b)
                      = if decide (b ∈ lines) then Some (Count.occurrences b lines) else None)
        /\ Count.sum_values bpe_vocab = length (filter (fun b => b <> []) lines)
  end.
Proof. apply byte_vocab_spec. Qed.

End VocabFacts.

(** ** What [train] leaves in the instance *)

Module TrainedFacts.
Import Common CountFacts VocabFacts MergePass.

Lemma train_loop_invariant (I : list (list (list N) * nat) -> list (list N * list N) -> Prop)
    (n : nat) (bpe_vocab : list (list (list N) * nat)) (merges : list (list N * list N)) :
  (forall v ms best, I v ms -> I (_merge_vocab best v) (ms ++ [best])) ->
  I bpe_vocab merges ->
  I (train_loop n bpe_vocab merges).1 (train_loop n bpe_vocab merges).2.
Proof.
  intros Hstep. revert bpe_vocab merges.
  induction n as [|n IH]; intros bpe_vocab merges HI; [done|].
  simpl. destruct (max_by_value (_get_pair_stats bpe_vocab)) as [[best count]|]; [|done].
  destruct (count <? 2); [done|]. by apply IH, Hstep.
Qed.

Lemma collect_word (word : list (list N)) (acc : gset (list N)) (sym : list N) :
  sym ∈ foldl (fun set sym => {[sym]} ∪ set) acc word <-> sym ∈ acc \/ sym ∈ word.
Proof.
  revert acc. induction word as [|x word IH]; intros acc; simpl.
  - split; [by left|]. by intros [|?%elem_of_nil].
  - rewrite IH, elem_of_union, elem_of_singleton, elem_of_cons. tauto.
Qed.

Lemma collect_symbols_elem (bpe_vocab : list (list (list N) * nat)) (sym : list N) :
  sym ∈ collect_symbols bpe_vocab <-> exists word, word ∈ bpe_vocab.*1 /\ sym ∈ word.
Proof.
  unfold collect_symbols.
  assert (forall acc : gset (list N),
            sym ∈ foldl (fun symbol_set '(word, _) =>
                           foldl (fun set sym => {[sym]} ∪ set) symbol_set word)
                        acc bpe_vocab
            <-> sym ∈ acc \/ exists word, word ∈ bpe_vocab.*1 /\ sym ∈ word) as Hgen.
  { induction bpe_vocab as [|[word freq] v IH]; intros acc.
    - simpl. split; [by left|]. by intros [|(? & ?%elem_of_nil & _)].
    - cbn [foldl]. rewrite IH, collect_word, fmap_cons. cbn [fst]. split.
      + intros [[?|?]|(word' & ? & ?)]; [by left|right..].
        * exists word. split; [by left|done].
        * exists word'. split; [by right|done].
      + intros [?|(word' & [->|?]%elem_of_cons & ?)]; [by left; left|by left; right|].
        right. by exists word'. }
  rewrite Hgen. split; [|by right]. by intros [?%elem_of_empty|].
Qed.

(** The rank that the dictionary comprehension gives a pair: that of
    its last place in [merges]. *)
Lemma make_pair2rank_lookup (merges : list (list N * list N)) (rank : nat)
    (acc : gmap (list N * list N) nat) (p : list N * list N) (r : nat) :
  make_pair2rank rank merges acc !! p = Some r
  <-> (exists i, merges !! i = Some p /\ r = rank + i
                 /\ forall j, i < j -> merges !! j <> Some p)
      \/ ((p ∉ merges) /\ acc !! p = Some r).
Proof.
  revert rank acc. induction merges as [|m ms IH]; intros rank acc.
  - simpl. split; [right; split; [apply not_elem_of_nil|done]|].
    by intros [(i & ? & _)|[_ ?]].
  - cbn [make_pair2rank]. rewrite IH. split.
    + intros [(i & Hi & -> & Hlast)|[Hp Hacc]].
      * left. exists (S i). split; [done|]. split; [lia|].
        intros [|j] Hj; [lia|]. apply Hlast. lia.
      * destruct (decide (m = p)) as [->|Hne].
        -- rewrite lookup_insert_eq in Hacc. injection Hacc as <-.
           left. exists 0. split; [done|]. split; [lia|].
           intros [|j] Hj; [lia|]. simpl. intros Hj'. apply Hp.
           by eapply list_elem_of_lookup_2.
        -- rewrite lookup_insert_ne in Hacc by done. right. split; [|done].
           apply not_elem_of_cons. by split.
    + intros [([|i] & Hi & -> & Hlast)|[Hp Hacc]].
      * injection Hi as ->. right. split.
        -- intros (j & Hj)%list_elem_of_lookup_1. apply (Hlast (S j)); [lia|done].
        -- rewrite lookup_insert_eq. f_equal. lia.
      * left. exists i. split; [done|]. split; [lia|].
        intros j Hj. apply (Hlast (S j)). lia.
      * apply not_elem_of_cons in Hp as [Hne Hp]. right. split; [done|].
        by rewrite lookup_insert_ne.
Qed.

Section train_from.
Context {T : Type} `{Countable T}.
Context (special_tokens : list T) (of_symbol : list N -> T).
Context (self : tokenizer T) (bpe_vocab : list (list (list N) * nat)).

Lemma train_from_merges :
  let t := train_from special_tokens of_symbol self bpe_vocab in
  num_merges t = num_merges self
  /\ exists new,
       merges t = merges self ++ new
       /\ length new <= Z.to_nat (num_merges self)
       /\ (length new < Z.to_nat (num_merges self) -> starved (_bpe_vocab t)).
Proof.
  cbv zeta.
  destruct (MapFacts.train_from_vocab_list special_tokens of_symbol self bpe_vocab)
    as (vl & v' & ms' & _ & Hloop & _ & _ & -> & -> & _ & ->).
  split; [done|].
  destruct (TrainFacts.train_loop_merges (Z.to_nat (num_merges self)) bpe_vocab (merges self))
    as (new & Hnew & Hlen & Hstarved).
  rewrite Hloop in Hnew, Hstarved. by exists new.
Qed.

Lemma train_from_pair2rank (p : list N * list N) (r : nat) :
  let t := train_from special_tokens of_symbol self bpe_vocab in
  pair2rank t !! p = Some r
  <-> merges t !! r = Some p /\ forall r', r < r' -> merges t !! r' <> Some p.
Proof.
  cbv zeta.
  destruct (MapFacts.train_from_vocab_list special_tokens of_symbol self bpe_vocab)
    as (vl & v' & ms' & _ & _ & _ & _ & _ & -> & -> & _).
  rewrite make_pair2rank_lookup. split.
  - intros [(i & Hi & -> & Hlast)|[_ Hacc]]; [done|by rewrite lookup_empty in Hacc].
  - intros [Hr Hlast]. left. by exists r.
Qed.

Lemma train_from_token_to_id (tok : T) :
  let t := train_from special_tokens of_symbol self bpe_vocab in
  is_Some (token_to_id t !! tok)
  <-> tok ∈ special_tokens
      \/ exists word sym, word ∈ (_bpe_vocab t).*1 /\ sym ∈ word /\ tok = of_symbol sym.
Proof.
  cbv zeta.
  destruct (MapFacts.train_from_vocab_list special_tokens of_symbol self bpe_vocab)
    as (vl & v' & ms' & -> & _ & -> & _ & -> & _).
  split.
  - intros [Hin|Hin]%MapFacts.build_maps_token_inv;
      [|rewrite lookup_empty in Hin; by destruct Hin].
    apply elem_of_app in Hin as [?|Hin]; [by left|right].
    apply list_elem_of_fmap in Hin as (sym & -> & Hsym).
    rewrite SortFacts.sorted_Permutation, elem_of_elements, collect_symbols_elem in Hsym.
    destruct Hsym as (word & ? & ?). by exists word, sym.
  - intros Hin. apply MapFacts.build_maps_token. left. apply elem_of_app.
    destruct Hin as [?|(word & sym & Hword & Hsym & ->)]; [by left|right].
    apply list_elem_of_fmap. exists sym. split; [done|].
    rewrite SortFacts.sorted_Permutation, elem_of_elements, collect_symbols_elem.
    by exists word.
Qed.

Lemma train_from_ids (i : Z) :
  let t := train_from special_tokens of_symbol self bpe_vocab in
  (is_Some (id_to_token t !! i)
   <-> (0 <= i < Z.of_nat (length special_tokens + size (collect_symbols (_bpe_vocab t))))%Z)
  /\ (forall tok, id_to_token t !! i = Some tok -> is_Some (token_to_id t !! tok)).
Proof.
  cbv zeta.
  destruct (MapFacts.train_from_vocab_list special_tokens of_symbol self bpe_vocab)
    as (vl & v' & ms' & Hvl & _ & -> & -> & -> & _).
  destruct (BijectionFacts.build_maps_bijection vl) as [Hids _]. cbv zeta in Hids.
  assert (length vl = length special_tokens + size (collect_symbols v')) as Hlen.
  { rewrite Hvl, length_app, length_fmap, SortFacts.sorted_Permutation. done. }
  split.
  - rewrite <- Hlen. split.
    + intros [tok (k & -> & Hk)%Hids]. apply lookup_lt_Some in Hk. lia.
    + intros Hi. destruct (lookup_lt_is_Some_2 vl (Z.to_nat i)) as [tok Htok]; [lia|].
      exists tok. apply Hids. exists (Z.to_nat i). split; [lia|done].
  - intros tok (k & -> & Hk)%Hids. apply MapFacts.build_maps_token. left.
    by eapply list_elem_of_lookup_2.
Qed.

Lemma train_from_symbols (atom : list N -> Prop) :
  let t := train_from special_tokens of_symbol self bpe_vocab in
  (forall word sym, word ∈ bpe_vocab.*1 -> sym ∈ word -> atom sym) ->
  forall word sym, word ∈ (_bpe_vocab t).*1 -> sym ∈ word ->
    atom sym \/ exists a b, (a, b) ∈ merges t /\ sym = a ++ b.
Proof.
  cbv zeta. intros Hatom.
  destruct (MapFacts.train_from_vocab_list special_tokens of_symbol self bpe_vocab)
    as (vl & v' & ms' & _ & Hloop & _ & _ & -> & -> & _).
  pose proof (train_loop_invariant
    (fun v ms => forall word sym, word ∈ v.*1 -> sym ∈ word ->
       atom sym \/ exists a b, (a, b) ∈ ms /\ sym = a ++ b)
    (Z.to_nat (num_merges self)) bpe_vocab (merges self)) as Hinv.
  rewrite Hloop in Hinv. apply Hinv.
  - intros v ms [a b] HI word sym Hword Hsym.
    destruct (merge_vocab_spec (a, b) v) as (_ & Hk & _). cbv zeta in Hk.
    apply Hk in Hword as (word' & Hword' & ->).
    apply merge_word_elem in Hsym as [Hsym| ->].
    + destruct (HI word' sym Hword' Hsym) as [?|(a' & b' & ? & ->)]; [by left|right].
      exists a', b'. split; [|done]. apply elem_of_app. by left.
    + right. exists a, b. split; [|done]. apply elem_of_app. right. by left.
  - intros word sym Hword Hsym. left. by eapply Hatom.
Qed.

End train_from.

(** X9. [train] keeps the merges that the instance holds and appends at
    most [num_merges] pairs to them (none when [num_merges] is zero or
    negative), fewer only when no pair is left that occurs twice;
    [num_merges] itself is unchanged. [train] of [ByteBPE_Tokenizer]
    raises nothing but [UnicodeEncodeError]. *)
Theorem train_appends_merges (nfkc lower : list N -> list N)
    (self : BPE_Tokenizer.tokenizer) (bself : ByteBPE_Tokenizer.tokenizer)
    (corpus : list (list N)) :
  (let t := BPE_Tokenizer.train nfkc lower self corpus in
   num_merges t = num_merges self
   /\ exists new,
        merges t = merges self ++ new
        /\ length new <= Z.to_nat (num_merges self)
        /\ (length new < Z.to_nat (num_merges self) -> starved (_bpe_vocab t)))
  /\ match ByteBPE_Tokenizer.train nfkc lower bself corpus with
     | Ok t =>
         num_merges t = num_merges bself
         /\ exists new,
              merges t = merges bself ++ new
              /\ length new <= Z.to_nat (num_merges bself)
              /\ (length new < Z.to_nat (num_merges bself) -> starved (_bpe_vocab t))
     | Raise e => e = UnicodeEncodeError
     end.
Proof.
  split; [apply train_from_merges|].
  unfold ByteBPE_Tokenizer.train.
  pose proof (byte_vocab_spec nfkc lower corpus) as Hv.
  destruct (ByteBPE_Tokenizer._get_bpe_vocab_from_corpus nfkc lower corpus) as [v|e];
    [apply train_from_merges|by destruct Hv].
Qed.

(** X10. After [train], [pair2rank] gives a pair the rank [r] exactly
    when [r] is the last index at which [merges] lists the pair: a pair
    that is not in [merges] has no rank, and every rank is below
    [len(merges)]. *)
Theorem pair2rank_last_index (nfkc lower : list N -> list N)
    (self : BPE_Tokenizer.tokenizer) (bself : ByteBPE_Tokenizer.tokenizer)
    (corpus : list (list N)) (p : list N * list N) (r : nat) :
  (let t := BPE_Tokenizer.train nfkc lower self corpus in
   pair2rank t !! p = Some r
   <-> merges t !! r = Some p /\ forall r', r < r' -> merges t !! r' <> Some p)
  /\ match ByteBPE_Tokenizer.train nfkc lower bself corpus with
     | Ok t =>
         pair2rank t !! p = Some r
         <-> merges t !! r = Some p /\ forall r', r < r' -> merges t !! r' <> Some p
     | Raise e => e = UnicodeEncodeError
     end.
Proof.
  split; [apply train_from_pair2rank|].
  unfold ByteBPE_Tokenizer.train.
  pose proof (byte_vocab_spec nfkc lower corpus) as Hv.
  destruct (ByteBPE_Tokenizer._get_bpe_vocab_from_corpus nfkc lower corpus) as [v|e];
    [apply train_from_pair2rank|by destruct Hv].
Qed.

(** X11. After [train] of either class, [token_to_id] holds the special
    tokens and the symbols of the keys of the final [_bpe_vocab], and
    nothing else; the ids in use are 0 up to the number of special tokens
    plus the number of distinct symbols; every token with an id is a key
    of [token_to_id]; and every symbol is a single character (a single
    byte), the marker, or [a + b] for a pair [(a, b)] of [merges]. *)
Theorem trained_vocabulary (nfkc lower : list N -> list N)
    (self : BPE_Tokenizer.tokenizer) (bself : ByteBPE_Tokenizer.tokenizer)
    (corpus : list (list N)) :
  (let t := BPE_Tokenizer.train nfkc lower self corpus in
   (forall tok, is_Some (token_to_id t !! tok)
                <-> tok ∈ BPE_Tokenizer.SPECIAL_TOKENS
                    \/ exists word, word ∈ (_bpe_vocab t).*1 /\ tok ∈ word)
   /\ (forall i, is_Some (id_to_token t !! i)
                 <-> (0 <= i < 4 + Z.of_nat (size (collect_symbols (_bpe_vocab t))))%Z)
   /\ (forall i tok, id_to_token t !! i = Some tok -> is_Some (token_to_id t !! tok))
   /\ (forall word sym, word ∈ (_bpe_vocab t).*1 -> sym ∈ word ->
         (exists c, sym = [c]) \/ sym = BPE_Tokenizer.end_of_word
         \/ exists a b, (a, b) ∈ merges t /\ sym = a ++ b))
  /\ match ByteBPE_Tokenizer.train nfkc lower bself corpus with
     | Ok t =>
         (forall tok, is_Some (token_to_id t !! tok)
                      <-> tok ∈ ByteBPE_Tokenizer.SPECIAL_TOKENS
                          \/ exists word sym, word ∈ (_bpe_vocab t).*1 /\ sym ∈ word
                                              /\ tok = ByteBPE_Tokenizer.TBytes sym)
         /\ (forall i, is_Some (id_to_token t !! i)
                       <-> (0 <= i < 4 + Z.of_nat (size (collect_symbols (_bpe_vocab t))))%Z)
         /\ (forall i tok, id_to_token t !! i = Some tok -> is_Some (token_to_id t !! tok))
         /\ (forall word sym, word ∈ (_bpe_vocab t).*1 -> sym ∈ word ->
               (exists byte, sym = [byte])
               \/ exists a b, (a, b) ∈ merges t /\ sym = a ++ b)
     | Raise e => e = UnicodeEncodeError
     end.
Proof.
  split.
  - cbv zeta. unfold BPE_Tokenizer.train.
    set (v := BPE_Tokenizer._get_bpe_vocab_from_corpus nfkc lower corpus).
    split; [|split; [|split]].
    + intros tok. rewrite train_from_token_to_id. split.
      * intros [?|(word & sym & ? & ? & ->)]; [by left|right]. by exists word.
      * intros [?|(word & ? & ?)]; [by left|right]. by exists word, tok.
    + intros i. rewrite (proj1 (train_from_ids _ _ _ _ i)).
      change (length BPE_Tokenizer.SPECIAL_TOKENS) with 4. lia.
    + intros i. apply train_from_ids.
    + intros word sym Hword Hsym.
      destruct (train_from_symbols BPE_Tokenizer.SPECIAL_TOKENS id self v
                  (fun sym => (exists c, sym = [c]) \/ sym = BPE_Tokenizer.end_of_word))
        with (word := word) (sym := sym) as [[?|?]|?]; auto.
      intros word' sym' Hword' Hsym'.
      destruct (bpe_vocab_spec nfkc lower corpus) as (_ & Hk & _). cbv zeta in Hk.
      apply Hk in Hword' as (w & _ & ->). unfold BPE_Tokenizer.word_symbols in Hsym'.
      apply elem_of_app in Hsym' as [Hsym'|Hsym'].
      * apply list_elem_of_fmap in Hsym' as (c & -> & _). left. by exists c.
      * apply list_elem_of_singleton in Hsym'. by right.
  - unfold ByteBPE_Tokenizer.train.
    pose proof (byte_vocab_spec nfkc lower corpus) as Hv.
    destruct (ByteBPE_Tokenizer._get_bpe_vocab_from_corpus nfkc lower corpus) as [v|e];
      [|by destruct Hv].
    destruct Hv as (lines & _ & _ & Hk & _).
    split; [|split; [|split]].
    + intros tok. apply train_from_token_to_id.
    + intros i. rewrite (proj1 (train_from_ids _ _ _ _ i)).
      change (length ByteBPE_Tokenizer.SPECIAL_TOKENS) with 4. lia.
    + intros i. apply train_from_ids.
    + apply (train_from_symbols ByteBPE_Tokenizer.SPECIAL_TOKENS ByteBPE_Tokenizer.TBytes
               bself v (fun sym => exists byte, sym = [byte])).
      intros word' sym' Hword' Hsym'.
      apply Hk in Hword' as (b & _ & _ & ->). unfold ByteBPE_Tokenizer.byte_symbols in Hsym'.
      apply list_elem_of_fmap in Hsym' as (c & -> & _). by exists c.
Qed.

(** X12. [train] of [ByteBPE_Tokenizer], when it returns, neither loses
    nor invents a line: the keys of the final [_bpe_vocab] whose bytes
    spell a given non-empty line have, together, the number of occurrences
    of that line in the corpus as their frequency. *)
Theorem byte_train_keeps_line_counts (nfkc lower : list N -> list N)
    (bself : ByteBPE_Tokenizer.tokenizer) (corpus : list (list N)) :
  match ByteBPE_Tokenizer.train nfkc lower bself corpus with
  | Ok t =>
      exists lines,
        Forall2 (fun line b => utf8_encode (ByteBPE_Tokenizer.normalize nfkc lower line) = Some b)
          corpus lines
        /\ (forall b, b <> [] ->
               Count.count_where (fun word => concat word = b) (_bpe_vocab t)
               = Count.occurrences b lines)
        /\ Count.sum_values (_bpe_vocab t) = length (filter (fun b => b <> []) lines)
  | Raise e => e = UnicodeEncodeError
  end.
Proof.
  unfold ByteBPE_Tokenizer.train.
  pose proof (byte_vocab_spec nfkc lower corpus) as Hv.
  destruct (ByteBPE_Tokenizer._get_bpe_vocab_from_corpus nfkc lower corpus) as [v|e];
    [|by destruct Hv].
  destruct Hv as (lines & Hlines & Hn & Hk & Hc & Ht).
  exists lines. split; [done|].
  destruct (MapFacts.train_from_vocab_list ByteBPE_Tokenizer.SPECIAL_TOKENS
              ByteBPE_Tokenizer.TBytes bself v)
    as (vl & v' & ms' & _ & Hloop & _ & _ & -> & _).
  replace v' with (train_loop (Z.to_nat (num_merges bself)) v (merges bself)).1
    by by rewrite Hloop.
  split.
  - intros b Hb.
    destruct (train_loop_counts (fun word => concat word = b)
                (Z.to_nat (num_merges bself)) v (merges bself)) as [-> _].
    { intros a0 b0 word. by rewrite ConcatFacts.merge_word_concat. }
    rewrite (count_where_ext _ (fun word => word = ByteBPE_Tokenizer.byte_symbols b)).
    + rewrite count_where_key, Hc by done. case_decide as Hw; [done|]. simpl.
      destruct (Count.occurrences b lines) eqn:E; [done|].
      exfalso. apply Hw, occurrences_pos. lia.
    + intros key (b' & _ & _ & ->)%Hk. rewrite RoundTrip.concat_byte_symbols.
      split; [by intros ->|by intros ->%byte_symbols_inj].
  - destruct (train_loop_counts (fun word => concat word = [])
                (Z.to_nat (num_merges bself)) v (merges bself)) as [_ ->]; [|done].
    intros a0 b0 word. by rewrite ConcatFacts.merge_word_concat.
Qed.

End TrainedFacts.

(** ** The symbols that the segmentation loop returns *)

Module SegmentationFacts.
Import Common CountFacts VocabFacts MergePass.

Lemma adjacent_pairs_elem (a b : list N) (s : list (list N)) :
  (a, b) ∈ adjacent_pairs s -> a ∈ s /\ b ∈ s.
Proof.
  induction s as [|x [|y rest] IH]; [by intros ?%elem_of_nil..|].
  change (adjacent_pairs (x :: y :: rest)) with ((x, y) :: adjacent_pairs (y :: rest)).
  intros [[= -> ->]|Hin]%elem_of_cons.
  - split; [by left|right; by left].
  - destruct (IH Hin). split; by right.
Qed.

(** An invariant of the passes whose pair is ranked and occurs in the
    word is an invariant of the loop. *)
Lemma segment_invariant_ranked (P : list (list N) -> Prop)
    (tbl : gmap (list N * list N) nat) :
  (forall a b r s, tbl !! (a, b) = Some r -> (a, b) ∈ adjacent_pairs s ->
                   P s -> P (merge_word a b s)) ->
  forall s, P s -> P (segment tbl s).
Proof.
  intros Hmerge s Hs. unfold segment. case_decide; [done|].
  apply ConcatFacts.while_true_invariant; [|done].
  intros s1 s2. unfold segment_step.
  destruct (best_candidate tbl s1) as [[[r i] [a b]]|] eqn:E; [|done].
  apply SegmentFacts.best_candidate_spec in E as (Hin & Hr & _).
  intros [= <-]. by eapply Hmerge.
Qed.

Lemma segment_symbols (tbl : gmap (list N * list N) nat) (s : list (list N)) (sym : list N) :
  sym ∈ segment tbl s ->
  sym ∈ s \/ exists a b, is_Some (tbl !! (a, b)) /\ sym = a ++ b.
Proof.
  revert sym.
  apply (segment_invariant_ranked
           (fun s' => forall sym, sym ∈ s' ->
              sym ∈ s \/ exists a b, is_Some (tbl !! (a, b)) /\ sym = a ++ b)); [|by left].
  intros a b r s' Hr _ Hs' sym [Hsym| ->]%merge_word_elem; [by apply Hs'|].
  right. by exists a, b.
Qed.

Lemma segment_nonempty (tbl : gmap (list N * list N) nat) (s : list (list N)) :
  Forall (fun sym => sym <> []) s -> Forall (fun sym => sym <> []) (segment tbl s).
Proof.
  apply (segment_invariant_ranked (Forall (fun sym => sym <> []))).
  intros a b r s' _ [Ha _]%adjacent_pairs_elem Hs'.
  rewrite Forall_forall in *. intros sym [Hsym| ->]%merge_word_elem; [by apply Hs'|].
  specialize (Hs' a Ha). by destruct a.
Qed.

Lemma segment_length (tbl : gmap (list N * list N) nat) (s : list (list N)) :
  length (segment tbl s) <= length s.
Proof.
  apply (ConcatFacts.segment_invariant (fun s' => length s' <= length s)); [|done].
  intros a b s' Hs'. pose proof (SegmentFacts.merge_word_length_le a b s'). lia.
Qed.

(** X13. Whatever the state of the instance, [_encode_word] returns
    symbols that spell the word followed by the marker, the last of them
    ending with the marker; there are at most [len(word) + 1] of them,
    none is empty, and each is a character of the word, the marker, or
    [a + b] for a pair of [pair2rank]. [_encode_bytes] does the same for
    the bytes, without a marker. *)
Theorem segmentation_keeps_text (self : BPE_Tokenizer.tokenizer)
    (bself : ByteBPE_Tokenizer.tokenizer) (word byte_seq : list N) :
  (let symbols := BPE_Tokenizer._encode_word self word in
   concat symbols = word ++ BPE_Tokenizer.end_of_word
   /\ (exists init p, symbols = init ++ [p ++ BPE_Tokenizer.end_of_word])
   /\ length symbols <= length word + 1
   /\ Forall (fun sym => sym <> []) symbols
   /\ (forall sym, sym ∈ symbols ->
         (exists c, c ∈ word /\ sym = [c]) \/ sym = BPE_Tokenizer.end_of_word
         \/ exists a b, is_Some (pair2rank self !! (a, b)) /\ sym = a ++ b))
  /\ (let symbols := ByteBPE_Tokenizer._encode_bytes bself byte_seq in
      concat symbols = byte_seq
      /\ length symbols <= length byte_seq
      /\ Forall (fun sym => sym <> []) symbols
      /\ (forall sym, sym ∈ symbols ->
            (exists byte, byte ∈ byte_seq /\ sym = [byte])
            \/ exists a b, is_Some (pair2rank bself !! (a, b)) /\ sym = a ++ b)).
Proof.
  split; cbv zeta.
  - unfold BPE_Tokenizer._encode_word. split; [|split; [|split; [|split]]].
    + by rewrite ConcatFacts.segment_concat, RoundTrip.concat_word_symbols.
    + destruct (ConcatFacts.segment_last (pair2rank self) BPE_Tokenizer.end_of_word
                  (BPE_Tokenizer.word_symbols word) BPE_Tokenizer.end_of_word
                  (RoundTrip.last_word_symbols word)) as (z & Hz & [p ->]); [done|].
      apply last_Some in Hz as [init Hsyms]. by exists init, p.
    + etransitivity; [apply segment_length|].
      unfold BPE_Tokenizer.word_symbols. rewrite length_app, length_fmap. simpl. lia.
    + apply segment_nonempty. unfold BPE_Tokenizer.word_symbols.
      apply Forall_app. split; [|by repeat constructor].
      apply Forall_fmap, Forall_forall. by intros c _.
    + intros sym [Hsym|?]%segment_symbols; [|by right; right].
      unfold BPE_Tokenizer.word_symbols in Hsym.
      apply elem_of_app in Hsym as [Hsym|Hsym].
      * apply list_elem_of_fmap in Hsym as (c & -> & Hc). left. by exists c.
      * apply list_elem_of_singleton in Hsym. right. by left.
  - unfold ByteBPE_Tokenizer._encode_bytes. split; [|split; [|split]].
    + by rewrite ConcatFacts.segment_concat, RoundTrip.concat_byte_symbols.
    + etransitivity; [apply segment_length|].
      unfold ByteBPE_Tokenizer.byte_symbols. by rewrite length_fmap.
    + apply segment_nonempty. unfold ByteBPE_Tokenizer.byte_symbols.
      apply Forall_fmap, Forall_forall. by intros c _.
    + intros sym [Hsym|?]%segment_symbols; [|by right].
      unfold ByteBPE_Tokenizer.byte_symbols in Hsym.
      apply list_elem_of_fmap in Hsym as (c & -> & Hc). left. by exists c.
Qed.

End SegmentationFacts.

(** ** Texts without ['<'] in the character class *)

Module MarkerFacts.
Import Common CountFacts VocabFacts MergePass TrainedFacts SegmentationFacts.

Lemma merge_word_marked (a b : list N) (word : list (list N)) :
  marked word -> marked (merge_word a b word).
Proof.
  intros (init & p & -> & Hinit & Hp).
  remember (length init) as n eqn:Hn. revert init Hn Hinit.
  induction (lt_wf n) as [n _ IH]; intros init -> Hinit.
  destruct init as [|x [|y init]].
  - by exists [], p.
  - apply Forall_cons in Hinit as [[Hx Hx'] _].
    change ([x] ++ [p ++ BPE_Tokenizer.end_of_word]) with [x; p ++ BPE_Tokenizer.end_of_word].
    rewrite SegmentFacts.merge_word_cons_cons. case_decide as Hd.
    + destruct Hd as [<- <-]. exists [], (x ++ p). split; [by rewrite app_assoc|].
      split; [constructor|]. rewrite elem_of_app. tauto.
    + exists [x], p. split; [done|]. split; [by repeat constructor|done].
  - apply Forall_cons in Hinit as [[Hx Hx'] Hinit].
    change ((x :: y :: init) ++ [p ++ BPE_Tokenizer.end_of_word])
      with (x :: y :: (init ++ [p ++ BPE_Tokenizer.end_of_word])).
    rewrite SegmentFacts.merge_word_cons_cons. case_decide as Hd.
    + destruct Hd as [<- <-].
      apply Forall_cons in Hinit as [[Hy Hy'] Hinit].
      destruct (IH (length init) ltac:(simpl; lia) init eq_refl Hinit)
        as (init' & p' & -> & Hinit' & Hp').
      exists ((x ++ y) :: init'), p'. split; [done|]. split; [|done].
      constructor; [|done]. split; [by destruct x|]. rewrite elem_of_app. tauto.
    + destruct (IH (length (y :: init)) ltac:(simpl; lia) (y :: init) eq_refl Hinit)
        as (init' & p' & E & Hinit' & Hp').
      change ((y :: init) ++ [p ++ BPE_Tokenizer.end_of_word])
        with (y :: (init ++ [p ++ BPE_Tokenizer.end_of_word])) in E.
      rewrite E. exists (x :: init'), p'. split; [done|]. split; [|done].
      by constructor.
Qed.

Lemma word_symbols_marked (w : list N) :
  60%N ∉ w -> marked (BPE_Tokenizer.word_symbols w).
Proof.
  intros Hw. exists ((fun c => [c]) <$> w), []. split; [done|]. split; [|apply not_elem_of_nil].
  apply Forall_fmap, Forall_forall. intros c Hc. split; [done|].
  intros E%list_elem_of_singleton. by subst.
Qed.

Lemma special_has_lt (tok : list N) : tok ∈ BPE_Tokenizer.SPECIAL_TOKENS -> 60%N ∈ tok.
Proof.
  intros [-> | [-> | [-> | ->]]]%BPE_TokenizerFacts.special_tokens_elem; by left.
Qed.

Lemma marker_not_special (p : list N) :
  p ++ BPE_Tokenizer.end_of_word ∉ BPE_Tokenizer.SPECIAL_TOKENS.
Proof.
  intros Hin.
  assert (forall tok, tok ∈ BPE_Tokenizer.SPECIAL_TOKENS ->
                      endswith tok BPE_Tokenizer.end_of_word = false) as Hend.
  { intros tok [-> | [-> | [-> | ->]]]%BPE_TokenizerFacts.special_tokens_elem; done. }
  specialize (Hend _ Hin).
  assert (endswith (p ++ BPE_Tokenizer.end_of_word) BPE_Tokenizer.end_of_word = true) as E
    by (apply RoundTrip.endswith_suffix; by exists p).
  congruence.
Qed.

Lemma marked_symbols (word : list (list N)) :
  marked word ->
  Forall (fun sym => sym ∉ BPE_Tokenizer.SPECIAL_TOKENS) word
  /\ Forall (fun sym => endswith sym BPE_Tokenizer.end_of_word = false)
       (take (length word - 1) word).
Proof.
  intros (init & p & -> & Hinit & Hp). split.
  - apply Forall_app. split.
    + eapply Forall_impl; [done|]. intros sym [_ Hsym] Hs. by apply Hsym, special_has_lt.
    + constructor; [apply marker_not_special|constructor].
  - rewrite length_app. simpl. replace (length init + 1 - 1) with (length init) by lia.
    rewrite take_app_length. eapply Forall_impl; [done|].
    intros sym [_ Hsym]. destruct (endswith sym BPE_Tokenizer.end_of_word) eqn:E; [|done].
    apply RoundTrip.endswith_suffix in E as [k ->]. exfalso. apply Hsym.
    apply elem_of_app. right. by left.
Qed.

Lemma split_from_chars (s cur w : list N) (c : N) :
  w ∈ split_from cur s -> c ∈ w -> c ∈ cur \/ c ∈ s.
Proof.
  revert cur. induction s as [|d s IH]; intros cur; simpl.
  - destruct cur; [by intros ?%elem_of_nil|].
    intros ->%list_elem_of_singleton. by left.
  - destruct (is_space d).
    + destruct cur as [|c0 cur].
      * intros Hw Hc. destruct (IH [] Hw Hc) as [?%elem_of_nil|?]; [done|]. by do 2 right.
      * intros [->|Hw]%elem_of_cons Hc; [by left|].
        destruct (IH [] Hw Hc) as [?%elem_of_nil|?]; [done|]. by do 2 right.
    + intros Hw Hc. destruct (IH _ Hw Hc) as [Hin|?]; [|by do 2 right].
      apply elem_of_app in Hin as [?|Hin]; [by left|].
      apply list_elem_of_singleton in Hin as ->. right. by left.
Qed.

Lemma split_chars (s w : list N) (c : N) : w ∈ split s -> c ∈ w -> c ∈ s.
Proof.
  intros Hw Hc. by destruct (split_from_chars s [] w c Hw Hc) as [?%elem_of_nil|?].
Qed.

Lemma encode_word_marked (tok : BPE_Tokenizer.tokenizer) (w : list N) :
  60%N ∉ w -> marked (BPE_Tokenizer._encode_word tok w).
Proof.
  intros Hw. unfold BPE_Tokenizer._encode_word.
  apply (ConcatFacts.segment_invariant marked).
  - intros a b s. apply merge_word_marked.
  - by apply word_symbols_marked.
Qed.

(** X14. In the character class, for a text whose normalization holds
    no ['<'], [decode(encode(text))] is [normalize(text)] as soon as the
    symbols of its words are all in the vocabulary: such a text meets
    neither the marker nor a special token inside a word. *)
Theorem round_trip_without_lt (nfkc lower : list N -> list N)
    (self : BPE_Tokenizer.tokenizer) (corpus : list (list N)) (text : list N) :
  let t := BPE_Tokenizer.train nfkc lower self corpus in
  60%N ∉ BPE_Tokenizer.normalize nfkc lower text ->
  Forall (fun w => Forall (fun sym => is_Some (token_to_id t !! sym))
                     (BPE_Tokenizer._encode_word t w))
    (split (BPE_Tokenizer.normalize nfkc lower text)) ->
  exists ids,
    BPE_Tokenizer.encode nfkc lower t text = Ok ids
    /\ BPE_Tokenizer.decode t ids = Ok (BPE_Tokenizer.normalize nfkc lower text).
Proof.
  cbv zeta. intros Hlt Hknown.
  destruct (RoundTrip.character_round_trip nfkc lower self corpus text)
    as (ids & decoded & Henc & Hdec & -> & _).
  - rewrite Forall_forall in *. intros w Hw.
    destruct (marked_symbols (BPE_Tokenizer._encode_word
                                (BPE_Tokenizer.train nfkc lower self corpus) w)) as [Hs Hm].
    { apply encode_word_marked. intros Hc. apply Hlt. by eapply split_chars. }
    split; [|done]. specialize (Hknown w Hw). rewrite Forall_forall in *.
    intros sym Hsym. split; [by apply Hknown|by apply Hs].
  - exists ids. split; [done|]. rewrite Hdec. f_equal.
    by destruct (NormalizeShape.normalize_words nfkc lower text) as (_ & _ & _ & -> & _).
Qed.

Lemma round_trip_without_lt_witness :
  let corpus := [py "low"; py "lower"; py "lowest"; py "low low lower"] in
  let t := BPE_Tokenizer.train id id (BPE_Tokenizer.init 20) corpus in
  exists ids,
    BPE_Tokenizer.encode id id t (py " lower   low ") = Ok ids
    /\ BPE_Tokenizer.decode t ids = Ok (py "lower low").
Proof.
  intros corpus t.
  refine (round_trip_without_lt id id (BPE_Tokenizer.init 20) corpus (py " lower   low ") _ _).
  - compute_done.
  - unfold BPE_Tokenizer._encode_word. compute_done.
Defined.

Lemma train_marked (nfkc lower : list N -> list N) (self : BPE_Tokenizer.tokenizer)
    (corpus : list (list N)) :
  Forall (fun line => 60%N ∉ BPE_Tokenizer.normalize nfkc lower line) corpus ->
  forall word, word ∈ (_bpe_vocab (BPE_Tokenizer.train nfkc lower self corpus)).*1 ->
               marked word.
Proof.
  intros Hlt. unfold BPE_Tokenizer.train.
  set (v := BPE_Tokenizer._get_bpe_vocab_from_corpus nfkc lower corpus).
  destruct (MapFacts.train_from_vocab_list BPE_Tokenizer.SPECIAL_TOKENS id self v)
    as (vl & v' & ms' & _ & Hloop & _ & _ & -> & _).
  pose proof (train_loop_invariant (fun v _ => forall word, word ∈ v.*1 -> marked word)
                (Z.to_nat (num_merges self)) v (merges self)) as Hinv.
  rewrite Hloop in Hinv. apply Hinv.
  - intros v0 ms [a b] HI word Hword.
    destruct (merge_vocab_spec (a, b) v0) as (_ & Hk & _). cbv zeta in Hk.
    apply Hk in Hword as (word' & Hword' & ->). by apply merge_word_marked, HI.
  - intros word Hword.
    destruct (bpe_vocab_spec nfkc lower corpus) as (_ & Hk & _). cbv zeta in Hk.
    apply Hk in Hword as (w & Hw & ->). apply word_symbols_marked.
    apply elem_of_concat in Hw as (ws & Hw & Hws).
    apply list_elem_of_fmap in Hws as (line & -> & Hline).
    rewrite Forall_forall in Hlt. intros Hc. apply (Hlt line Hline). by eapply split_chars.
Qed.

(** X15. When no normalized line of the corpus holds a ['<'], [train] of
    [BPE_Tokenizer] leaves two maps that are inverse to each other: the
    special tokens have the ids 0 to 3 and the symbols follow in the
    order of [sorted], without repetition. *)
Theorem character_bijection_without_lt (nfkc lower : list N -> list N)
    (self : BPE_Tokenizer.tokenizer) (corpus : list (list N)) :
  let t := BPE_Tokenizer.train nfkc lower self corpus in
  Forall (fun line => 60%N ∉ BPE_Tokenizer.normalize nfkc lower line) corpus ->
  (forall tok i, token_to_id t !! tok = Some i <-> id_to_token t !! i = Some tok)
  /\ token_to_id t !! py "<pad>" = Some 0%Z
  /\ token_to_id t !! py "<unk>" = Some 1%Z
  /\ token_to_id t !! py "<bos>" = Some 2%Z
  /\ token_to_id t !! py "<eos>" = Some 3%Z
  /\ exists symbols,
       Sorted lex_le symbols /\ NoDup symbols
       /\ (forall sym, sym ∈ symbols <-> exists word, word ∈ (_bpe_vocab t).*1 /\ sym ∈ word)
       /\ (forall k sym, symbols !! k = Some sym <->
                         id_to_token t !! (4 + Z.of_nat k)%Z = Some sym).
Proof.
  cbv zeta. intros Hlt.
  destruct (BijectionFacts.character_train_bijection nfkc lower self corpus)
    as (symbols & Hsorted & Hnodup & Helem & Hbij & Hids).
  { intros sym (word & Hword & Hsym)%collect_symbols_elem.
    apply (train_marked nfkc lower self corpus Hlt), marked_symbols in Hword as [Hs _].
    rewrite Forall_forall in Hs. by apply Hs. }
  split; [done|].
  assert (forall k tok, BPE_Tokenizer.SPECIAL_TOKENS !! k = Some tok ->
            token_to_id (BPE_Tokenizer.train nfkc lower self corpus) !! tok
            = Some (Z.of_nat k)) as Hspecial.
  { intros k tok Hk. apply Hbij, Hids. exists k. split; [done|].
    by apply lookup_app_l_Some. }
  split; [exact (Hspecial 0 _ eq_refl)|]. split; [exact (Hspecial 1 _ eq_refl)|].
  split; [exact (Hspecial 2 _ eq_refl)|]. split; [exact (Hspecial 3 _ eq_refl)|].
  exists symbols. split; [done|]. split; [done|]. split.
  - intros sym. by rewrite Helem, collect_symbols_elem.
  - intros k sym. rewrite Hids. split.
    + intros Hk. exists (4 + k). split; [lia|].
      rewrite lookup_app_r by (simpl; lia).
      change (length BPE_Tokenizer.SPECIAL_TOKENS) with 4.
      by replace (4 + k - 4) with k by lia.
    + intros (k' & Hk' & Hl). assert (k' = 4 + k) as -> by lia.
      rewrite lookup_app_r in Hl by (simpl; lia).
      change (length BPE_Tokenizer.SPECIAL_TOKENS) with 4 in Hl.
      by replace (4 + k - 4) with k in Hl by lia.
Qed.

Lemma character_bijection_without_lt_witness :
  let t := BPE_Tokenizer.train id id (BPE_Tokenizer.init 20)
             [py "low"; py "lower"; py "lowest"; py "low low lower"] in
  token_to_id t !! py "<pad>" = Some 0%Z /\ token_to_id t !! py "<eos>" = Some 3%Z.
Proof.
  intros t.
  destruct (character_bijection_without_lt id id (BPE_Tokenizer.init 20)
              [py "low"; py "lower"; py "lowest"; py "low low lower"] ltac:(compute_done))
    as (_ & Hpad & _ & _ & Heos & _).
  exact (conj Hpad Heos).
Defined.

(** X16. [train] of [ByteBPE_Tokenizer], when it returns, always leaves
    two maps that are inverse to each other: the special tokens have the
    ids 0 to 3 and the [bytes] symbols follow in increasing byte order,
    without repetition. *)
Theorem byte_vocabulary_bijection (nfkc lower : list N -> list N)
    (bself : ByteBPE_Tokenizer.tokenizer) (corpus : list (list N)) :
  match ByteBPE_Tokenizer.train nfkc lower bself corpus with
  | Ok t =>
      (forall tok i, token_to_id t !! tok = Some i <-> id_to_token t !! i = Some tok)
      /\ token_to_id t !! ByteBPE_Tokenizer.TStr (py "<pad>") = Some 0%Z
      /\ token_to_id t !! ByteBPE_Tokenizer.TStr (py "<unk>") = Some 1%Z
      /\ token_to_id t !! ByteBPE_Tokenizer.TStr (py "<bos>") = Some 2%Z
      /\ token_to_id t !! ByteBPE_Tokenizer.TStr (py "<eos>") = Some 3%Z
      /\ exists symbols,
           Sorted lex_le symbols /\ NoDup symbols
           /\ (forall sym, sym ∈ symbols
                           <-> exists word, word ∈ (_bpe_vocab t).*1 /\ sym ∈ word)
           /\ (forall k sym, symbols !! k = Some sym <->
                             id_to_token t !! (4 + Z.of_nat k)%Z
                             = Some (ByteBPE_Tokenizer.TBytes sym))
  | Raise e => e = UnicodeEncodeError
  end.
Proof.
  destruct (ByteBPE_Tokenizer.train nfkc lower bself corpus) as [t|e] eqn:Et.
  - destruct (BijectionFacts.byte_train_bijection nfkc lower t)
      as (symbols & Hsorted & Hnodup & Helem & Hbij & Hids); [by exists bself, corpus|].
    split; [done|].
    assert (forall k tok, ByteBPE_Tokenizer.SPECIAL_TOKENS !! k = Some tok ->
              token_to_id t !! tok = Some (Z.of_nat k)) as Hspecial.
    { intros k tok Hk. apply Hbij, Hids. exists k. split; [done|].
      by apply lookup_app_l_Some. }
    split; [exact (Hspecial 0 _ eq_refl)|]. split; [exact (Hspecial 1 _ eq_refl)|].
    split; [exact (Hspecial 2 _ eq_refl)|]. split; [exact (Hspecial 3 _ eq_refl)|].
    exists symbols. split; [done|]. split; [done|]. split.
    + intros sym. by rewrite Helem, collect_symbols_elem.
    + intros k sym. rewrite Hids. split.
      * intros Hk. exists (4 + k). split; [lia|].
        rewrite lookup_app_r by (simpl; lia).
        change (length ByteBPE_Tokenizer.SPECIAL_TOKENS) with 4.
        replace (4 + k - 4) with k by lia. by rewrite list_lookup_fmap, Hk.
      * intros (k' & Hk' & Hl). assert (k' = 4 + k) as -> by lia.
        rewrite lookup_app_r in Hl by (simpl; lia).
        change (length ByteBPE_Tokenizer.SPECIAL_TOKENS) with 4 in Hl.
        replace (4 + k - 4) with k in Hl by lia.
        rewrite list_lookup_fmap in Hl.
        destruct (symbols !! k) as [sym'|]; [|done]. simpl in Hl. by injection Hl as ->.
  - unfold ByteBPE_Tokenizer.train in Et.
    pose proof (byte_vocab_spec nfkc lower corpus) as Hv.
    destruct (ByteBPE_Tokenizer._get_bpe_vocab_from_corpus nfkc lower corpus) as [v|e'];
      [done|]. injection Et as <-. by destruct Hv.
Qed.

End MarkerFacts.

(** ** [decode] after [encode], in general *)

Module DecodeEncode.
Import Common CountFacts VocabFacts MergePass TrainedFacts SegmentationFacts MarkerFacts.

(** *** Without merges *)

Lemma train_from_no_merges {T : Type} `{Countable T} (special_tokens : list T)
    (of_symbol : list N -> T) (n : Z) (bpe_vocab : list (list (list N) * nat)) :
  (n <= 0)%Z ->
  let t := train_from special_tokens of_symbol (Common.init n) bpe_vocab in
  merges t = [] /\ pair2rank t = ∅ /\ _bpe_vocab t = bpe_vocab.
Proof.
  intros Hn. cbv zeta.
  destruct (MapFacts.train_from_vocab_list special_tokens of_symbol (Common.init n) bpe_vocab)
    as (vl & v' & ms' & _ & Hloop & _ & _ & -> & -> & -> & _).
  cbn [num_merges merges Common.init] in Hloop.
  replace (Z.to_nat n) with 0 in Hloop by lia. by injection Hloop as <- <-.
Qed.

Lemma single_not_special (c : N) : [c] ∉ BPE_Tokenizer.SPECIAL_TOKENS.
Proof.
  by intros [E | [E | [E | E]]]%BPE_TokenizerFacts.special_tokens_elem.
Qed.

Lemma word_symbols_decodable (t : BPE_Tokenizer.tokenizer) (w : list N) :
  Forall (fun c => is_Some (token_to_id t !! [c])) w ->
  is_Some (token_to_id t !! BPE_Tokenizer.end_of_word) ->
  BPE_Tokenizer.decodable t (BPE_Tokenizer.word_symbols w).
Proof.
  intros Hw He. unfold BPE_Tokenizer.decodable, BPE_Tokenizer.word_symbols. split.
  - apply Forall_app. split.
    + apply Forall_fmap. eapply Forall_impl; [done|].
      intros c Hc. split; [done|apply single_not_special].
    + constructor; [|constructor]. split; [done|]. apply (marker_not_special []).
  - rewrite length_app. simpl.
    replace (length ((fun c => [c]) <$> w) + 1 - 1) with (length ((fun c : N => [c]) <$> w))
      by lia.
    rewrite take_app_length. apply Forall_fmap, Forall_forall. intros c _.
    apply bool_decide_eq_false. by intros [=].
Qed.

(** X17. With [num_merges <= 0] a new instance learns no merge: [train]
    leaves [merges] and [pair2rank] empty and the tokenizers work on
    single characters (single bytes). Then [decode(encode(text))] is
    [normalize(text)] for every text whose characters (bytes) are in the
    vocabulary, and so for every line of the corpus. *)
Theorem no_merges_round_trip (nfkc lower : list N -> list N) (n : Z)
    (corpus : list (list N)) :
  (n <= 0)%Z ->
  (let t := BPE_Tokenizer.train nfkc lower (BPE_Tokenizer.init n) corpus in
   merges t = [] /\ pair2rank t = ∅
   /\ (forall w, BPE_Tokenizer._encode_word t w = BPE_Tokenizer.word_symbols w)
   /\ (forall text,
         Forall (fun c => is_space c = true \/ is_Some (token_to_id t !! [c]))
           (BPE_Tokenizer.normalize nfkc lower text) ->
         exists ids, BPE_Tokenizer.encode nfkc lower t text = Ok ids
                     /\ BPE_Tokenizer.decode t ids = Ok (BPE_Tokenizer.normalize nfkc lower text))
   /\ (forall line, line ∈ corpus ->
         exists ids, BPE_Tokenizer.encode nfkc lower t line = Ok ids
                     /\ BPE_Tokenizer.decode t ids = Ok (BPE_Tokenizer.normalize nfkc lower line)))
  /\ match ByteBPE_Tokenizer.train nfkc lower (ByteBPE_Tokenizer.init n) corpus with
     | Ok t =>
         merges t = [] /\ pair2rank t = ∅
         /\ (forall b, ByteBPE_Tokenizer._encode_bytes t b = ByteBPE_Tokenizer.byte_symbols b)
         /\ (forall text words,
               utf8_encode (ByteBPE_Tokenizer.normalize nfkc lower text) = Some words ->
               Forall (fun byte => is_Some (token_to_id t !! ByteBPE_Tokenizer.TBytes [byte]))
                 words ->
               exists ids, ByteBPE_Tokenizer.encode nfkc lower t text = Ok ids
                           /\ ByteBPE_Tokenizer.decode t ids
                              = Ok (ByteBPE_Tokenizer.normalize nfkc lower text))
         /\ (forall line, line ∈ corpus ->
               exists ids, ByteBPE_Tokenizer.encode nfkc lower t line = Ok ids
                           /\ ByteBPE_Tokenizer.decode t ids
                              = Ok (ByteBPE_Tokenizer.normalize nfkc lower line))
     | Raise e => e = UnicodeEncodeError
     end.
Proof.
  intros Hn. split.
  - cbv zeta. unfold BPE_Tokenizer.train, BPE_Tokenizer.init.
    set (v := BPE_Tokenizer._get_bpe_vocab_from_corpus nfkc lower corpus).
    destruct (train_from_no_merges BPE_Tokenizer.SPECIAL_TOKENS id n v Hn)
      as (Hm & Hr & Hv). cbv zeta in Hm, Hr, Hv.
    set (t := train_from BPE_Tokenizer.SPECIAL_TOKENS id (Common.init n) v) in *.
    assert (forall w, BPE_Tokenizer._encode_word t w = BPE_Tokenizer.word_symbols w) as Hseg.
    { intros w. unfold BPE_Tokenizer._encode_word, segment. rewrite Hr. by case_decide. }
    assert (forall text,
              Forall (fun w => Forall (fun c => is_Some (token_to_id t !! [c])) w)
                (split (BPE_Tokenizer.normalize nfkc lower text)) ->
              exists ids, BPE_Tokenizer.encode nfkc lower t text = Ok ids
                          /\ BPE_Tokenizer.decode t ids
                             = Ok (BPE_Tokenizer.normalize nfkc lower text)) as Hcore.
    { intros text Hknown.
      destruct (RoundTrip.character_round_trip nfkc lower (BPE_Tokenizer.init n) corpus text)
        as (ids & decoded & Henc & Hdec & -> & _).
      - fold v. change (BPE_Tokenizer.train nfkc lower (BPE_Tokenizer.init n) corpus) with t.
        rewrite Forall_forall in *. intros w Hw. rewrite Hseg.
        apply word_symbols_decodable; [by apply Hknown|].
        pose proof (SplitFacts.split_words (BPE_Tokenizer.normalize nfkc lower text)) as Hws.
        rewrite Forall_forall in Hws. destruct (Hws w Hw) as [Hne _].
        destruct w as [|c w]; [done|].
        specialize (Hknown _ Hw). apply Forall_cons in Hknown as [Hc _].
        apply (train_from_token_to_id BPE_Tokenizer.SPECIAL_TOKENS id (Common.init n) v) in Hc
          as [Hc|(word & sym & Hword & Hsym & Heq)]; [by apply single_not_special in Hc|].
        apply (train_from_token_to_id BPE_Tokenizer.SPECIAL_TOKENS id (Common.init n) v).
        right. exists word, BPE_Tokenizer.end_of_word. split; [done|]. split; [|done].
        fold t in Hword. rewrite Hv in Hword.
        destruct (bpe_vocab_spec nfkc lower corpus) as (_ & Hk & _). cbv zeta in Hk.
        apply Hk in Hword as (w' & _ & ->). unfold BPE_Tokenizer.word_symbols.
        apply elem_of_app. right. by left.
      - change (BPE_Tokenizer.train nfkc lower (BPE_Tokenizer.init n) corpus) with t
          in Henc, Hdec.
        exists ids. split; [done|]. rewrite Hdec. f_equal.
        by destruct (NormalizeShape.normalize_words nfkc lower text)
          as (_ & _ & _ & -> & _). }
    split; [done|]. split; [done|]. split; [done|]. split.
    + intros text Hknown. apply Hcore.
      pose proof (SplitFacts.split_words (BPE_Tokenizer.normalize nfkc lower text)) as Hws.
      rewrite Forall_forall in *. intros w Hw. destruct (Hws w Hw) as [_ Hsp].
      rewrite Forall_forall in *. intros c Hc.
      destruct (Hknown c) as [Hs|?]; [by eapply split_chars| |done].
      by rewrite (Hsp c Hc) in Hs.
    + intros line Hline. apply Hcore.
      rewrite Forall_forall. intros w Hw. rewrite Forall_forall. intros c Hc.
      apply (train_from_token_to_id BPE_Tokenizer.SPECIAL_TOKENS id (Common.init n) v).
      right. exists (BPE_Tokenizer.word_symbols w), [c]. split; [|split; [|done]].
      * fold t. rewrite Hv.
        destruct (bpe_vocab_spec nfkc lower corpus) as (_ & Hk & _). cbv zeta in Hk.
        apply Hk. exists w. split; [|done]. apply elem_of_concat.
        exists (split (BPE_Tokenizer.normalize nfkc lower line)). split; [done|].
        apply list_elem_of_fmap. by exists line.
      * unfold BPE_Tokenizer.word_symbols. apply elem_of_app. left.
        apply list_elem_of_fmap. by exists c.
  - destruct (ByteBPE_Tokenizer.train nfkc lower (ByteBPE_Tokenizer.init n) corpus)
      as [t|e] eqn:Et.
    + assert (ByteBPE_Tokenizer.trained nfkc lower t) as Htrained
        by (by exists (ByteBPE_Tokenizer.init n), corpus).
      unfold ByteBPE_Tokenizer.train in Et.
      pose proof (byte_vocab_spec nfkc lower corpus) as Hv.
      destruct (ByteBPE_Tokenizer._get_bpe_vocab_from_corpus nfkc lower corpus) as [v|e'];
        [|done].
      injection Et as <-. destruct Hv as (lines & Hlines & _ & Hk & _).
      destruct (train_from_no_merges ByteBPE_Tokenizer.SPECIAL_TOKENS
                  ByteBPE_Tokenizer.TBytes n v Hn) as (Hm & Hr & Hv).
      cbv zeta in Hm, Hr, Hv. unfold ByteBPE_Tokenizer.init.
      set (t := train_from ByteBPE_Tokenizer.SPECIAL_TOKENS ByteBPE_Tokenizer.TBytes
                  (Common.init n) v) in *.
      assert (forall b, ByteBPE_Tokenizer._encode_bytes t b = ByteBPE_Tokenizer.byte_symbols b)
        as Hseg.
      { intros b. unfold ByteBPE_Tokenizer._encode_bytes, segment. rewrite Hr. by case_decide. }
      assert (forall text words,
               utf8_encode (ByteBPE_Tokenizer.normalize nfkc lower text) = Some words ->
               Forall (fun byte => is_Some (token_to_id t !! ByteBPE_Tokenizer.TBytes [byte]))
                 words ->
               exists ids, ByteBPE_Tokenizer.encode nfkc lower t text = Ok ids
                           /\ ByteBPE_Tokenizer.decode t ids
                              = Ok (ByteBPE_Tokenizer.normalize nfkc lower text)) as Hcore.
      { intros text words Hwords Hknown.
        apply (RoundTrip.byte_round_trip nfkc lower t Htrained text words Hwords).
        rewrite Hseg. unfold ByteBPE_Tokenizer.byte_symbols. by apply Forall_fmap. }
      split; [done|]. split; [done|]. split; [done|]. split; [done|].
      intros line Hline.
      apply list_elem_of_lookup_1 in Hline as [k Hline].
      destruct (Forall2_lookup_l _ _ _ _ _ Hlines Hline) as (b & Hb & Hutf).
      apply (Hcore line b Hutf). rewrite Forall_forall. intros byte Hbyte.
      apply (train_from_token_to_id ByteBPE_Tokenizer.SPECIAL_TOKENS
               ByteBPE_Tokenizer.TBytes (Common.init n) v).
      right. exists (ByteBPE_Tokenizer.byte_symbols b), [byte]. split; [|split; [|done]].
      * fold t. rewrite Hv. apply Hk. exists b. split; [by eapply list_elem_of_lookup_2|].
        split; [|done]. intros ->. by apply elem_of_nil in Hbyte.
      * unfold ByteBPE_Tokenizer.byte_symbols. apply list_elem_of_fmap. by exists byte.
    + unfold ByteBPE_Tokenizer.train in Et.
      pose proof (byte_vocab_spec nfkc lower corpus) as Hv.
      destruct (ByteBPE_Tokenizer._get_bpe_vocab_from_corpus nfkc lower corpus) as [v|e'];
        [done|]. injection Et as <-. by destruct Hv.
Qed.

Lemma no_merges_round_trip_witness :
  let t := BPE_Tokenizer.train id id (BPE_Tokenizer.init 0) [py "hello, <world>"] in
  merges t = [] /\ pair2rank t = ∅
  /\ exists ids, BPE_Tokenizer.encode id id t (py "hello, <world>") = Ok ids
                 /\ BPE_Tokenizer.decode t ids = Ok (py "hello, <world>").
Proof.
  intros t.
  destruct (proj1 (no_merges_round_trip id id 0 [py "hello, <world>"] ltac:(done)))
    as (Hm & Hr & _ & _ & Hline).
  split; [exact Hm|]. split; [exact Hr|].
  apply (Hline (py "hello, <world>")). by left.
Defined.

(** *** With unknown symbols *)


Section characters.
Import BPE_Tokenizer BPE_TokenizerFacts.
Context (nfkc lower : list N -> list N) (self : tokenizer) (corpus : list (list N)).



End characters.

Section bytes.
Import ByteBPE_Tokenizer ByteBPE_TokenizerFacts.
Context (nfkc lower : list N -> list N) (t : tokenizer).
Hypothesis t_trained : trained nfkc lower t.



End bytes.


End DecodeEncode.

(** ** The loop of [decode] and the ids it leaves out *)

Module DecodeFacts.
Import Common.

Lemma decode_step_words (words : list (list N)) (cur : list N) (tokens : list (list N)) :
  foldl BPE_Tokenizer.decode_step (words, cur) tokens
  = (words ++ (foldl BPE_Tokenizer.decode_step ([], cur) tokens).1,
     (foldl BPE_Tokenizer.decode_step ([], cur) tokens).2).
Proof.
  revert words cur. induction tokens as [|tok tokens IH]; intros words cur.
  - simpl. by rewrite app_nil_r.
  - cbn [foldl].
    assert (BPE_Tokenizer.decode_step (words, cur) tok
            = (words ++ (BPE_Tokenizer.decode_step ([], cur) tok).1,
               (BPE_Tokenizer.decode_step ([], cur) tok).2)) as ->.
    { unfold BPE_Tokenizer.decode_step.
      destruct (endswith tok BPE_Tokenizer.end_of_word); [done|]. simpl.
      by rewrite app_nil_r. }
    destruct (BPE_Tokenizer.decode_step ([], cur) tok) as [w1 c1]. cbn [fst snd].
    rewrite IH, (IH w1). cbn [fst snd]. by rewrite app_assoc.
Qed.

(** X19. The loop of [decode] of [BPE_Tokenizer] closes a word at every
    token that ends with the marker and drops the marker; the tokens read
    since the last closed word are concatenated, and what is left open at
    the end is one more word unless it is empty. *)
Theorem decode_groups_words (init : list (list N)) (p : list N) (rest : list (list N)) :
  Forall (fun tok => endswith tok BPE_Tokenizer.end_of_word = false) init ->
  BPE_Tokenizer.words_of_tokens (init ++ [p ++ BPE_Tokenizer.end_of_word] ++ rest)
  = (concat init ++ p) :: BPE_Tokenizer.words_of_tokens rest
  /\ BPE_Tokenizer.words_of_tokens init
     = match concat init with [] => [] | w => [w] end.
Proof.
  intros Hinit. unfold BPE_Tokenizer.words_of_tokens. split.
  - rewrite app_assoc, foldl_app, RoundTrip.decode_word by done.
    rewrite decode_step_words. cbn [app].
    by destruct (foldl BPE_Tokenizer.decode_step ([], []) rest) as [words cur], cur.
  - assert (forall cur, foldl BPE_Tokenizer.decode_step ([], cur) init
                        = ([], cur ++ concat init)) as Hgen.
    { induction Hinit as [|tok init Htok _ IH]; intros cur.
      - simpl. by rewrite app_nil_r.
      - cbn [foldl concat]. unfold BPE_Tokenizer.decode_step at 2. rewrite Htok, IH.
        by rewrite app_assoc. }
    rewrite Hgen. cbn [app]. by destruct (concat init).
Qed.

Lemma decode_groups_words_witness :
  BPE_Tokenizer.words_of_tokens [py "lo"; py "w</w>"; py "e"; py "r"]
  = py "low" :: BPE_Tokenizer.words_of_tokens [py "e"; py "r"]
  /\ BPE_Tokenizer.words_of_tokens [py "lo"] = [py "lo"].
Proof.
  exact (decode_groups_words [py "lo"] (py "w") [py "e"; py "r"] ltac:(compute_done)).
Defined.

(** X20. [decode] leaves out every id that [id_to_token] lacks or maps to
    a special token, wherever it stands: the ids of ["<pad>"], ["<bos>"],
    ["<eos>"] and ["<unk>"] and the ids out of range do not change the
    decoded text. *)
Theorem decode_skips_ids (self : BPE_Tokenizer.tokenizer)
    (bself : ByteBPE_Tokenizer.tokenizer) (ids1 ids2 : list Z) (i : Z) :
  (default (py "<unk>") (id_to_token self !! i) ∈ BPE_Tokenizer.SPECIAL_TOKENS ->
   BPE_Tokenizer.decode self (ids1 ++ i :: ids2) = BPE_Tokenizer.decode self (ids1 ++ ids2))
  /\ (default (ByteBPE_Tokenizer.TStr (py "<unk>")) (id_to_token bself !! i)
        ∈ ByteBPE_Tokenizer.SPECIAL_TOKENS ->
      ByteBPE_Tokenizer.decode bself (ids1 ++ i :: ids2)
      = ByteBPE_Tokenizer.decode bself (ids1 ++ ids2)).
Proof.
  split; intros Hi.
  - unfold BPE_Tokenizer.decode. case_decide; [done|].
    rewrite !fmap_app, fmap_cons, !filter_app, filter_cons.
    by case_decide.
  - unfold ByteBPE_Tokenizer.decode. case_decide; [done|].
    rewrite !fmap_app, fmap_cons, !filter_app, filter_cons.
    by case_decide.
Qed.

Lemma decode_skips_ids_witness :
  let t := BPE_Tokenizer.train id id (BPE_Tokenizer.init 20)
             [py "low"; py "lower"; py "lowest"; py "low low lower"] in
  BPE_Tokenizer.decode t ([2; 4] ++ 0 :: [3])%Z = BPE_Tokenizer.decode t ([2; 4] ++ [3])%Z
  /\ BPE_Tokenizer.decode t ([2; 4] ++ 99 :: [3])%Z = BPE_Tokenizer.decode t ([2; 4] ++ [3])%Z.
Proof.
  intros t. split.
  - exact (proj1 (decode_skips_ids t (ByteBPE_Tokenizer.init 0) [2; 4]%Z [3]%Z 0%Z)
             ltac:(compute_done)).
  - exact (proj1 (decode_skips_ids t (ByteBPE_Tokenizer.init 0) [2; 4]%Z [3]%Z 99%Z)
             ltac:(compute_done)).
Defined.

(** X21. Two texts whose lowered NFKC forms have the same words, that is,
    differ in white space only, have the same normalization and get the
    same result from [encode], in both classes and whatever the state of
    the instance. *)
Theorem encode_ignores_white_space (nfkc lower : list N -> list N)
    (self : BPE_Tokenizer.tokenizer) (bself : ByteBPE_Tokenizer.tokenizer)
    (text text' : list N) :
  split (lower (nfkc text)) = split (lower (nfkc text')) ->
  BPE_Tokenizer.normalize nfkc lower text = BPE_Tokenizer.normalize nfkc lower text'
  /\ BPE_Tokenizer.encode nfkc lower self text = BPE_Tokenizer.encode nfkc lower self text'
  /\ ByteBPE_Tokenizer.encode nfkc lower bself text
     = ByteBPE_Tokenizer.encode nfkc lower bself text'.
Proof.
  intros Hsplit.
  assert (BPE_Tokenizer.normalize nfkc lower text = BPE_Tokenizer.normalize nfkc lower text')
    as Hnorm.
  { destruct (NormalizeShape.normalize_words nfkc lower text) as (_ & -> & _).
    destruct (NormalizeShape.normalize_words nfkc lower text') as (_ & -> & _).
    by rewrite Hsplit. }
  split; [done|]. split.
  - unfold BPE_Tokenizer.encode. by rewrite Hnorm.
  - unfold ByteBPE_Tokenizer.encode.
    change (ByteBPE_Tokenizer.normalize nfkc lower ?x)
      with (BPE_Tokenizer.normalize nfkc lower x).
    by rewrite Hnorm.
Qed.

Lemma encode_ignores_white_space_witness :
  let t := BPE_Tokenizer.train id id (BPE_Tokenizer.init 20)
             [py "low"; py "lower"; py "lowest"; py "low low lower"] in
  BPE_Tokenizer.encode id id t (py "  low   lower ") = BPE_Tokenizer.encode id id t (py "low lower").
Proof.
  intros t.
  exact (proj1 (proj2 (encode_ignores_white_space id id t (ByteBPE_Tokenizer.init 0)
                         (py "  low   lower ") (py "low lower") eq_refl))).
Defined.

End DecodeFacts.

(** ** [build_vocab] of [WordTokenizer] and [Character_Tokenizer] *)

Module VocabularyFacts.
Import Vocabulary.

Lemma add_tokens_spec (tokens : list (list N)) (vocab_tokens : list (list N))
    (seen : gset (list N)) :
  (forall x, x ∈ seen <-> x ∈ vocab_tokens) -> NoDup vocab_tokens ->
  let r := foldl add_token (vocab_tokens, seen) tokens in
  (forall x, x ∈ r.2 <-> x ∈ r.1) /\ NoDup r.1
  /\ (exists new, r.1 = vocab_tokens ++ new)
  /\ (forall x, x ∈ r.1 <-> x ∈ vocab_tokens \/ x ∈ tokens).
Proof.
  revert vocab_tokens seen. induction tokens as [|tok tokens IH]; intros vt seen Hseen Hnd.
  - cbv zeta. simpl. split; [done|]. split; [done|]. split; [exists []; by rewrite app_nil_r|].
    intros x. split; [by left|]. by intros [|?%elem_of_nil].
  - cbv zeta. cbn [foldl].
    change (add_token (vt, seen) tok)
      with (if decide (tok ∈ seen) then (vt, seen) else (vt ++ [tok], {[tok]} ∪ seen)).
    destruct (decide (tok ∈ seen)) as [Hin|Hin].
    + destruct (IH vt seen Hseen Hnd) as (H1 & H2 & H3 & H4). cbv zeta in H1, H2, H3, H4.
      split; [done|]. split; [done|]. split; [done|].
      intros x. rewrite H4, elem_of_cons. split; [tauto|].
      intros [?|[->|?]]; [by left| |by right]. left. by apply Hseen.
    + destruct (IH (vt ++ [tok]) ({[tok]} ∪ seen)) as (H1 & H2 & (new & H3) & H4).
      { intros x. rewrite elem_of_union, elem_of_singleton, elem_of_app,
          list_elem_of_singleton, Hseen. tauto. }
      { apply NoDup_app. split; [done|]. split; [|apply NoDup_singleton].
        intros x Hx ->%list_elem_of_singleton. by apply Hin, Hseen. }
      cbv zeta in H1, H2, H3, H4.
      split; [done|]. split; [done|]. split.
      * exists (tok :: new). by rewrite H3, <- app_assoc.
      * intros x. rewrite H4, elem_of_app, list_elem_of_singleton, elem_of_cons. tauto.
Qed.

Lemma collect_spec (tokens_of : list N -> list (list N)) (corpus : list (list N))
    (vocab_tokens : list (list N)) (seen : gset (list N)) :
  (forall x, x ∈ seen <-> x ∈ vocab_tokens) -> NoDup vocab_tokens ->
  let r := foldl (fun acc text => foldl add_token acc (tokens_of text))
                 (vocab_tokens, seen) corpus in
  (forall x, x ∈ r.2 <-> x ∈ r.1) /\ NoDup r.1
  /\ (exists new, r.1 = vocab_tokens ++ new)
  /\ (forall x, x ∈ r.1 <-> x ∈ vocab_tokens \/ exists text, text ∈ corpus /\ x ∈ tokens_of text).
Proof.
  revert vocab_tokens seen. induction corpus as [|text corpus IH]; intros vt seen Hseen Hnd.
  - cbv zeta. simpl. split; [done|]. split; [done|]. split; [exists []; by rewrite app_nil_r|].
    intros x. split; [by left|]. by intros [|(? & ?%elem_of_nil & _)].
  - cbv zeta. cbn [foldl].
    destruct (add_tokens_spec (tokens_of text) vt seen Hseen Hnd) as (H1 & H2 & (new & H3) & H4).
    cbv zeta in H1, H2, H3, H4.
    destruct (foldl add_token (vt, seen) (tokens_of text)) as [vt' seen'].
    cbn [fst snd] in *.
    destruct (IH vt' seen' H1 H2) as (I1 & I2 & (new' & I3) & I4).
    cbv zeta in I1, I2, I3, I4.
    split; [done|]. split; [done|]. split.
    + exists (new ++ new'). by rewrite I3, H3, <- app_assoc.
    + intros x. rewrite I4, H4. split.
      * intros [[?|?]|(text' & ? & ?)]; [by left|right..].
        -- exists text. split; [by left|done].
        -- exists text'. split; [by right|done].
      * intros [?|(text' & [->|?]%elem_of_cons & ?)]; [by left; left|by left; right|].
        right. by exists text'.
Qed.

Lemma special_seen (x : list N) :
  x ∈ (list_to_set SPECIAL_TOKENS : gset (list N)) <-> x ∈ SPECIAL_TOKENS.
Proof. apply elem_of_list_to_set. Qed.

Lemma special_NoDup : NoDup SPECIAL_TOKENS.
Proof. compute_done. Qed.

Section build_vocab.
Context (tokens_of : list N -> list (list N)) (self : tokenizer).

Lemma collect_tokens_spec (corpus : list (list N)) :
  NoDup (collect_tokens tokens_of corpus)
  /\ (exists new, collect_tokens tokens_of corpus = SPECIAL_TOKENS ++ new)
  /\ (forall x, x ∈ collect_tokens tokens_of corpus
                <-> x ∈ SPECIAL_TOKENS \/ exists text, text ∈ corpus /\ x ∈ tokens_of text).
Proof.
  unfold collect_tokens.
  by destruct (collect_spec tokens_of corpus SPECIAL_TOKENS (list_to_set SPECIAL_TOKENS)
                 special_seen special_NoDup) as (_ & ? & ? & ?).
Qed.

Lemma collect_tokens_app (corpus corpus' : list (list N)) :
  exists more, collect_tokens tokens_of (corpus ++ corpus')
               = collect_tokens tokens_of corpus ++ more.
Proof.
  unfold collect_tokens. rewrite foldl_app.
  destruct (collect_spec tokens_of corpus SPECIAL_TOKENS (list_to_set SPECIAL_TOKENS)
              special_seen special_NoDup) as (H1 & H2 & _).
  cbv zeta in H1, H2.
  destruct (foldl _ (SPECIAL_TOKENS, list_to_set SPECIAL_TOKENS) corpus) as [vt seen].
  by destruct (collect_spec tokens_of corpus' vt seen H1 H2) as (_ & _ & ? & _).
Qed.

Lemma build_vocab_maps (corpus : list (list N)) :
  token_to_id (build_vocab tokens_of self corpus)
  = (Common.build_maps 0 (collect_tokens tokens_of corpus) ∅ ∅).1
  /\ id_to_token (build_vocab tokens_of self corpus)
     = (Common.build_maps 0 (collect_tokens tokens_of corpus) ∅ ∅).2.
Proof. unfold build_vocab. by destruct (Common.build_maps _ _ _ _). Qed.

Lemma build_vocab_spec (corpus : list (list N)) :
  let t := build_vocab tokens_of self corpus in
  (forall tok i, token_to_id t !! tok = Some i <-> id_to_token t !! i = Some tok)
  /\ (forall i tok, id_to_token t !! i = Some tok
                    <-> exists k, i = Z.of_nat k /\ collect_tokens tokens_of corpus !! k = Some tok)
  /\ (forall tok, is_Some (token_to_id t !! tok)
                  <-> tok ∈ SPECIAL_TOKENS
                      \/ exists text, text ∈ corpus /\ tok ∈ tokens_of text).
Proof.
  cbv zeta. destruct (build_vocab_maps corpus) as [-> ->].
  destruct (collect_tokens_spec corpus) as (Hnd & _ & Helem).
  destruct (BijectionFacts.build_maps_bijection (collect_tokens tokens_of corpus))
    as [Hids Hbij]. cbv zeta in Hids, Hbij. specialize (Hbij Hnd).
  split; [done|]. split; [done|].
  intros tok. rewrite <- Helem. split.
  - intros [i (k & _ & Hk)%Hbij%Hids]. by eapply list_elem_of_lookup_2.
  - intros [k Hk]%list_elem_of_lookup_1. exists (Z.of_nat k). apply Hbij, Hids. by exists k.
Qed.

Lemma build_vocab_special (corpus : list (list N)) (k : nat) (tok : list N) :
  SPECIAL_TOKENS !! k = Some tok ->
  token_to_id (build_vocab tokens_of self corpus) !! tok = Some (Z.of_nat k).
Proof.
  intros Hk. destruct (build_vocab_spec corpus) as (Hbij & Hids & _). cbv zeta in Hbij, Hids.
  apply Hbij, Hids. exists k. split; [done|].
  destruct (collect_tokens_spec corpus) as (_ & (new & ->) & _). by apply lookup_app_l_Some.
Qed.

Lemma build_vocab_stable (corpus corpus' : list (list N)) (tok : list N) (i : Z) :
  token_to_id (build_vocab tokens_of self corpus) !! tok = Some i ->
  token_to_id (build_vocab tokens_of self (corpus ++ corpus')) !! tok = Some i.
Proof.
  destruct (build_vocab_spec corpus) as (Hbij & Hids & _).
  destruct (build_vocab_spec (corpus ++ corpus')) as (Hbij' & Hids' & _).
  cbv zeta in Hbij, Hids, Hbij', Hids'.
  intros (k & -> & Hk)%Hbij%Hids. apply Hbij', Hids'. exists k. split; [done|].
  destruct (collect_tokens_app corpus corpus') as [more ->]. by apply lookup_app_l_Some.
Qed.

End build_vocab.

(** X22. [build_vocab] of both classes leaves two maps that are inverse
    to each other, whatever the corpus: the special tokens have the ids 0
    to 3, and the other keys of [token_to_id] are the tokens of the
    corpus, each listed once. *)
Theorem build_vocab_bijection (nfkc lower : list N -> list N) (is_w : N -> bool)
    (self : Vocabulary.tokenizer) (corpus : list (list N)) :
  (let t := Character_Tokenizer.build_vocab nfkc lower self corpus in
   (forall tok i, token_to_id t !! tok = Some i <-> id_to_token t !! i = Some tok)
   /\ token_to_id t !! py "<pad>" = Some 0%Z /\ token_to_id t !! py "<unk>" = Some 1%Z
   /\ token_to_id t !! py "<bos>" = Some 2%Z /\ token_to_id t !! py "<eos>" = Some 3%Z
   /\ (forall tok, is_Some (token_to_id t !! tok)
                   <-> tok ∈ Character_Tokenizer.SPECIAL_TOKENS
                       \/ exists text c,
                            text ∈ corpus
                            /\ c ∈ Character_Tokenizer.normalize nfkc lower
                                     (Character_Tokenizer.normalize nfkc lower text)
                            /\ tok = [c]))
  /\ (let t := WordTokenizer.build_vocab nfkc lower is_w self corpus in
      (forall tok i, token_to_id t !! tok = Some i <-> id_to_token t !! i = Some tok)
      /\ token_to_id t !! py "<pad>" = Some 0%Z /\ token_to_id t !! py "<unk>" = Some 1%Z
      /\ token_to_id t !! py "<bos>" = Some 2%Z /\ token_to_id t !! py "<eos>" = Some 3%Z
      /\ (forall tok, is_Some (token_to_id t !! tok)
                      <-> tok ∈ WordTokenizer.SPECIAL_TOKENS
                          \/ exists text,
                               text ∈ corpus
                               /\ tok ∈ WordTokenizer.tokenize nfkc lower is_w
                                          (WordTokenizer.normalize nfkc lower text))).
Proof.
  split; cbv zeta.
  - unfold Character_Tokenizer.build_vocab.
    set (tokens_of := fun text => Character_Tokenizer.tokenize nfkc lower
                                    (Character_Tokenizer.normalize nfkc lower text)).
    destruct (build_vocab_spec tokens_of self corpus) as (Hbij & _ & Hkeys).
    cbv zeta in Hbij, Hkeys.
    split; [done|].
    split; [exact (build_vocab_special tokens_of self corpus 0 _ eq_refl)|].
    split; [exact (build_vocab_special tokens_of self corpus 1 _ eq_refl)|].
    split; [exact (build_vocab_special tokens_of self corpus 2 _ eq_refl)|].
    split; [exact (build_vocab_special tokens_of self corpus 3 _ eq_refl)|].
    intros tok. rewrite Hkeys. unfold tokens_of, Character_Tokenizer.tokenize. split.
    + intros [?|(text & Htext & Htok)]; [by left|right].
      apply list_elem_of_fmap in Htok as (c & -> & Hc). by exists text, c.
    + intros [?|(text & c & Htext & Hc & ->)]; [by left|right].
      exists text. split; [done|]. apply list_elem_of_fmap. by exists c.
  - unfold WordTokenizer.build_vocab.
    set (tokens_of := fun text => WordTokenizer.tokenize nfkc lower is_w
                                    (WordTokenizer.normalize nfkc lower text)).
    destruct (build_vocab_spec tokens_of self corpus) as (Hbij & _ & Hkeys).
    cbv zeta in Hbij, Hkeys.
    split; [done|].
    split; [exact (build_vocab_special tokens_of self corpus 0 _ eq_refl)|].
    split; [exact (build_vocab_special tokens_of self corpus 1 _ eq_refl)|].
    split; [exact (build_vocab_special tokens_of self corpus 2 _ eq_refl)|].
    split; [exact (build_vocab_special tokens_of self corpus 3 _ eq_refl)|].
    done.
Qed.

(** X23. The ids that [build_vocab] gives do not depend on the texts
    that follow in the corpus: a token keeps its id when texts are
    appended to the corpus. *)
Theorem build_vocab_ids_stable (nfkc lower : list N -> list N) (is_w : N -> bool)
    (self : Vocabulary.tokenizer) (corpus corpus' : list (list N)) (tok : list N) (i : Z) :
  (token_to_id (Character_Tokenizer.build_vocab nfkc lower self corpus) !! tok = Some i ->
   token_to_id (Character_Tokenizer.build_vocab nfkc lower self (corpus ++ corpus')) !! tok
   = Some i)
  /\ (token_to_id (WordTokenizer.build_vocab nfkc lower is_w self corpus) !! tok = Some i ->
      token_to_id (WordTokenizer.build_vocab nfkc lower is_w self (corpus ++ corpus')) !! tok
      = Some i).
Proof. split; apply build_vocab_stable. Qed.

Lemma build_vocab_ids_stable_witness :
  token_to_id (Character_Tokenizer.build_vocab id id Vocabulary.init [py "ab"; py "ca"])
    !! py "b" = Some 5%Z
  /\ token_to_id (Character_Tokenizer.build_vocab id id Vocabulary.init
                    ([py "ab"] ++ [py "ca"])) !! py "b" = Some 5%Z.
Proof.
  split; [compute_done|].
  exact (proj1 (build_vocab_ids_stable id id (fun _ => false) Vocabulary.init
                  [py "ab"] [py "ca"] (py "b") 5%Z) ltac:(compute_done)).
Defined.

Section decode_tokens.
Context (tokens_of : list N -> list (list N)) (self : tokenizer) (corpus : list (list N)).

Lemma decode_tokens_of_ids (unk_id : Z) (tokens : list (list N)) :
  let t := build_vocab tokens_of self corpus in
  token_to_id t !! py "<unk>" = Some unk_id ->
  decode_tokens t ((fun tok => default unk_id (token_to_id t !! tok)) <$> tokens)
  = filter (fun tok => is_Some (token_to_id t !! tok) /\ tok ∉ SPECIAL_TOKENS) tokens.
Proof.
  cbv zeta. intros Hunk.
  destruct (build_vocab_spec tokens_of self corpus) as (Hbij & _). cbv zeta in Hbij.
  unfold decode_tokens. induction tokens as [|tok tokens IH]; [done|].
  rewrite !fmap_cons, !filter_cons, IH.
  destruct (token_to_id (build_vocab tokens_of self corpus) !! tok) as [i|] eqn:Hi; simpl.
  - rewrite (proj1 (Hbij tok i) Hi). simpl.
    destruct (decide (tok ∈ SPECIAL_TOKENS)) as [Hs|Hs].
    + rewrite decide_False by (by intros []). by rewrite decide_False by (by intros [_ ?]).
    + rewrite decide_True by done. by rewrite decide_True by (by split).
  - by rewrite (proj1 (Hbij _ unk_id) Hunk).
Qed.

Lemma encode_built (text : list N) :
  let t := build_vocab tokens_of self corpus in
  encode tokens_of t text
  = Ok ((fun tok => default 1%Z (token_to_id t !! tok))
          <$> ([py "<bos>"] ++ tokens_of text ++ [py "<eos>"])).
Proof.
  cbv zeta. unfold encode.
  pose proof (build_vocab_special tokens_of self corpus 1 _ eq_refl) as Hunk.
  rewrite Hunk. case_decide as Hempty; [|done].
  by rewrite Hempty, lookup_empty in Hunk.
Qed.

Lemma decode_tokens_encode (text : list N) :
  let t := build_vocab tokens_of self corpus in
  decode_tokens t ((fun tok => default 1%Z (token_to_id t !! tok))
                     <$> ([py "<bos>"] ++ tokens_of text ++ [py "<eos>"]))
  = filter (fun tok => is_Some (token_to_id t !! tok) /\ tok ∉ SPECIAL_TOKENS)
      (tokens_of text).
Proof.
  cbv zeta.
  rewrite decode_tokens_of_ids
    by exact (build_vocab_special tokens_of self corpus 1 _ eq_refl).
  rewrite !filter_app, filter_cons, (filter_cons _ (py "<eos>")).
  rewrite decide_False by (intros [_ Hs]; apply Hs; compute_done).
  rewrite (decide_False (P := _ /\ py "<eos>" ∉ _))
    by (intros [_ Hs]; apply Hs; compute_done).
  by rewrite app_nil_r.
Qed.

Lemma built_nonempty :
  id_to_token (build_vocab tokens_of self corpus) <> ∅.
Proof.
  pose proof (build_vocab_special tokens_of self corpus 1 _ eq_refl) as Hunk.
  destruct (build_vocab_spec tokens_of self corpus) as (Hbij & _). cbv zeta in Hbij.
  apply Hbij in Hunk. intros Hempty. by rewrite Hempty, lookup_empty in Hunk.
Qed.

End decode_tokens.

Lemma filter_all {A : Type} (P : A -> Prop) `{forall x, Decision (P x)} (l : list A) :
  Forall P l -> filter P l = l.
Proof.
  induction 1 as [|x l Hx _ IH]; [done|].
  by rewrite filter_cons, decide_True, IH.
Qed.

Lemma single_not_special_token (c : N) : [c] ∉ SPECIAL_TOKENS.
Proof. intros Hs. by repeat (apply elem_of_cons in Hs as [?|Hs]; [done|]); apply elem_of_nil in Hs. Qed.


End VocabularyFacts.

(** ** [tokenize] and [decode] of [WordTokenizer] *)

Module WordTokenizerFacts.
Import Vocabulary VocabularyFacts.

Section findall.
Context (is_w : N -> bool).

(** A token of [tokenize]: a run of [\w] characters, or one character
    that is neither [\w] nor white space. *)
Let word_or_punctuation (tok : list N) : Prop :=
  (tok <> [] /\ Forall (fun c => is_w c = true) tok)
  \/ exists c, tok = [c] /\ is_w c = false /\ is_space c = false.

Lemma findall_spec (s cur : list N) :
  Forall (fun c => is_w c = true) cur ->
  Forall word_or_punctuation (WordTokenizer.findall is_w cur s)
  /\ concat (WordTokenizer.findall is_w cur s)
     = cur ++ filter (fun c => is_w c = true \/ is_space c = false) s.
Proof.
  revert cur. induction s as [|c s IH]; intros cur Hcur.
  - simpl. destruct cur as [|c0 cur]; [by split; [constructor|]|].
    split; [|by cbn; rewrite !app_nil_r].
    constructor; [|constructor]. by left.
  - cbn [WordTokenizer.findall]. rewrite filter_cons.
    destruct (is_w c) eqn:Hw.
    + destruct (IH (cur ++ [c])) as [H1 H2].
      { apply Forall_app. split; [done|]. by repeat constructor. }
      split; [done|]. rewrite H2, decide_True by (by left). by rewrite <- app_assoc.
    + destruct (IH []) as [H1 H2]; [constructor|]. cbn [app] in H2.
      destruct (is_space c) eqn:Hs.
      * rewrite decide_False by (intros [?|?]; congruence).
        destruct cur as [|c0 cur]; [done|]. split.
        -- constructor; [by left|done].
        -- cbn [concat]. by rewrite H2.
      * rewrite decide_True by (by right).
        assert (word_or_punctuation [c]) as Hc by (right; by exists c).
        destruct cur as [|c0 cur].
        -- split; [by constructor|]. cbn [concat app]. by rewrite H2.
        -- split; [constructor; [by left|by constructor]|].
           cbn [concat]. by rewrite H2.
Qed.

Lemma concat_decode_step (parts tokens : list (list N)) :
  concat (foldl (WordTokenizer.decode_step is_w) parts tokens)
  = concat parts ++ concat tokens.
Proof.
  revert parts. induction tokens as [|tok tokens IH]; intros parts.
  - simpl. by rewrite app_nil_r.
  - cbn [foldl concat]. rewrite IH, app_assoc. f_equal.
    unfold WordTokenizer.decode_step. destruct parts as [|x parts].
    + cbn. by rewrite app_nil_r.
    + destruct (WordTokenizer.is_punctuation is_w tok).
      * destruct (last (x :: parts)) as [z|] eqn:Hz; [|by apply last_None in Hz].
        apply last_Some in Hz as [l' Hl']. rewrite Hl'.
        rewrite length_app. simpl. replace (length l' + 1 - 1) with (length l') by lia.
        rewrite take_app_length, !concat_app. simpl. by rewrite !app_nil_r, app_assoc.
      * rewrite concat_app. simpl. by rewrite app_nil_r.
Qed.

End findall.

Lemma filter_join (parts : list (list N)) :
  filter (fun c => is_space c = false) (join (py " ") parts)
  = filter (fun c => is_space c = false) (concat parts).
Proof.
  induction parts as [|x [|y parts] IH]; [done| |].
  - cbn. by rewrite app_nil_r.
  - change (join (py " ") (x :: y :: parts)) with (x ++ py " " ++ join (py " ") (y :: parts)).
    change (concat (x :: y :: parts)) with (x ++ concat (y :: parts)).
    by rewrite !filter_app, IH.
Qed.

(** X25. [tokenize] of [WordTokenizer] loses nothing but white space:
    every token is a non-empty run of [\w] characters or one character
    that is neither [\w] nor white space, and the tokens together spell
    the normalized text without its white space. *)
Theorem tokenize_keeps_text (nfkc lower : list N -> list N) (is_w : N -> bool)
    (text : list N) :
  let tokens := WordTokenizer.tokenize nfkc lower is_w text in
  Forall (fun tok => (tok <> [] /\ Forall (fun c => is_w c = true) tok)
                     \/ exists c, tok = [c] /\ is_w c = false /\ is_space c = false) tokens
  /\ concat tokens
     = filter (fun c => is_w c = true \/ is_space c = false)
         (WordTokenizer.normalize nfkc lower text).
Proof.
  cbv zeta. unfold WordTokenizer.tokenize.
  by destruct (findall_spec is_w (WordTokenizer.normalize nfkc lower text) [])
    as [? ?]; [constructor|].
Qed.

(** X26. In [WordTokenizer], with a class [\w] that holds neither white
    space nor ['<'], [decode(encode(text))] differs from the text
    normalized twice in white space only, for every text of the corpus;
    in general it spells the tokens of the text that the vocabulary
    holds. *)
Theorem word_decode_encode (nfkc lower : list N -> list N) (is_w : N -> bool)
    (self : Vocabulary.tokenizer) (corpus : list (list N)) (text : list N) :
  (forall c, is_w c = true -> is_space c = false) -> is_w 60%N = false ->
  let t := WordTokenizer.build_vocab nfkc lower is_w self corpus in
  let n := WordTokenizer.normalize nfkc lower (WordTokenizer.normalize nfkc lower text) in
  exists ids decoded,
    WordTokenizer.encode nfkc lower is_w t text = Ok ids
    /\ WordTokenizer.decode is_w t ids = Ok decoded
    /\ filter (fun c => is_space c = false) decoded
       = concat (filter (fun tok => is_Some (token_to_id t !! tok))
                   (WordTokenizer.tokenize nfkc lower is_w
                      (WordTokenizer.normalize nfkc lower text)))
    /\ (text ∈ corpus ->
        filter (fun c => is_space c = false) decoded
        = filter (fun c => is_space c = false) n).
Proof.
  intros Hdisj Hlt. cbv zeta.
  unfold WordTokenizer.build_vocab, WordTokenizer.encode.
  set (tokens_of := fun text => WordTokenizer.tokenize nfkc lower is_w
                                  (WordTokenizer.normalize nfkc lower text)).
  set (t := build_vocab tokens_of self corpus).
  destruct (findall_spec is_w
              (WordTokenizer.normalize nfkc lower (WordTokenizer.normalize nfkc lower text)) [])
    as [Hshape Hconcat]; [constructor|].
  cbn [app] in Hconcat.
  change (WordTokenizer.findall is_w []
            (WordTokenizer.normalize nfkc lower (WordTokenizer.normalize nfkc lower text)))
    with (tokens_of text) in Hshape, Hconcat.
  assert (Forall (fun tok => tok ∉ SPECIAL_TOKENS) (tokens_of text)) as Hns.
  { eapply Forall_impl; [exact Hshape|]. intros tok [[_ Hw]|(c & -> & _)] Hs.
    - apply MarkerFacts.special_has_lt in Hs. rewrite Forall_forall in Hw.
      specialize (Hw _ Hs). congruence.
    - by apply single_not_special_token in Hs. }
  assert (Forall (Forall (fun c => is_space c = false)) (tokens_of text)) as Hnsp.
  { eapply Forall_impl; [exact Hshape|]. intros tok [[_ Hw]|(c & -> & _ & Hc)].
    - eapply Forall_impl; [exact Hw|]. intros c. apply Hdisj.
    - by repeat constructor. }
  exists ((fun tok => default 1%Z (token_to_id t !! tok))
            <$> ([py "<bos>"] ++ tokens_of text ++ [py "<eos>"])).
  eexists. split; [apply encode_built|].
  unfold WordTokenizer.decode. rewrite decide_False by apply built_nonempty.
  split; [reflexivity|].
  unfold t. rewrite decode_tokens_encode. fold t.
  rewrite filter_join, concat_decode_step. cbn [concat app].
  assert (filter (fun tok => is_Some (token_to_id t !! tok) /\ tok ∉ SPECIAL_TOKENS)
            (tokens_of text)
          = filter (fun tok => is_Some (token_to_id t !! tok)) (tokens_of text)) as ->.
  { clear -Hns. induction Hns as [|tok l Htok _ IH]; [done|].
    rewrite !filter_cons, IH.
    destruct (decide (is_Some (token_to_id t !! tok))) as [Hk|Hk].
    - by rewrite decide_True by done.
    - by rewrite decide_False by (by intros [? _]). }
  assert (forall l, Forall (Forall (fun c => is_space c = false)) l ->
            filter (fun c => is_space c = false) (concat l) = concat l) as Hfilter.
  { intros l Hl. apply filter_all. by apply Forall_concat. }
  split.
  - apply Hfilter. eapply SegmentFacts.Forall_sub; [apply list_subseteq_filter|done].
  - intros Htext. rewrite (filter_all (fun tok => is_Some (token_to_id t !! tok))).
    + rewrite Hfilter by done. rewrite Hconcat.
      apply list_filter_iff. intros c. split; [|by right].
      intros [Hw|?]; [by apply Hdisj|done].
    + rewrite Forall_forall. intros tok Htok.
      destruct (build_vocab_spec tokens_of self corpus) as (_ & _ & Hkeys). cbv zeta in Hkeys.
      apply Hkeys. right. by exists text.
Qed.

Lemma word_decode_encode_witness :
  let is_w := fun c => ((48 <=? c) && (c <=? 57) || (65 <=? c) && (c <=? 90)
                        || (97 <=? c) && (c <=? 122) || (c =? 95))%N in
  let t := WordTokenizer.build_vocab id id is_w Vocabulary.init [py "hello, world!"] in
  exists ids decoded,
    WordTokenizer.encode id id is_w t (py "hello, world!") = Ok ids
    /\ WordTokenizer.decode is_w t ids = Ok decoded
    /\ filter (fun c => is_space c = false) decoded = py "hello,world!".
Proof.
  intros is_w t.
  destruct (word_decode_encode id id is_w Vocabulary.init [py "hello, world!"]
              (py "hello, world!")) as (ids & decoded & Henc & Hdec & _ & Hfilter).
  - intros c. unfold is_w, is_space.
    rewrite !orb_true_iff, !andb_true_iff, !N.leb_le, !N.eqb_eq.
    intros Hc. apply not_true_is_false.
    rewrite !orb_true_iff, !andb_true_iff, !N.leb_le, !N.eqb_eq. lia.
  - reflexivity.
  - exists ids, decoded. split; [exact Henc|]. split; [exact Hdec|].
    apply Hfilter. by left.
Defined.

End WordTokenizerFacts.

(** ** The size of the vocabulary *)

Module SizeFacts.
Import Common CountFacts VocabFacts MergePass TrainedFacts.

Lemma size_union_bound (X Y : gset (list N)) : size (X ∪ Y) <= size X + size Y.
Proof.
  rewrite size_union_alt.
  assert (size (Y ∖ X) <= size Y).
  { apply subseteq_size. intros x Hx. by apply elem_of_difference in Hx as [? _]. }
  lia.
Qed.

Lemma size_list_to_set_le (l : list (list N)) :
  size (list_to_set l : gset (list N)) <= length l.
Proof.
  induction l as [|x l IH]; [done|]. cbn [list_to_set length].
  etransitivity; [apply size_union_bound|]. rewrite size_singleton. lia.
Qed.

Lemma collect_symbols_merge (a b : list N) (bpe_vocab : list (list (list N) * nat)) :
  collect_symbols (_merge_vocab (a, b) bpe_vocab) ⊆ collect_symbols bpe_vocab ∪ {[a ++ b]}.
Proof.
  intros sym (word & Hword & Hsym)%collect_symbols_elem.
  destruct (merge_vocab_spec (a, b) bpe_vocab) as (_ & Hk & _). cbv zeta in Hk.
  apply Hk in Hword as (word' & Hword' & ->).
  apply elem_of_union. apply merge_word_elem in Hsym as [Hsym| ->].
  - left. apply collect_symbols_elem. by exists word'.
  - right. by apply elem_of_singleton.
Qed.

Lemma train_loop_symbols (n : nat) (bpe_vocab : list (list (list N) * nat))
    (merges : list (list N * list N)) :
  exists new,
    (train_loop n bpe_vocab merges).2 = merges ++ new
    /\ length new <= n
    /\ collect_symbols (train_loop n bpe_vocab merges).1
       ⊆ collect_symbols bpe_vocab ∪ list_to_set ((fun p => p.1 ++ p.2) <$> new).
Proof.
  revert bpe_vocab merges. induction n as [|n IH]; intros bpe_vocab merges.
  - exists []. simpl. rewrite app_nil_r. split; [done|]. split; [done|].
    apply union_subseteq_l.
  - simpl. destruct (max_by_value (_get_pair_stats bpe_vocab)) as [[[a b] count]|].
    2:{ exists []. simpl. rewrite app_nil_r. split; [done|]. split; [lia|].
        apply union_subseteq_l. }
    destruct (count <? 2).
    { exists []. simpl. rewrite app_nil_r. split; [done|]. split; [lia|].
      apply union_subseteq_l. }
    destruct (IH (_merge_vocab (a, b) bpe_vocab) (merges ++ [(a, b)]))
      as (new & Hnew & Hlen & Hsub).
    exists ((a, b) :: new). split; [by rewrite Hnew, <- app_assoc|]. split; [simpl; lia|].
    etransitivity; [exact Hsub|]. pose proof (collect_symbols_merge a b bpe_vocab) as Hm.
    rewrite fmap_cons. cbn [list_to_set fst snd].
    intros x [Hx|Hx]%elem_of_union.
    + apply Hm, elem_of_union in Hx as [Hx|Hx]; apply elem_of_union; [by left|right].
      apply elem_of_union. by left.
    + apply elem_of_union. right. apply elem_of_union. by right.
Qed.

Lemma train_from_size {T : Type} `{Countable T} (special_tokens : list T)
    (of_symbol : list N -> T) (self : tokenizer T) (bpe_vocab : list (list (list N) * nat)) :
  let t := train_from special_tokens of_symbol self bpe_vocab in
  exists new,
    merges t = merges self ++ new
    /\ length new <= Z.to_nat (num_merges self)
    /\ size (collect_symbols (_bpe_vocab t)) <= size (collect_symbols bpe_vocab) + length new.
Proof.
  cbv zeta.
  destruct (MapFacts.train_from_vocab_list special_tokens of_symbol self bpe_vocab)
    as (vl & v' & ms' & _ & Hloop & _ & _ & -> & -> & _).
  destruct (train_loop_symbols (Z.to_nat (num_merges self)) bpe_vocab (merges self))
    as (new & Hnew & Hlen & Hsub).
  rewrite Hloop in Hnew, Hsub. cbn [fst snd] in Hnew, Hsub.
  exists new. split; [done|]. split; [done|].
  etransitivity; [apply subseteq_size, Hsub|].
  etransitivity; [apply size_union_bound|].
  pose proof (size_list_to_set_le ((fun p => p.1 ++ p.2) <$> new)) as Hl.
  rewrite length_fmap in Hl. lia.
Qed.

(** The bytes of UTF-8 are below 256. *)
Lemma utf8_encode_char_bytes (c : N) (b : list N) :
  utf8_encode_char c = Some b -> Forall (fun byte => (byte < 256)%N) b.
Proof.
  unfold utf8_encode_char.
  destruct (c <? 128)%N eqn:E1.
  { apply N.ltb_lt in E1. intros [= <-]. repeat constructor. lia. }
  destruct (c <? 2048)%N eqn:E2.
  { apply N.ltb_lt in E2. intros [= <-].
    assert (c / 64 < 32)%N by (apply N.Div0.div_lt_upper_bound; lia).
    pose proof (N.mod_lt c 64 ltac:(lia)). repeat constructor; lia. }
  destruct (c <? 65536)%N eqn:E3.
  { apply N.ltb_lt in E3. destruct ((55296 <=? c) && (c <=? 57343))%N; [done|].
    intros [= <-].
    assert (c / 4096 < 16)%N by (apply N.Div0.div_lt_upper_bound; lia).
    pose proof (N.mod_lt (c / 64) 64 ltac:(lia)).
    pose proof (N.mod_lt c 64 ltac:(lia)). repeat constructor; lia. }
  destruct (c <? 1114112)%N eqn:E4; [|done].
  apply N.ltb_lt in E4. intros [= <-].
  assert (c / 262144 < 5)%N by (apply N.Div0.div_lt_upper_bound; lia).
  pose proof (N.mod_lt (c / 4096) 64 ltac:(lia)).
  pose proof (N.mod_lt (c / 64) 64 ltac:(lia)).
  pose proof (N.mod_lt c 64 ltac:(lia)). repeat constructor; lia.
Qed.

Lemma utf8_encode_bytes (s b : list N) :
  utf8_encode s = Some b -> Forall (fun byte => (byte < 256)%N) b.
Proof.
  revert b. induction s as [|c s IH]; intros b; simpl; [by intros [= <-]|].
  destruct (utf8_encode_char c) as [b1|] eqn:E1; [|done].
  destruct (utf8_encode s) as [b2|]; [|done].
  intros [= <-]. apply Forall_app. split; [by eapply utf8_encode_char_bytes|by apply IH].
Qed.

Lemma byte_alphabet (nfkc lower : list N -> list N) (corpus : list (list N))
    (bpe_vocab : list (list (list N) * nat)) :
  ByteBPE_Tokenizer._get_bpe_vocab_from_corpus nfkc lower corpus = Ok bpe_vocab ->
  size (collect_symbols bpe_vocab) <= 256.
Proof.
  intros Hv. pose proof (byte_vocab_spec nfkc lower corpus) as Hspec. rewrite Hv in Hspec.
  destruct Hspec as (lines & Hlines & _ & Hk & _).
  transitivity (size (list_to_set ((fun k => [N.of_nat k]) <$> seq 0 256) : gset (list N))).
  - apply subseteq_size. intros sym (word & Hword & Hsym)%collect_symbols_elem.
    apply Hk in Hword as (b & Hb & _ & ->).
    apply list_elem_of_fmap in Hsym as (byte & -> & Hbyte).
    apply list_elem_of_lookup_1 in Hb as [k Hb].
    destruct (Forall2_lookup_r _ _ _ _ _ Hlines Hb) as (line & _ & Hutf).
    apply utf8_encode_bytes in Hutf. rewrite Forall_forall in Hutf.
    specialize (Hutf byte Hbyte).
    apply elem_of_list_to_set, list_elem_of_fmap. exists (N.to_nat byte).
    split; [by rewrite N2Nat.id|]. apply elem_of_seq. lia.
  - etransitivity; [apply size_list_to_set_le|]. by rewrite length_fmap, length_seq.
Qed.

(** X27. [train] adds at most one symbol to the vocabulary for each merge
    that it appends: the distinct symbols of the final [_bpe_vocab] are at
    most those of the vocabulary it starts from plus the number of new
    merges, itself at most [num_merges]. In the byte class the symbols at
    the start are single bytes, so that there are at most
    256 + [num_merges] symbols. *)
Theorem vocabulary_size_bound (nfkc lower : list N -> list N)
    (self : BPE_Tokenizer.tokenizer) (bself : ByteBPE_Tokenizer.tokenizer)
    (corpus : list (list N)) :
  (let t := BPE_Tokenizer.train nfkc lower self corpus in
   exists new,
     merges t = merges self ++ new
     /\ length new <= Z.to_nat (num_merges self)
     /\ size (collect_symbols (_bpe_vocab t))
        <= size (collect_symbols (BPE_Tokenizer._get_bpe_vocab_from_corpus nfkc lower corpus))
           + length new)
  /\ match ByteBPE_Tokenizer.train nfkc lower bself corpus with
     | Ok t =>
         exists new,
           merges t = merges bself ++ new
           /\ length new <= Z.to_nat (num_merges bself)
           /\ size (collect_symbols (_bpe_vocab t)) <= 256 + length new
     | Raise e => e = UnicodeEncodeError
     end.
Proof.
  split; [apply train_from_size|].
  unfold ByteBPE_Tokenizer.train.
  pose proof (byte_vocab_spec nfkc lower corpus) as Hv.
  destruct (ByteBPE_Tokenizer._get_bpe_vocab_from_corpus nfkc lower corpus) as [v|e] eqn:Ev;
    [|by destruct Hv].
  destruct (train_from_size ByteBPE_Tokenizer.SPECIAL_TOKENS ByteBPE_Tokenizer.TBytes bself v)
    as (new & Hnew & Hlen & Hsize).
  exists new. split; [done|]. split; [done|].
  pose proof (byte_alphabet nfkc lower corpus v Ev). lia.
Qed.

End SizeFacts.

(** ** Where [encode] puts the ids of the special tokens *)

Module EncodeShape.
Import Common CountFacts VocabFacts MergePass TrainedFacts SegmentationFacts MarkerFacts.

Lemma to_ids_symbols (t : BPE_Tokenizer.tokenizer) (symbols : list (list N)) :
  (forall sym i, sym ∈ symbols -> token_to_id t !! sym = Some i -> (4 <= i)%Z) ->
  Forall (fun i => i = 1%Z \/ (4 <= i)%Z) (BPE_Tokenizer.to_ids t 1 symbols).
Proof.
  intros Hids. unfold BPE_Tokenizer.to_ids. apply Forall_fmap, Forall_forall.
  intros sym Hsym. simpl.
  destruct (token_to_id t !! sym) as [i|] eqn:Hi; simpl; [right|by left].
  by eapply Hids.
Qed.

Lemma byte_to_ids_symbols (t : ByteBPE_Tokenizer.tokenizer) (symbols : list (list N)) :
  (forall sym i, token_to_id t !! ByteBPE_Tokenizer.TBytes sym = Some i -> (4 <= i)%Z) ->
  Forall (fun i => i = 1%Z \/ (4 <= i)%Z)
    (ByteBPE_Tokenizer.to_ids t 1 (ByteBPE_Tokenizer.TBytes <$> symbols)).
Proof.
  intros Hids. unfold ByteBPE_Tokenizer.to_ids. apply Forall_fmap, Forall_fmap, Forall_forall.
  intros sym Hsym. simpl.
  destruct (token_to_id t !! ByteBPE_Tokenizer.TBytes sym) as [i|] eqn:Hi; simpl;
    [right|by left].
  by eapply Hids.
Qed.

(** X28. After [train], the ids that [encode] returns are 2 (["<bos>"]),
    then one id per symbol of the text, then 3 (["<eos>"]); the id of a
    symbol is 1 (["<unk>"]) or at least 4, so that the ids of ["<pad>"],
    ["<bos>"] and ["<eos>"] stand nowhere else. This holds in the byte
    class always, and in the character class when neither the normalized
    lines of the corpus nor the normalized text hold a ['<']. *)
Theorem encode_specials_at_ends (nfkc lower : list N -> list N)
    (self : BPE_Tokenizer.tokenizer) (bself : ByteBPE_Tokenizer.tokenizer)
    (corpus : list (list N)) (text : list N) :
  (Forall (fun line => 60%N ∉ BPE_Tokenizer.normalize nfkc lower line) corpus ->
   60%N ∉ BPE_Tokenizer.normalize nfkc lower text ->
   let t := BPE_Tokenizer.train nfkc lower self corpus in
   exists middle,
     BPE_Tokenizer.encode nfkc lower t text = Ok (2%Z :: middle ++ [3%Z])
     /\ Forall (fun i => i = 1%Z \/ (4 <= i)%Z) middle
     /\ length middle
        = length (concat (BPE_Tokenizer._encode_word t
                            <$> split (BPE_Tokenizer.normalize nfkc lower text))))
  /\ match ByteBPE_Tokenizer.train nfkc lower bself corpus with
     | Ok t =>
         match utf8_encode (ByteBPE_Tokenizer.normalize nfkc lower text) with
         | Some words =>
             exists middle,
               ByteBPE_Tokenizer.encode nfkc lower t text = Ok (2%Z :: middle ++ [3%Z])
               /\ Forall (fun i => i = 1%Z \/ (4 <= i)%Z) middle
               /\ length middle = length (ByteBPE_Tokenizer._encode_bytes t words)
         | None => ByteBPE_Tokenizer.encode nfkc lower t text = Raise UnicodeEncodeError
         end
     | Raise e => e = UnicodeEncodeError
     end.
Proof.
  split.
  - intros Hcorpus Htext. cbv zeta.
    set (t := BPE_Tokenizer.train nfkc lower self corpus).
    destruct (BijectionFacts.character_train_bijection nfkc lower self corpus)
      as (symbols & _ & _ & _ & Hbij & Hids).
    { intros sym (word & Hword & Hsym)%collect_symbols_elem.
      apply (train_marked nfkc lower self corpus Hcorpus), marked_symbols in Hword as [Hs _].
      rewrite Forall_forall in Hs. by apply Hs. }
    fold t in Hbij, Hids.
    assert (forall k tok, BPE_Tokenizer.SPECIAL_TOKENS !! k = Some tok ->
              token_to_id t !! tok = Some (Z.of_nat k)) as Hspecial.
    { intros k tok Hk. apply Hbij, Hids. exists k. split; [done|].
      by apply lookup_app_l_Some. }
    pose proof (Hspecial 1 _ eq_refl) as Hunk.
    pose proof (Hspecial 2 _ eq_refl) as Hbos.
    pose proof (Hspecial 3 _ eq_refl) as Heos.
    rewrite (BPE_TokenizerFacts.encode_trained nfkc lower t text 1 Hunk).
    rewrite SplitFacts.filter_words by apply SplitFacts.split_words.
    set (syms := concat (BPE_Tokenizer._encode_word t
                           <$> split (BPE_Tokenizer.normalize nfkc lower text))).
    exists (BPE_Tokenizer.to_ids t 1 syms). split; [|split].
    + unfold BPE_Tokenizer.to_ids. rewrite !fmap_app. cbn [fmap list_fmap app].
      by rewrite Hbos, Heos.
    + apply to_ids_symbols. intros sym i Hsym Hi.
      apply elem_of_concat in Hsym as (l & Hsym & Hl).
      apply list_elem_of_fmap in Hl as (w & -> & Hw).
      destruct (marked_symbols (BPE_Tokenizer._encode_word t w)) as [Hs _].
      { apply encode_word_marked. intros Hc. apply Htext. by eapply split_chars. }
      rewrite Forall_forall in Hs. specialize (Hs sym Hsym).
      apply Hbij, Hids in Hi as (k & -> & Hk).
      destruct (decide (k < 4)) as [Hlt|Hge]; [|lia].
      exfalso. apply Hs. rewrite lookup_app_l in Hk by (simpl; lia).
      by eapply list_elem_of_lookup_2.
    + unfold BPE_Tokenizer.to_ids. by rewrite length_fmap.
  - destruct (ByteBPE_Tokenizer.train nfkc lower bself corpus) as [t|e] eqn:Et.
    + assert (ByteBPE_Tokenizer.trained nfkc lower t) as Htrained by (by exists bself, corpus).
      destruct (BijectionFacts.byte_train_bijection nfkc lower t Htrained)
        as (symbols & _ & _ & _ & Hbij & Hids).
      assert (forall k tok, ByteBPE_Tokenizer.SPECIAL_TOKENS !! k = Some tok ->
                token_to_id t !! tok = Some (Z.of_nat k)) as Hspecial.
      { intros k tok Hk. apply Hbij, Hids. exists k. split; [done|].
        by apply lookup_app_l_Some. }
      pose proof (Hspecial 1 _ eq_refl) as Hunk.
      pose proof (Hspecial 2 _ eq_refl) as Hbos.
      pose proof (Hspecial 3 _ eq_refl) as Heos.
      destruct (utf8_encode (ByteBPE_Tokenizer.normalize nfkc lower text)) as [words|] eqn:Ew.
      * rewrite (ByteBPE_TokenizerFacts.byte_encode_trained nfkc lower t text 1 words Hunk Ew).
        exists (ByteBPE_Tokenizer.to_ids t 1
                  (ByteBPE_Tokenizer.TBytes <$> ByteBPE_Tokenizer._encode_bytes t words)).
        split; [|split].
        -- unfold ByteBPE_Tokenizer.to_ids. rewrite !fmap_app. cbn [fmap list_fmap app].
           by rewrite Hbos, Heos.
        -- apply byte_to_ids_symbols. intros sym i Hi.
           apply Hbij, Hids in Hi as (k & -> & Hk).
           destruct (decide (k < 4)) as [Hlt|Hge]; [|lia].
           exfalso. rewrite lookup_app_l in Hk by (simpl; lia).
           apply list_elem_of_lookup_2 in Hk.
           by apply ByteBPE_TokenizerFacts.bytes_not_special in Hk.
        -- unfold ByteBPE_Tokenizer.to_ids. by rewrite !length_fmap.
      * unfold ByteBPE_Tokenizer.encode. rewrite Ew. case_decide as Hempty; [|done].
        by destruct (ByteBPE_TokenizerFacts.byte_train_nonempty nfkc lower t Htrained).
    + unfold ByteBPE_Tokenizer.train in Et.
      pose proof (byte_vocab_spec nfkc lower corpus) as Hv.
      destruct (ByteBPE_Tokenizer._get_bpe_vocab_from_corpus nfkc lower corpus) as [v|e'];
        [done|]. injection Et as <-. by destruct Hv.
Qed.

Lemma encode_specials_at_ends_witness :
  let corpus := [py "low"; py "lower"; py "lowest"; py "low low lower"] in
  let t := BPE_Tokenizer.train id id (BPE_Tokenizer.init 20) corpus in
  exists middle,
    BPE_Tokenizer.encode id id t (py "lower slow") = Ok (2%Z :: middle ++ [3%Z])
    /\ Forall (fun i => i = 1%Z \/ (4 <= i)%Z) middle.
Proof.
  intros corpus t.
  destruct (proj1 (encode_specials_at_ends id id (BPE_Tokenizer.init 20)
                     (ByteBPE_Tokenizer.init 20) corpus (py "lower slow"))
              ltac:(compute_done) ltac:(compute_done)) as (middle & Henc & Hmid & _).
  exact (ex_intro _ middle (conj Henc Hmid)).
Defined.

End EncodeShape.

(** ** A corpus without words *)

Module EmptyCorpus.
Import Common CountFacts VocabFacts TrainedFacts.







End EmptyCorpus.
